(** * Membership synchronizer: Google Workspace group -> Slack channel

    A shallow embedding of [sync_service.py] (the config-driven variant) and
    of the diff computed by [aligner.py], with the properties of the
    reconciliation procedure: the set difference, the safety ceiling, the
    removal filters, the invite and kick operations and the report.

    Conventions of the embedding.
    - Python sets of strings are [gset string], dicts keyed by strings are
      [gmap string _].  The iteration order of a Python set is unspecified;
      it is a parameter ([SetOrder]) of every function that iterates a set.
    - The Slack and Google web APIs are an environment [Env] of response
      functions.  Every response may depend on the history of the calls made
      so far, so the environment may be stateful.
    - Functions that call an API, write to the log or raise are written in a
      state-and-exception monad [M]: the state survives a raised exception,
      as the mutated Python objects do. *)

From stdpp Require Import base gmap sets list strings pretty.

Open Scope string_scope.
Set Warnings "-clear-no-such-hyp".

(** ** Data model *)

(** The per-user record stored in both caches by [populate_user_cache]. *)
Record UserData := {
  user_id : string;
  user_email : string;
  is_admin : bool;
  is_owner : bool;
  is_bot : bool;
  is_app_user : bool;
  is_restricted : bool
}.

(** [SlackSyncClient]: [user_cache] is keyed by email, [id_map] by user id. *)
Record SlackSyncClient := {
  user_cache : gmap string UserData;
  id_map : gmap string UserData
}.

(** The terminal status tag of [SyncStats]; the code stores its name. *)
Inductive Status := Success | Aborted | Failed.

Definition status_name (s : Status) : string :=
  match s with
  | Success => "Success"
  | Aborted => "Aborted"
  | Failed => "Failed"
  end.

#[global] Instance Status_eq_dec : EqDecision Status.
Proof. solve_decision. Defined.

Record SyncStats := {
  mapping_name : string;
  added : nat;
  removed : nat;
  skipped : nat;
  missing_accounts : list string;
  errors : list string;
  status : Status
}.

(** [SyncStats(mapping_name=...)] with the dataclass defaults. *)
Definition new_stats (n : string) : SyncStats :=
  {| mapping_name := n; added := 0; removed := 0; skipped := 0;
     missing_accounts := []; errors := []; status := Success |}.

Definition set_added (n : nat) (s : SyncStats) : SyncStats :=
  {| mapping_name := mapping_name s; added := n; removed := removed s;
     skipped := skipped s; missing_accounts := missing_accounts s;
     errors := errors s; status := status s |}.

Definition set_missing_accounts (l : list string) (s : SyncStats) : SyncStats :=
  {| mapping_name := mapping_name s; added := added s; removed := removed s;
     skipped := skipped s; missing_accounts := l;
     errors := errors s; status := status s |}.

Definition incr_removed (s : SyncStats) : SyncStats :=
  {| mapping_name := mapping_name s; added := added s; removed := removed s + 1;
     skipped := skipped s; missing_accounts := missing_accounts s;
     errors := errors s; status := status s |}.

Definition incr_skipped (s : SyncStats) : SyncStats :=
  {| mapping_name := mapping_name s; added := added s; removed := removed s;
     skipped := skipped s + 1; missing_accounts := missing_accounts s;
     errors := errors s; status := status s |}.

Definition append_error (msg : string) (s : SyncStats) : SyncStats :=
  {| mapping_name := mapping_name s; added := added s; removed := removed s;
     skipped := skipped s; missing_accounts := missing_accounts s;
     errors := errors s ++ [msg]; status := status s |}.

Definition set_status (st : Status) (s : SyncStats) : SyncStats :=
  {| mapping_name := mapping_name s; added := added s; removed := removed s;
     skipped := skipped s; missing_accounts := missing_accounts s;
     errors := errors s; status := st |}.

(** [settings] of the configuration document.  A key may be absent. *)
Record Settings := {
  dry_run : option bool;
  max_changes_per_run : option Z;
  notify_channel_id : option string
}.

(** One entry of [mappings].  [name], [google_group] and [slack_channel] are
    read with [m[...]]; the other two with [m.get(..., default)]. *)
Record Mapping := {
  name : string;
  google_group : string;
  slack_channel : string;
  protected_slack_users : option (list string);
  enabled : option bool
}.

(** ** Exceptions, API calls and the environment *)

(** [SlackApiError] carries the error code of the response; every exception
    has a text, which is what [str(e)] gives. *)
Inductive Exn :=
  | SlackApiError (error : string) (text : string)
  | Exception (text : string).

Definition str (e : Exn) : string :=
  match e with
  | SlackApiError _ t => t
  | Exception t => t
  end.

(** A block of the report message:
    [{"type": .., "text": {"type": .., "text": ..}}]. *)
Record Block := {
  block_type : string;
  text_type : string;
  text : string
}.

(** The calls that change something outside the process. *)
Inductive Call :=
  | conversations_invite (channel : string) (users : list string)
  | conversations_kick (channel : string) (user : string)
  | chat_postMessage (channel : string) (blocks : list Block).

(** A call together with its outcome: [None] when it returned, [Some e] when
    it raised [e]. *)
Record Event := {
  ev_call : Call;
  ev_raised : option Exn
}.

(** Invite and kick are the calls that mutate channel membership. *)
Definition mutating (ev : Event) : bool :=
  match ev_call ev with
  | conversations_invite _ _ => true
  | conversations_kick _ _ => true
  | chat_postMessage _ _ => false
  end.

(** The records written to the logger, one constructor per logging site. *)
Inductive LogRecord :=
  | log_google_error (group : string) (e : Exn)
  | log_channel_member_error (channel : string) (error : string)
  | log_no_account (email : string)
  | log_would_invite (chunk : list string)
  | log_invite_failed (error : string)
  | log_would_kick (user : string)
  | log_kicked (user : string)
  | log_kick_failed (user : string) (error : string)
  | log_post_failed (e : Exn)
  | log_processing (name group channel : string)
  | log_abort (msg : string)
  | log_skip_protected (email : string)
  | log_skip_admin_owner (email : string)
  | log_skip_bot (email : string)
  | log_mapping_failed (e : Exn)
  | log_starting (dry_run : option bool)
  | log_complete.

(** What the process has done to the outside so far. *)
Record World := {
  events : list Event;
  log : list LogRecord
}.

Definition empty_world : World := {| events := []; log := [] |}.

(** The two external services.  [group_members] and [channel_members] stand
    for the whole paginated listing done by [get_group_members] and
    [get_channel_members]: the set accumulated over all pages, or the
    exception raised by one of the requests. *)
Record Env := {
  group_members : list Event -> string -> Exn + gset string;
  channel_members : list Event -> string -> Exn + gset string;
  invite_response : list Event -> string -> list string -> option Exn;
  kick_response : list Event -> string -> string -> option Exn;
  post_response : list Event -> string -> list Block -> option Exn
}.

(** An enumeration of the elements of a set, in the order in which Python
    iterates over it. *)
Record SetOrder := {
  enum : gset string -> list string;
  enum_perm : forall X, enum X ≡ₚ elements X
}.

Definition elements_order : SetOrder :=
  {| enum := elements; enum_perm := fun X => reflexivity (elements X) |}.

(** ** The state-and-exception monad *)

Definition M (S A : Type) : Type := S -> S * (Exn + A).

Definition ret {S A} (a : A) : M S A := fun s => (s, inr a).

Definition bind {S A B} (c : M S A) (k : A -> M S B) : M S B :=
  fun s =>
    match c s with
    | (s', inr a) => k a s'
    | (s', inl e) => (s', inl e)
    end.

Definition raise {S A} (e : Exn) : M S A := fun s => (s, inl e).

(** [try: body except <filter>: handler].  The handler is chosen by the
    exception; [None] means the [except] clause does not match and the
    exception propagates. *)
Definition try_except {S A} (body : M S A) (handler : Exn -> option (M S A)) : M S A :=
  fun s =>
    match body s with
    | (s', inr a) => (s', inr a)
    | (s', inl e) =>
        match handler e with
        | Some h => h s'
        | None => (s', inl e)
        end
    end.

Notation "'let*' x ':=' c 'in' k" := (bind c (fun x => k))
  (at level 10, x pattern, c at level 100, k at level 200).
Notation "c ;;; k" := (bind c (fun _ => k))
  (at level 100, k at level 200, right associativity).

(** Writing a log record. *)
Definition logger (r : LogRecord) : M World unit :=
  fun w => ({| events := events w; log := log w ++ [r] |}, inr tt).

(** Performing a call: the environment answers from the history, the call and
    its outcome are appended to the history. *)
Definition perform (c : Call) (answer : list Event -> option Exn) : M World unit :=
  fun w =>
    let r := answer (events w) in
    ({| events := events w ++ [{| ev_call := c; ev_raised := r |}]; log := log w |},
     match r with
     | Some e => inl e
     | None => inr tt
     end).

(** ** The clients *)

Definition listing (r : Exn + gset string) : M World (gset string) :=
  match r with
  | inr members => ret members
  | inl e => raise e
  end.

(** [GoogleDirectoryClient.get_group_members]: any exception of the listing
    is logged and raised again. *)
Definition get_group_members (env : Env) (group_email : string) : M World (gset string) :=
  fun w =>
    try_except (listing (group_members env (events w) group_email))
      (fun e => Some (logger (log_google_error group_email e) ;;; raise e)) w.

(** [SlackSyncClient.get_channel_members]: only a [SlackApiError] is logged;
    every exception propagates. *)
Definition get_channel_members (env : Env) (channel_id : string) : M World (gset string) :=
  fun w =>
    try_except (listing (channel_members env (events w) channel_id))
      (fun e =>
         match e with
         | SlackApiError err _ =>
             Some (logger (log_channel_member_error channel_id err) ;;; raise e)
         | Exception _ => None
         end) w.

(** The first loop of [invite_users]: emails found in [user_cache] give a user
    id to invite, the others are collected as missing accounts. *)
Fixpoint resolve_emails (c : SlackSyncClient) (emails : list string)
    (user_ids_to_invite missing_accounts : list string)
    : M World (list string * list string) :=
  match emails with
  | [] => ret (user_ids_to_invite, missing_accounts)
  | email :: rest =>
      match user_cache c !! email with
      | Some user_data =>
          resolve_emails c rest (user_ids_to_invite ++ [user_id user_data]) missing_accounts
      | None =>
          logger (log_no_account email) ;;;
          resolve_emails c rest user_ids_to_invite (missing_accounts ++ [email])
      end
  end.

Definition chunk_size : nat := 30.

(** [range(0, stop, step)] *)
Definition range (stop step : nat) : list nat :=
  (fun k => k * step) <$> seq 0 ((stop + step - 1) / step).

(** [l[i:j]] *)
Definition slice {A} (l : list A) (i j : nat) : list A := take (j - i) (drop i l).

(** One iteration of the second loop of [invite_users]; the result is the new
    value of [added_count].  The one-second pause after a successful call
    changes nothing that is modelled. *)
Definition invite_chunk (env : Env) (channel_id : string) (dry_run : bool)
    (chunk : list string) (added_count : nat) : M World nat :=
  if dry_run then
    logger (log_would_invite chunk) ;;; ret (added_count + length chunk)
  else
    try_except
      (perform (conversations_invite channel_id chunk)
               (fun h => invite_response env h channel_id chunk) ;;;
       ret (added_count + length chunk))
      (fun e =>
         match e with
         | SlackApiError err _ =>
             Some (if decide (err = "already_in_channel") then ret added_count
                   else logger (log_invite_failed err) ;;; ret added_count)
         | Exception _ => None
         end).

Fixpoint invite_loop (env : Env) (channel_id : string) (dry_run : bool)
    (user_ids_to_invite : list string) (starts : list nat) (added_count : nat)
    : M World nat :=
  match starts with
  | [] => ret added_count
  | i :: rest =>
      let* n := invite_chunk env channel_id dry_run
                  (slice user_ids_to_invite i (i + chunk_size)) added_count in
      invite_loop env channel_id dry_run user_ids_to_invite rest n
  end.

(** [SlackSyncClient.invite_users] *)
Definition invite_users (env : Env) (c : SlackSyncClient) (channel_id : string)
    (emails : list string) (dry_run : bool) : M World (nat * list string) :=
  let* r := resolve_emails c emails [] [] in
  let* added_count := invite_loop env channel_id dry_run r.1
                        (range (length r.1) chunk_size) 0 in
  ret (added_count, r.2).

(** [SlackSyncClient.kick_user] *)
Definition kick_user (env : Env) (channel_id user : string) (dry_run : bool) : M World bool :=
  if dry_run then
    logger (log_would_kick user) ;;; ret true
  else
    try_except
      (perform (conversations_kick channel_id user)
               (fun h => kick_response env h channel_id user) ;;;
       logger (log_kicked user) ;;;
       ret true)
      (fun e =>
         match e with
         | SlackApiError err _ => Some (logger (log_kick_failed user err) ;;; ret false)
         | Exception _ => None
         end).

(** *** The report *)

Definition nl : string := String (Ascii.ascii_of_nat 10) "".

Definition header_icon : string := "ðŸ”„".
Definition success_icon : string := "âœ…".
Definition warning_icon : string := "âš ï¸".
Definition missing_icon : string := "â“".
Definition errors_icon : string := "â›”".

Definition header_block : Block :=
  {| block_type := "header"; text_type := "plain_text";
     text := header_icon ++ " Membership Sync Report" |}.

(** The text of the section rendered for one [SyncStats]. *)
Definition summary_text (stats : SyncStats) : string :=
  let icon := if decide (status stats = Success) then success_icon else warning_icon in
  let text := "*" ++ mapping_name stats ++ "*" ++ nl ++
              icon ++ " Added: " ++ pretty (added stats) ++
              " | Removed: " ++ pretty (removed stats) ++
              " | Skipped: " ++ pretty (skipped stats) in
  let text := match missing_accounts stats with
              | [] => text
              | _ :: _ => text ++ nl ++ missing_icon ++ " Missing Slack Accts: " ++
                          pretty (length (missing_accounts stats))
              end in
  match errors stats with
  | [] => text
  | _ :: _ => text ++ nl ++ errors_icon ++ " Errors: " ++ String.concat ", " (errors stats)
  end.

Definition section_block (stats : SyncStats) : Block :=
  {| block_type := "section"; text_type := "mrkdwn"; text := summary_text stats |}.

Definition report_blocks (stats_list : list SyncStats) : list Block :=
  header_block :: (section_block <$> stats_list).

(** Python truth value of an optional string and of an optional boolean. *)
Definition truthy_string (o : option string) : bool :=
  match o with
  | Some s => negb (bool_decide (s = ""))
  | None => false
  end.

Definition truthy_bool (o : option bool) : bool := default false o.

(** [SlackSyncClient.post_report] *)
Definition post_report (env : Env) (channel_id : option string)
    (stats_list : list SyncStats) (dry_run : option bool) : M World unit :=
  if negb (truthy_string channel_id) || truthy_bool dry_run then ret tt
  else
    let blocks := report_blocks stats_list in
    try_except
      (perform (chat_postMessage (default "" channel_id) blocks)
               (fun h => post_response env h (default "" channel_id) blocks))
      (fun e => Some (logger (log_post_failed e))).

(** ** The reconciliation of one mapping *)

(** Step C of [run_sync]: the two set differences. *)
Definition to_add_emails (google_emails slack_emails : gset string) : gset string :=
  google_emails ∖ slack_emails.

Definition candidate_remove_emails (google_emails slack_emails : gset string) : gset string :=
  slack_emails ∖ google_emails.

(** The loop that builds [slack_member_map] ({email: uid}) from the ids of the
    channel members: ids unknown to [id_map] and users with an empty email
    are left out; a later id overwrites an earlier one with the same email. *)
Fixpoint build_member_map (c : SlackSyncClient) (slack_uids : list string)
    (slack_member_map : gmap string string) : gmap string string :=
  match slack_uids with
  | [] => slack_member_map
  | u :: rest =>
      match id_map c !! u with
      | Some user_data =>
          if decide (user_email user_data = "") then
            build_member_map c rest slack_member_map
          else
            build_member_map c rest (<[user_email user_data := u]> slack_member_map)
      | None => build_member_map c rest slack_member_map
      end
  end.

(** The state of the body of the loop over the mappings: the [stats] object of
    the mapping and the outside world. *)
Record RunState := {
  stats : SyncStats;
  world : World
}.

Definition lift {A} (c : M World A) : M RunState A :=
  fun s =>
    match c (world s) with
    | (w, r) => ({| stats := stats s; world := w |}, r)
    end.

Definition update_stats (f : SyncStats -> SyncStats) : M RunState unit :=
  fun s => ({| stats := f (stats s); world := world s |}, inr tt).

(** [str(KeyError(k))] for a plain key. *)
Definition key_error (k : string) : Exn := Exception ("'" ++ k ++ "'").

(** [config.settings['dry_run']]: a [KeyError] when the key is absent. *)
Definition settings_dry_run {S} (cfg : Settings) : M S bool :=
  match dry_run cfg with
  | Some b => ret b
  | None => raise (key_error "dry_run")
  end.

(** [config.settings.get('max_changes_per_run', 50)] *)
Definition ceiling (cfg : Settings) : Z := default 50%Z (max_changes_per_run cfg).

(** [config.settings.get('max_changes_per_run')] formatted in an f-string. *)
Definition limit_text (cfg : Settings) : string :=
  match max_changes_per_run cfg with
  | Some z => pretty z
  | None => "None"
  end.

Definition abort_message (cfg : Settings) (total_changes : nat) : string :=
  "Aborting: " ++ pretty total_changes ++ " changes exceeds limit of " ++ limit_text cfg.

(** [d.get(key)] on an optional record, as a Python truth value. *)
Definition flag (f : UserData -> bool) (user_details : option UserData) : bool :=
  match user_details with
  | Some d => f d
  | None => false
  end.

(** [set(m.get('protected_slack_users', []))] *)
Definition protected_ids (m : Mapping) : gset string :=
  list_to_set (default [] (protected_slack_users m)).

(** The body of the removal loop (step E) for one email. *)
Definition remove_one (env : Env) (cfg : Settings) (c : SlackSyncClient)
    (m : Mapping) (slack_member_map : gmap string string) (email : string)
    : M RunState unit :=
  let* u := match slack_member_map !! email with
            | Some u => ret u
            | None => raise (key_error email)
            end in
  let user_details := user_cache c !! email in
  if bool_decide (u ∈ protected_ids m) then
    lift (logger (log_skip_protected email)) ;;; update_stats incr_skipped
  else if flag is_admin user_details || flag is_owner user_details then
    lift (logger (log_skip_admin_owner email)) ;;; update_stats incr_skipped
  else if flag is_bot user_details || flag is_app_user user_details then
    lift (logger (log_skip_bot email)) ;;; update_stats incr_skipped
  else
    let* dry := settings_dry_run cfg in
    let* success := lift (kick_user env (slack_channel m) u dry) in
    if success : bool then update_stats incr_removed
    else update_stats (append_error ("Failed to kick " ++ email)).

Fixpoint remove_loop (env : Env) (cfg : Settings) (c : SlackSyncClient)
    (m : Mapping) (slack_member_map : gmap string string) (emails : list string)
    : M RunState unit :=
  match emails with
  | [] => ret tt
  | email :: rest =>
      remove_one env cfg c m slack_member_map email ;;;
      remove_loop env cfg c m slack_member_map rest
  end.

(** Step D: the invitations, skipped altogether when there is nothing to add. *)
Definition execute_adds (env : Env) (cfg : Settings) (c : SlackSyncClient)
    (ord : SetOrder) (m : Mapping) (to_add : gset string) : M RunState unit :=
  if decide (to_add = ∅) then ret tt
  else
    let* dry := settings_dry_run cfg in
    let* r := lift (invite_users env c (slack_channel m) (enum ord to_add) dry) in
    update_stats (set_added r.1) ;;;
    update_stats (set_missing_accounts r.2).

(** [slack_member_map] as built in step B from the ids of the channel. *)
Definition member_map (c : SlackSyncClient) (ord : SetOrder) (slack_uids : gset string)
    : gmap string string :=
  build_member_map c (enum ord slack_uids) ∅.

(** [len(to_add_emails) + len(candidate_remove_emails)] *)
Definition total_changes (google_emails slack_emails : gset string) : nat :=
  size (to_add_emails google_emails slack_emails) +
  size (candidate_remove_emails google_emails slack_emails).

(** Steps C to E, once both member sets are known. *)
Definition reconcile (env : Env) (cfg : Settings) (c : SlackSyncClient)
    (ord : SetOrder) (m : Mapping) (google_emails slack_uids : gset string)
    : M RunState unit :=
  let slack_member_map := member_map c ord slack_uids in
  let slack_emails := dom slack_member_map in
  let to_add := to_add_emails google_emails slack_emails in
  let candidate_remove := candidate_remove_emails google_emails slack_emails in
  let total_changes := total_changes google_emails slack_emails in
  if bool_decide (ceiling cfg < Z.of_nat total_changes)%Z then
    let msg := abort_message cfg total_changes in
    lift (logger (log_abort msg)) ;;;
    update_stats (append_error msg) ;;;
    update_stats (set_status Aborted)
  else
    execute_adds env cfg c ord m to_add ;;;
    remove_loop env cfg c m slack_member_map (enum ord candidate_remove).

(** The body of the [try] statement of [run_sync] for one mapping. *)
Definition mapping_body (env : Env) (cfg : Settings) (c : SlackSyncClient)
    (ord : SetOrder) (m : Mapping) : M RunState unit :=
  let* google_emails := lift (get_group_members env (google_group m)) in
  let* slack_uids := lift (get_channel_members env (slack_channel m)) in
  reconcile env cfg c ord m google_emails slack_uids.

(** The [except Exception] clause of [run_sync]. *)
Definition mapping_failed (e : Exn) : M RunState unit :=
  lift (logger (log_mapping_failed e)) ;;;
  update_stats (set_status Failed) ;;;
  update_stats (append_error (str e)).

(** The state in which the [try] statement of a mapping starts: a fresh
    [stats] object, and the "Processing" line logged. *)
Definition start_state (m : Mapping) (w : World) : RunState :=
  {| stats := new_stats (name m);
     world := {| events := events w;
                 log := log w ++ [log_processing (name m) (google_group m) (slack_channel m)] |} |}.

(** One iteration of the loop over the enabled mappings: the [stats] object
    that is appended to [stats_list] (in the abort branch before [continue],
    otherwise after the [try] statement) and the world afterwards. *)
Definition process_mapping (env : Env) (cfg : Settings) (c : SlackSyncClient)
    (ord : SetOrder) (m : Mapping) (w : World) : SyncStats * World :=
  let final :=
    (try_except (mapping_body env cfg c ord m) (fun e => Some (mapping_failed e))
       (start_state m w)).1 in
  (stats final, world final).

(** The loop over the mappings of [run_sync]. *)
Fixpoint run_mappings (env : Env) (cfg : Settings) (c : SlackSyncClient)
    (ord : SetOrder) (mappings : list Mapping) (stats_list : list SyncStats)
    (w : World) : list SyncStats * World :=
  match mappings with
  | [] => (stats_list, w)
  | m :: rest =>
      if negb (default true (enabled m)) then
        run_mappings env cfg c ord rest stats_list w
      else
        let r := process_mapping env cfg c ord m w in
        run_mappings env cfg c ord rest (stats_list ++ [r.1]) r.2
  end.

(** [run_sync], from the point where the clients exist and the user cache is
    populated: the final [stats_list] and the world after the report. *)
Definition run_sync (env : Env) (cfg : Settings) (mappings : list Mapping)
    (c : SlackSyncClient) (ord : SetOrder) (w : World) : list SyncStats * World :=
  let w0 := (logger (log_starting (dry_run cfg)) w).1 in
  let r := run_mappings env cfg c ord mappings [] w0 in
  let w1 := (post_report env (notify_channel_id cfg) r.1 (dry_run cfg) r.2).1 in
  (r.1, (logger log_complete w1).1).

(** ** The diff of [aligner.py] *)

Module Aligner.

(** Step 3 of [sync_group_to_channel]. *)
Definition to_add (google_members slack_members : gset string) : gset string :=
  google_members ∖ slack_members.

Definition to_remove (google_members slack_members : gset string) : gset string :=
  slack_members ∖ google_members.

End Aligner.

(** ** Vocabulary of the statements *)

(** The calls made between two worlds. *)
Definition new_events (w w' : World) : list Event :=
  drop (length (events w)) (events w').

(** The state after a removal candidate was skipped: one more skip, one log
    record, no call. *)
Definition skip_state (r : LogRecord) (s : RunState) : RunState :=
  {| stats := incr_skipped (stats s);
     world := {| events := events (world s); log := log (world s) ++ [r] |} |}.

(** What it is for an iteration of the removal loop to skip its candidate,
    said of the state [s] before and the outcome [run] of the iteration: it
    returned, the count of skipped candidates went up by one, nothing else
    of the statistics changed, the record [r] was logged and no call was
    made. *)
Definition skipped_with (r : LogRecord) (s : RunState)
    (run : RunState * (Exn + unit)) : Prop :=
  run.2 = inr tt /\
  skipped (stats run.1) = skipped (stats s) + 1 /\
  removed (stats run.1) = removed (stats s) /\
  added (stats run.1) = added (stats s) /\
  errors (stats run.1) = errors (stats s) /\
  missing_accounts (stats run.1) = missing_accounts (stats s) /\
  status (stats run.1) = status (stats s) /\
  mapping_name (stats run.1) = mapping_name (stats s) /\
  events (world run.1) = events (world s) /\
  log (world run.1) = (log (world s) ++ [r])%list.

(** The settings with [dry_run] set. *)
Definition with_dry_run (b : bool) (cfg : Settings) : Settings :=
  {| dry_run := Some b; max_changes_per_run := max_changes_per_run cfg;
     notify_channel_id := notify_channel_id cfg |}.

(** The user ids found for a list of emails, and the emails without one. *)
Definition resolved (c : SlackSyncClient) (emails : list string) : list string :=
  omap (fun e => user_id <$> user_cache c !! e) emails.

Definition unresolved (c : SlackSyncClient) (emails : list string) : list string :=
  filter (fun e => user_cache c !! e = None) emails.

(** The chunks submitted by [invite_users]. *)
Definition chunks (user_ids : list string) : list (list string) :=
  (fun i => slice user_ids i (i + chunk_size)) <$> range (length user_ids) chunk_size.

(** Every candidate is accounted for by one of the three counters. *)
Definition accounted (st : SyncStats) : nat :=
  skipped st + removed st + length (errors st).

(** The second loop of [invite_users], over the chunks themselves. *)
Fixpoint invite_each (env : Env) (channel_id : string) (dry_run : bool)
    (cs : list (list string)) (added_count : nat) : M World nat :=
  match cs with
  | [] => ret added_count
  | chunk :: rest =>
      let* n := invite_chunk env channel_id dry_run chunk added_count in
      invite_each env channel_id dry_run rest n
  end.

(** The number of users of an invite call. *)
Definition call_size (ev : Event) : nat :=
  match ev_call ev with
  | conversations_invite _ users => length users
  | _ => 0
  end.

(** The number of users invited by a call that returned. *)
Definition invited (ev : Event) : nat :=
  match ev_raised ev with
  | None => call_size ev
  | Some _ => 0
  end.

(** What [invite_users] logs after an invite call: nothing when the call
    returned or answered "already_in_channel", the error code of any other
    Slack error. *)
Definition invite_log (ev : Event) : list LogRecord :=
  match ev_raised ev with
  | Some (SlackApiError err _) =>
      if decide (err = "already_in_channel") then [] else [log_invite_failed err]
  | _ => []
  end.

(** An invite call answered by anything but success or "already a member". *)
Definition other_failure (ev : Event) : bool :=
  match ev_raised ev with
  | None => false
  | Some (SlackApiError err _) => negb (bool_decide (err = "already_in_channel"))
  | Some (Exception _) => true
  end.

(** The reading of the added count in which a chunk is left out only when
    its call failed with something other than "already a member". *)
Definition counted_unless_other_failure (ev : Event) : nat :=
  if other_failure ev then 0 else call_size ev.

(** The event of an invite call that returned. *)
Definition invite_ok (channel_id : string) (chunk : list string) : Event :=
  {| ev_call := conversations_invite channel_id chunk; ev_raised := None |}.

(** The event of a kick call that returned. *)
Definition kick_ok (channel_id user : string) : Event :=
  {| ev_call := conversations_kick channel_id user; ev_raised := None |}.

(** Whether a character occurs in a string. *)
Fixpoint has_char (a : Ascii.ascii) (s : string) : bool :=
  match s with
  | EmptyString => false
  | String b rest => bool_decide (a = b) || has_char a rest
  end.

(** The summary of a mapping shows its error list joined with [sep]. *)
Definition errors_joined_with (sep : string) (st : SyncStats) : Prop :=
  exists before after,
    summary_text st = before ++ String.concat sep (errors st) ++ after.

(** The email under which a channel member takes part in the diff: the
    non-empty email that [id_map] has for its id, if any. *)
Definition email_of (c : SlackSyncClient) (u : string) : option string :=
  match id_map c !! u with
  | Some user_data =>
      if decide (user_email user_data = "") then None else Some (user_email user_data)
  | None => None
  end.

(** An email, looked up in [user_cache] and its user id looked up again in
    [id_map]. *)
Definition round_trip (c : SlackSyncClient) (e : string) : option string :=
  match user_cache c !! e with
  | Some user_data => email_of c (user_id user_data)
  | None => None
  end.

(** Whether one of the three safety filters keeps a removal candidate. *)
Definition filtered (c : SlackSyncClient) (m : Mapping)
    (slack_member_map : gmap string string) (e : string) : bool :=
  match slack_member_map !! e with
  | Some u =>
      bool_decide (u ∈ protected_ids m) ||
      (flag is_admin (user_cache c !! e) || flag is_owner (user_cache c !! e)) ||
      (flag is_bot (user_cache c !! e) || flag is_app_user (user_cache c !! e))
  | None => false
  end.

(** The effect of a call on the members of a channel: an invite that returned
    adds its users, a kick that returned removes its user, a call that raised
    or that concerns another channel changes nothing. *)
Definition apply_event (channel_id : string) (members : gset string) (ev : Event)
    : gset string :=
  match ev_raised ev with
  | Some _ => members
  | None =>
      match ev_call ev with
      | conversations_invite ch users =>
          if decide (ch = channel_id) then members ∪ list_to_set users else members
      | conversations_kick ch user =>
          if decide (ch = channel_id) then members ∖ {[user]} else members
      | chat_postMessage _ _ => members
      end
  end.

(** The members of a channel after a sequence of calls, when nothing else
    changes the channel. *)
Definition channel_after (channel_id : string) (members : gset string)
    (evs : list Event) : gset string :=
  foldl (apply_event channel_id) members evs.

(** A second run finds nothing to do: starting from the members left by the
    calls of the first run of the mapping, both differences are empty. *)
Definition second_run_clean (env : Env) (cfg : Settings) (c : SlackSyncClient)
    (ord ord2 : SetOrder) (m : Mapping) (w : World) (G S_h : gset string) : Prop :=
  let first := process_mapping env cfg c ord m w in
  let S_h2 := channel_after (slack_channel m) S_h (new_events w first.2) in
  let slack_emails := dom (member_map c ord2 S_h2) in
  to_add_emails G slack_emails = ∅ /\ candidate_remove_emails G slack_emails = ∅.

(** Different members of the channel have different emails. *)
Definition distinct_emails (c : SlackSyncClient) (S_h : gset string) : Prop :=
  set_Forall (fun u1 =>
    set_Forall (fun u2 =>
      is_Some (email_of c u1) -> email_of c u1 = email_of c u2 -> u1 = u2) S_h) S_h.

(** ** Scenarios

    Concrete inputs on which the statements below are exercised. *)

(** An ordinary member: no flag set. *)
Definition member (i e : string) : UserData :=
  {| user_id := i; user_email := e; is_admin := false; is_owner := false;
     is_bot := false; is_app_user := false; is_restricted := false |}.

(** The two caches for a roster of users with distinct ids and distinct,
    non-empty emails, as [populate_user_cache] fills them. *)
Definition client_of (roster : list UserData) : SlackSyncClient :=
  {| user_cache := list_to_map ((fun d => (user_email d, d)) <$> roster);
     id_map := list_to_map ((fun d => (user_id d, d)) <$> roster) |}.

(** Services that answer the two listings with fixed sets and accept every
    call. *)
Definition obliging (G S_h : gset string) : Env :=
  {| group_members := fun _ _ => inr G;
     channel_members := fun _ _ => inr S_h;
     invite_response := fun _ _ _ => None;
     kick_response := fun _ _ _ => None;
     post_response := fun _ _ _ => None |}.

Definition settings_of (dry : bool) (limit : Z) : Settings :=
  {| dry_run := Some dry; max_changes_per_run := Some limit;
     notify_channel_id := Some "C-OPS" |}.

Definition eng : Mapping :=
  {| name := "eng"; google_group := "eng@x.com"; slack_channel := "C1";
     protected_slack_users := None; enabled := None |}.

Definition eng_protecting (ids : list string) : Mapping :=
  {| name := "eng"; google_group := "eng@x.com"; slack_channel := "C1";
     protected_slack_users := Some ids; enabled := None |}.

Definition abc_client : SlackSyncClient :=
  client_of [member "UA" "a@x.com"; member "UB" "b@x.com"; member "UC" "c@x.com"].

(** Fifty-one group members, none of them in the channel. *)
Definition fifty_one : gset string :=
  list_to_set ((fun k : nat => "u" ++ pretty k ++ "@x.com") <$> seq 0 51).

Definition abcd_client : SlackSyncClient :=
  client_of [member "UA" "a@x.com"; member "UB" "b@x.com"; member "UC" "c@x.com";
             member "UD" "d@x.com"].

(** Services that refuse to kick one user (a Slack error) and accept every
    other call. *)
Definition refusing_kick (G S_h : gset string) (user : string) : Env :=
  {| group_members := fun _ _ => inr G;
     channel_members := fun _ _ => inr S_h;
     invite_response := fun _ _ _ => None;
     kick_response := fun _ _ u =>
       if decide (u = user) then Some (SlackApiError "cant_kick_self" "cant_kick_self")
       else None;
     post_response := fun _ _ _ => None |}.

(** Services whose connection breaks after the first call: every later kick
    raises an exception that is not a Slack error. *)
Definition breaking_after_first (G S_h : gset string) : Env :=
  {| group_members := fun _ _ => inr G;
     channel_members := fun _ _ => inr S_h;
     invite_response := fun _ _ _ => None;
     kick_response := fun h _ _ =>
       match h with
       | [] => None
       | _ :: _ => Some (Exception "connection reset")
       end;
     post_response := fun _ _ _ => None |}.

(** Services that answer every invite with the Slack error
    "already_in_channel". *)
Definition already_member (G S_h : gset string) : Env :=
  {| group_members := fun _ _ => inr G;
     channel_members := fun _ _ => inr S_h;
     invite_response := fun _ _ _ =>
       Some (SlackApiError "already_in_channel" "already_in_channel");
     kick_response := fun _ _ _ => None;
     post_response := fun _ _ _ => None |}.

(** The statistics of a mapping that ended with two errors. *)
Definition two_errors : SyncStats :=
  {| mapping_name := "eng"; added := 0; removed := 1; skipped := 0;
     missing_accounts := []; errors := ["Failed to kick c@x.com"; "connection reset"];
     status := Failed |}.

(** Services whose report endpoint is down. *)
Definition report_down : Env :=
  {| group_members := fun _ _ => inr ∅;
     channel_members := fun _ _ => inr ∅;
     invite_response := fun _ _ _ => None;
     kick_response := fun _ _ _ => None;
     post_response := fun _ _ _ => Some (Exception "timed out") |}.

(** A client that has no account for anybody. *)
Definition empty_client : SlackSyncClient := client_of [].

(** ** The listings, page by page

    The three listing methods share one loop: request a page with the
    current token, process it, and go on with the token of the page until a
    page has none.  The loop ends when the service stops handing out tokens;
    [fuel] bounds the number of requests and [None] is the answer of a loop
    that has not ended within that bound.  The result is the accumulator
    together with the exception, if any, that ended the loop; on an
    exception the accumulator is the one reached before the page that
    raised. *)
Fixpoint paginate {P A} (request : option string -> Exn + P)
    (next : P -> option string) (process : P -> A -> Exn + A)
    (fuel : nat) (token : option string) (acc : A) : option (A * option Exn) :=
  match fuel with
  | 0 => None
  | S fuel' =>
      match request token with
      | inl e => Some (acc, Some e)
      | inr page =>
          match process page acc with
          | inl e => Some (acc, Some e)
          | inr acc' =>
              if truthy_string (next page) then
                paginate request next process fuel' (next page) acc'
              else Some (acc', None)
          end
      end
  end.

(** The value of a listing that builds a local set: the set, or the
    exception. *)
Definition listed {A} (r : option (A * option Exn)) : option (Exn + A) :=
  match r with
  | None => None
  | Some (acc, None) => Some (inr acc)
  | Some (_, Some e) => Some (inl e)
  end.

(** *** The members of a Google group *)

(** An entry of [results['members']]: its ['type'] (read with [get]) and its
    ['email'] (read with an index: a [KeyError] when absent). *)
Record GroupEntry := {
  entry_type : option string;
  entry_email : option string
}.

(** A page of the directory listing: [results.get('members', [])] and
    [results.get('nextPageToken')]. *)
Record GroupPage := {
  page_entries : option (list GroupEntry);
  nextPageToken : option string
}.

(** The body of the loop over the entries of a page.  [lower] is [str.lower]. *)
Definition add_entry (lower : string -> string) (en : GroupEntry)
    (members : gset string) : Exn + gset string :=
  if decide (entry_type en = Some "USER") then
    match entry_email en with
    | Some e => inr ({[lower e]} ∪ members)
    | None => inl (key_error "email")
    end
  else inr members.

Fixpoint add_entries (lower : string -> string) (entries : list GroupEntry)
    (members : gset string) : Exn + gset string :=
  match entries with
  | [] => inr members
  | en :: rest =>
      match add_entry lower en members with
      | inl e => inl e
      | inr members' => add_entries lower rest members'
      end
  end.

(** The loop of [get_group_members] over the pages of
    [members().list(groupKey=..., pageToken=...)]. *)
Definition group_listing (lower : string -> string)
    (members_list : option string -> Exn + GroupPage) (fuel : nat)
    : option (Exn + gset string) :=
  listed (paginate members_list nextPageToken
            (fun page => add_entries lower (default [] (page_entries page)))
            fuel None ∅).

(** [GoogleDirectoryClient.get_group_members], page by page: the listing,
    then the [except Exception] clause that logs and raises again. *)
Definition get_group_members_paged (lower : string -> string)
    (members_list : string -> option string -> Exn + GroupPage) (fuel : nat)
    (group_email : string) (w : World) : option (World * (Exn + gset string)) :=
  match group_listing lower (members_list group_email) fuel with
  | None => None
  | Some r =>
      Some (try_except (listing r)
              (fun e => Some (logger (log_google_error group_email e) ;;; raise e)) w)
  end.

(** *** The members of a Slack channel *)

(** A page of [conversations_members]: [response['members']] and
    [response.get('response_metadata', {}).get('next_cursor')]. *)
Record MembersPage := {
  page_member_ids : list string;
  next_cursor : option string
}.

(** The loop of [get_channel_members]. *)
Definition channel_listing (conversations_members : option string -> Exn + MembersPage)
    (fuel : nat) : option (Exn + gset string) :=
  listed (paginate conversations_members next_cursor
            (fun page member_ids => inr (member_ids ∪ list_to_set (page_member_ids page)))
            fuel None ∅).

(** [SlackSyncClient.get_channel_members], page by page: the listing, then the
    [except SlackApiError] clause that logs and raises again. *)
Definition get_channel_members_paged
    (conversations_members : string -> option string -> Exn + MembersPage)
    (fuel : nat) (channel_id : string) (w : World)
    : option (World * (Exn + gset string)) :=
  match channel_listing (conversations_members channel_id) fuel with
  | None => None
  | Some r =>
      Some (try_except (listing r)
              (fun e =>
                 match e with
                 | SlackApiError err _ =>
                     Some (logger (log_channel_member_error channel_id err) ;;; raise e)
                 | Exception _ => None
                 end) w)
  end.

(** *** The user cache *)

(** A member of [users_list]: ['id'] and ['deleted'] are read with an index,
    the email with [member.get('profile', {}).get('email', '')] and the flags
    with [member.get(flag, False)]. *)
Record RosterMember := {
  roster_id : string;
  roster_deleted : bool;
  roster_email : option string;
  roster_is_admin : option bool;
  roster_is_owner : option bool;
  roster_is_bot : option bool;
  roster_is_app_user : option bool;
  roster_is_restricted : option bool
}.

Record RosterPage := {
  roster_members : list RosterMember;
  roster_next_cursor : option string
}.

(** The [user_data] record built for a member. *)
Definition user_data_of (lower : string -> string) (mem : RosterMember) : UserData :=
  {| user_id := roster_id mem;
     user_email := lower (default "" (roster_email mem));
     is_admin := default false (roster_is_admin mem);
     is_owner := default false (roster_is_owner mem);
     is_bot := default false (roster_is_bot mem);
     is_app_user := default false (roster_is_app_user mem);
     is_restricted := default false (roster_is_restricted mem) |}.

(** The body of the loop of [populate_user_cache] over the members of a page:
    deleted members are skipped; the others are stored under their id, and
    under their email when it is not empty. *)
Definition cache_member (lower : string -> string) (mem : RosterMember)
    (c : SlackSyncClient) : SlackSyncClient :=
  if roster_deleted mem then c
  else
    let user_data := user_data_of lower mem in
    {| user_cache :=
         if decide (user_email user_data = "") then user_cache c
         else <[user_email user_data := user_data]> (user_cache c);
       id_map := <[roster_id mem := user_data]> (id_map c) |}.

Definition cache_members (lower : string -> string) (mems : list RosterMember)
    (c : SlackSyncClient) : SlackSyncClient :=
  foldl (fun c mem => cache_member lower mem c) c mems.

(** What [populate_user_cache] writes to the logger. *)
Inductive SetupLog :=
  | log_populating
  | log_user_list_error (error : string).

(** [SlackSyncClient.populate_user_cache]: the caches after the loop, the log
    lines and the exception raised, if any.  The caches are filled page by
    page, so that an exception leaves what the earlier pages stored. *)
Definition populate_user_cache (lower : string -> string)
    (users_list : option string -> Exn + RosterPage) (fuel : nat)
    (c : SlackSyncClient) : option (SlackSyncClient * list SetupLog * option Exn) :=
  match paginate users_list roster_next_cursor
          (fun page c => inr (cache_members lower (roster_members page) c))
          fuel None c with
  | None => None
  | Some (c', None) => Some (c', [log_populating], None)
  | Some (c', Some e) =>
      Some (c',
            log_populating ::
              match e with
              | SlackApiError err _ => [log_user_list_error err]
              | Exception _ => []
              end,
            Some e)
  end.

(** The client before [populate_user_cache]: both caches empty. *)
Definition new_client : SlackSyncClient := {| user_cache := ∅; id_map := ∅ |}.

(** ** The single-mapping variant, [aligner.py] *)

Module AlignerSync.

(** The records written to the logger of [aligner.py], one constructor per
    logging site. *)
Inductive LogRecord :=
  | log_populating
  | log_fetch_users_error (error : string)
  | log_google_error (e : Exn)
  | log_fetch_members_error (error : string)
  | log_syncing (group channel : string)
  | log_found_group (n : nat)
  | log_found_channel (n : nat)
  | log_analysis (to_add to_remove : nat)
  | log_would_add (emails : list string)
  | log_would_remove (emails : list string)
  | log_added (n : nat) (channel : string)
  | log_add_failed (error : string)
  | log_removed (user channel : string)
  | log_remove_failed (user error : string)
  | log_skipping_removal (n : nat).

(** The calls made so far and the records logged so far. *)
Record State := {
  calls : list Event;
  records : list LogRecord
}.

Definition start : State := {| calls := []; records := [] |}.

Definition say (r : LogRecord) : M State unit :=
  fun s => ({| calls := calls s; records := records s ++ [r] |}, inr tt).

Definition call (c : Call) (answer : list Event -> option Exn) : M State unit :=
  fun s =>
    let r := answer (calls s) in
    ({| calls := calls s ++ [{| ev_call := c; ev_raised := r |}]; records := records s |},
     match r with
     | Some e => inl e
     | None => inr tt
     end).

Definition answered {A} (r : Exn + A) : M State A :=
  match r with
  | inr a => ret a
  | inl e => raise e
  end.

(** [SlackClient]: the two maps filled by [populate_user_cache]. *)
Record SlackClient := {
  email_to_id_map : gmap string string;
  id_to_email_map : gmap string string
}.

Definition new_client : SlackClient := {| email_to_id_map := ∅; id_to_email_map := ∅ |}.

(** A member of [users_list] as [populate_user_cache] reads it: ['deleted'],
    ['is_bot'] and ['id'] with an index, the email only when both
    ['profile'] and its ['email'] are present. *)
Record Member := {
  member_id : string;
  member_deleted : bool;
  member_is_bot : bool;
  member_email : option string
}.

Record Page := {
  page_members : list Member;
  page_cursor : option string
}.

(** The body of the loop over the members of a page. *)
Definition cache_member (lower : string -> string) (mem : Member) (c : SlackClient)
    : SlackClient :=
  if negb (member_deleted mem) && negb (member_is_bot mem) then
    match member_email mem with
    | Some e =>
        {| email_to_id_map := <[lower e := member_id mem]> (email_to_id_map c);
           id_to_email_map := <[member_id mem := lower e]> (id_to_email_map c) |}
    | None => c
    end
  else c.

Definition cache_members (lower : string -> string) (mems : list Member)
    (c : SlackClient) : SlackClient :=
  foldl (fun c mem => cache_member lower mem c) c mems.

(** [SlackClient.populate_user_cache]: the maps after the loop, the log lines
    and the exception raised, if any. *)
Definition populate_user_cache (lower : string -> string)
    (users_list : option string -> Exn + Page) (fuel : nat) (c : SlackClient)
    : option (SlackClient * list LogRecord * option Exn) :=
  match paginate users_list page_cursor
          (fun page c => inr (cache_members lower (page_members page) c))
          fuel None c with
  | None => None
  | Some (c', None) => Some (c', [log_populating], None)
  | Some (c', Some e) =>
      Some (c',
            log_populating ::
              match e with
              | SlackApiError err _ => [log_fetch_users_error err]
              | Exception _ => []
              end,
            Some e)
  end.

(** [GoogleWorkspaceClient.get_group_members], with the listing as a whole. *)
Definition get_group_members (env : Env) (group_email : string) : M State (gset string) :=
  fun s =>
    try_except (answered (group_members env (calls s) group_email))
      (fun e => Some (say (log_google_error e) ;;; raise e)) s.

(** The emails of a set of member ids: ids unknown to [id_to_email_map] give
    none. *)
Definition emails_of (c : SlackClient) (member_ids : gset string) : gset string :=
  list_to_set (omap (fun u => id_to_email_map c !! u) (elements member_ids)).

(** [SlackClient.get_channel_members]: the listing of the ids, as a whole,
    and their conversion into emails. *)
Definition get_channel_members (env : Env) (c : SlackClient) (channel_id : string)
    : M State (gset string) :=
  fun s =>
    (let* member_ids :=
       try_except (answered (channel_members env (calls s) channel_id))
         (fun e =>
            match e with
            | SlackApiError err _ => Some (say (log_fetch_members_error err) ;;; raise e)
            | Exception _ => None
            end) in
     ret (emails_of c member_ids)) s.

(** [[self.email_to_id_map[email] for email in emails if email in ...]] *)
Definition ids_of (c : SlackClient) (emails : list string) : list string :=
  omap (fun e => email_to_id_map c !! e) emails.

Definition chunk_size : nat := 50.

(** One iteration of the loop of [add_users_to_channel]. *)
Definition add_chunk (env : Env) (channel_id : string) (chunk : list string)
    : M State unit :=
  try_except
    (call (conversations_invite channel_id chunk)
          (fun h => invite_response env h channel_id chunk) ;;;
     say (log_added (length chunk) channel_id))
    (fun e =>
       match e with
       | SlackApiError err _ =>
           Some (if decide (err = "already_in_channel") then ret tt
                 else say (log_add_failed err))
       | Exception _ => None
       end).

Fixpoint add_loop (env : Env) (channel_id : string) (user_ids : list string)
    (starts : list nat) : M State unit :=
  match starts with
  | [] => ret tt
  | i :: rest =>
      add_chunk env channel_id (slice user_ids i (i + chunk_size)) ;;;
      add_loop env channel_id user_ids rest
  end.

(** [SlackClient.add_users_to_channel] *)
Definition add_users_to_channel (env : Env) (c : SlackClient) (channel_id : string)
    (emails : list string) : M State unit :=
  let user_ids := ids_of c emails in
  match user_ids with
  | [] => ret tt
  | _ :: _ => add_loop env channel_id user_ids (range (length user_ids) chunk_size)
  end.

(** One iteration of the loop of [remove_users_from_channel]. *)
Definition remove_user (env : Env) (channel_id user : string) : M State unit :=
  try_except
    (call (conversations_kick channel_id user)
          (fun h => kick_response env h channel_id user) ;;;
     say (log_removed user channel_id))
    (fun e =>
       match e with
       | SlackApiError err _ => Some (say (log_remove_failed user err))
       | Exception _ => None
       end).

Fixpoint remove_loop (env : Env) (channel_id : string) (user_ids : list string)
    : M State unit :=
  match user_ids with
  | [] => ret tt
  | user :: rest => remove_user env channel_id user ;;; remove_loop env channel_id rest
  end.

(** [SlackClient.remove_users_from_channel] *)
Definition remove_users_from_channel (env : Env) (c : SlackClient) (channel_id : string)
    (emails : list string) : M State unit :=
  remove_loop env channel_id (ids_of c emails).

(** Step 4 of [sync_group_to_channel]. *)
Definition execute (env : Env) (c : SlackClient) (ord : SetOrder) (channel_id : string)
    (remove_extras dry_run : bool) (to_add to_remove : gset string) : M State unit :=
  if dry_run then
    say (log_would_add (enum ord to_add)) ;;;
    if remove_extras then say (log_would_remove (enum ord to_remove)) else ret tt
  else
    (if decide (to_add = ∅) then ret tt
     else add_users_to_channel env c channel_id (enum ord to_add)) ;;;
    if remove_extras && negb (bool_decide (to_remove = ∅)) then
      remove_users_from_channel env c channel_id (enum ord to_remove)
    else if decide (to_remove = ∅) then ret tt
    else say (log_skipping_removal (size to_remove)).

(** [sync_group_to_channel] *)
Definition sync_group_to_channel (env : Env) (c : SlackClient) (ord : SetOrder)
    (group_email channel_id : string) (remove_extras dry_run : bool) : M State unit :=
  say (log_syncing group_email channel_id) ;;;
  let* google_members := get_group_members env group_email in
  say (log_found_group (size google_members)) ;;;
  let* slack_members := get_channel_members env c channel_id in
  say (log_found_channel (size slack_members)) ;;;
  let to_add := Aligner.to_add google_members slack_members in
  let to_remove := Aligner.to_remove google_members slack_members in
  say (log_analysis (size to_add) (size to_remove)) ;;;
  execute env c ord channel_id remove_extras dry_run to_add to_remove.

End AlignerSync.

(** ** Vocabulary of the further properties *)

(** The users of an invite call. *)
Definition call_users (ev : Event) : list string :=
  match ev_call ev with
  | conversations_invite _ users => users
  | _ => []
  end.

(** An invite of a mapping that only concerns accounts to add: it goes to the
    channel of the mapping and each of its users is the cached account of an
    email of [to_add]. *)
Definition invite_of (c : SlackSyncClient) (m : Mapping) (to_add : gset string)
    (ev : Event) : Prop :=
  exists users,
    ev_call ev = conversations_invite (slack_channel m) users /\
    forall u, u ∈ users ->
      exists e d, e ∈ to_add /\ user_cache c !! e = Some d /\ user_id d = u.

(** A kick of a mapping that only concerns a removable candidate: it goes to
    the channel of the mapping and its user is the member recorded for an
    email of [candidates] that no safety filter keeps. *)
Definition kick_of (c : SlackSyncClient) (m : Mapping)
    (slack_member_map : gmap string string) (candidates : gset string)
    (ev : Event) : Prop :=
  exists e u,
    ev_call ev = conversations_kick (slack_channel m) u /\
    e ∈ candidates /\
    slack_member_map !! e = Some u /\
    filtered c m slack_member_map e = false.

(** A report: one post of the blocks rendered for [stats_list]. *)
Definition report_of (stats_list : list SyncStats) (ev : Event) : Prop :=
  exists target, ev_call ev = chat_postMessage target (report_blocks stats_list).

(** The names of the mappings that are not disabled, in the order of the
    configuration. *)
Definition enabled_names (mappings : list Mapping) : list string :=
  name <$> filter (fun m => default true (enabled m) = true) mappings.

(** A call made for a mapping with group members [G] and channel members
    [S_h]: made in a real run only, and either an invite for emails to add or
    a kick of a removable candidate. *)
Definition mapping_call (cfg : Settings) (c : SlackSyncClient) (ord : SetOrder)
    (m : Mapping) (G S_h : gset string) (ev : Event) : Prop :=
  dry_run cfg = Some false /\
  (invite_of c m (to_add_emails G (dom (member_map c ord S_h))) ev \/
   kick_of c m (member_map c ord S_h)
     (candidate_remove_emails G (dom (member_map c ord S_h))) ev).

(** Services whose directory listing fails. *)
Definition directory_down : Env :=
  {| group_members := fun _ _ => inl (Exception "HttpError 503");
     channel_members := fun _ _ => inr {["UB"; "UC"]};
     invite_response := fun _ _ _ => None;
     kick_response := fun _ _ _ => None;
     post_response := fun _ _ _ => None |}.

(** A configuration whose settings have no [dry_run] key. *)
Definition settings_without_dry_run : Settings :=
  {| dry_run := None; max_changes_per_run := None; notify_channel_id := None |}.

(** The service hands out [pages], one after the other, from [token] on:
    each page but the last carries the token of the next one, and the last
    carries none. *)
Fixpoint serves {P} (request : option string -> Exn + P) (next : P -> option string)
    (token : option string) (pages : list P) : Prop :=
  match pages with
  | [] => False
  | page :: rest =>
      request token = inr page /\
      match rest with
      | [] => truthy_string (next page) = false
      | _ :: _ =>
          truthy_string (next page) = true /\ serves request next (next page) rest
      end
  end.

(** The service hands out [pages], each with a token, and then answers the
    next request with the exception [e]. *)
Fixpoint serves_then_fails {P} (request : option string -> Exn + P)
    (next : P -> option string) (token : option string) (pages : list P) (e : Exn)
    : Prop :=
  match pages with
  | [] => request token = inl e
  | page :: rest =>
      request token = inr page /\
      truthy_string (next page) = true /\
      serves_then_fails request next (next page) rest e
  end.

(** The entries of a sequence of directory pages. *)
Definition all_entries (pages : list GroupPage) : list GroupEntry :=
  pages ≫= (fun page => default [] (page_entries page)).

(** The emails of the entries whose type is USER. *)
Definition user_emails (entries : list GroupEntry) : list string :=
  omap (fun en => if decide (entry_type en = Some "USER") then entry_email en else None)
       entries.

(** Every USER entry has an email. *)
Definition emails_present (entries : list GroupEntry) : Prop :=
  Forall (fun en => entry_type en = Some "USER" -> is_Some (entry_email en)) entries.

(** The members of a roster that are not deleted. *)
Definition active (mems : list RosterMember) : list RosterMember :=
  filter (fun mem => roster_deleted mem = false) mems.

(** The two caches agree with each other and with their keys: a record is
    stored under its own id, and a record stored under an email has that
    email, which is not empty, and is the record stored under its id. *)
Definition caches_agree (c : SlackSyncClient) : Prop :=
  (forall u d, id_map c !! u = Some d -> user_id d = u) /\
  (forall e d, user_cache c !! e = Some d ->
     user_email d = e /\ e <> "" /\ exists d', id_map c !! user_id d = Some d').

(** [str.lower] on strings of ASCII characters. *)
Definition ascii_lower_char (a : Ascii.ascii) : Ascii.ascii :=
  let n := Ascii.nat_of_ascii a in
  if Nat.leb 65 n && Nat.leb n 90 then Ascii.ascii_of_nat (n + 32) else a.

Fixpoint ascii_lower (s : string) : string :=
  match s with
  | EmptyString => EmptyString
  | String a rest => String (ascii_lower_char a) (ascii_lower rest)
  end.

(** A directory that lists a group on two pages: two users and a nested
    group. *)
Definition two_page_directory (token : option string) : Exn + GroupPage :=
  match token with
  | None =>
      inr {| page_entries :=
               Some [ {| entry_type := Some "USER"; entry_email := Some "Alice@X.com" |};
                      {| entry_type := Some "GROUP"; entry_email := Some "devs@x.com" |} ];
             nextPageToken := Some "p2" |}
  | Some _ =>
      inr {| page_entries :=
               Some [ {| entry_type := Some "USER"; entry_email := Some "bob@x.com" |} ];
             nextPageToken := None |}
  end.

(** A directory whose second page cannot be fetched. *)
Definition broken_directory (token : option string) : Exn + GroupPage :=
  match token with
  | None =>
      inr {| page_entries :=
               Some [ {| entry_type := Some "USER"; entry_email := Some "Alice@X.com" |} ];
             nextPageToken := Some "p2" |}
  | Some _ => inl (Exception "HttpError 503")
  end.

(** A channel listed on two pages. *)
Definition two_page_channel (cursor : option string) : Exn + MembersPage :=
  match cursor with
  | None => inr {| page_member_ids := ["UA"; "UB"]; next_cursor := Some "c2" |}
  | Some _ => inr {| page_member_ids := ["UB"; "UC"]; next_cursor := Some "" |}
  end.

(** A roster with a deleted user, a bot without email and two ordinary
    users. *)
Definition roster_member (i : string) (gone : bool) (e : option string) : RosterMember :=
  {| roster_id := i; roster_deleted := gone; roster_email := e;
     roster_is_admin := None; roster_is_owner := None; roster_is_bot := None;
     roster_is_app_user := None; roster_is_restricted := None |}.

Definition small_roster : list RosterMember :=
  [ roster_member "UA" false (Some "Alice@X.com");
    roster_member "UX" true (Some "gone@x.com");
    roster_member "UBOT" false None;
    roster_member "UB" false (Some "bob@x.com") ].

Definition small_roster_service (cursor : option string) : Exn + RosterPage :=
  inr {| roster_members := small_roster; roster_next_cursor := None |}.

(** The non-empty emails under which the active members of a roster are
    cached. *)
Definition cached_emails (lower : string -> string) (mems : list RosterMember)
    : list string :=
  (fun mem => user_email (user_data_of lower mem)) <$>
    filter (fun mem => user_email (user_data_of lower mem) <> "") (active mems).

(** Services whose answers do not depend on the calls made before. *)
Definition history_blind (env : Env) : Prop :=
  forall h h' : list Event,
    (forall g, group_members env h g = group_members env h' g) /\
    (forall ch, channel_members env h ch = channel_members env h' ch) /\
    (forall ch us, invite_response env h ch us = invite_response env h' ch us) /\
    (forall ch u, kick_response env h ch u = kick_response env h' ch u).

(** The mappings that are not disabled, in the order of the configuration. *)
Definition enabled_mappings (mappings : list Mapping) : list Mapping :=
  filter (fun m => default true (enabled m) = true) mappings.

(** A mapping whose group the directory cannot list. *)
Definition ops : Mapping :=
  {| name := "ops"; google_group := "ops@x.com"; slack_channel := "C2";
     protected_slack_users := None; enabled := None |}.

(** Services whose directory fails for one group and lists one member for
    every other, with empty channels and every call accepted. *)
Definition one_group_down : Env :=
  {| group_members := fun _ g =>
       if decide (g = "ops@x.com") then inl (Exception "HttpError 503")
       else inr {["a@x.com"]};
     channel_members := fun _ _ => inr ∅;
     invite_response := fun _ _ _ => None;
     kick_response := fun _ _ _ => None;
     post_response := fun _ _ _ => None |}.

(** *** The single-mapping variant *)

(** The calls made between two states of [aligner.py]. *)
Definition aligner_calls (s s' : AlignerSync.State) : list Event :=
  drop (length (AlignerSync.calls s)) (AlignerSync.calls s').

(** The records logged between two states of [aligner.py]. *)
Definition aligner_records (s s' : AlignerSync.State) : list AlignerSync.LogRecord :=
  drop (length (AlignerSync.records s)) (AlignerSync.records s').

(** The chunks submitted by [add_users_to_channel]. *)
Definition aligner_chunks (user_ids : list string) : list (list string) :=
  (fun i => slice user_ids i (i + AlignerSync.chunk_size)) <$>
    range (length user_ids) AlignerSync.chunk_size.

(** An endpoint outcome that is not an exception other than a Slack error. *)
Definition slack_outcome (r : option Exn) : Prop :=
  match r with
  | Some (Exception _) => False
  | _ => True
  end.

(** An invite to [channel_id] of accounts mapped from emails of [to_add]. *)
Definition aligner_invite (c : AlignerSync.SlackClient) (channel_id : string)
    (to_add : gset string) (ev : Event) : Prop :=
  exists users,
    ev_call ev = conversations_invite channel_id users /\
    forall u, u ∈ users ->
      exists e, e ∈ to_add /\ AlignerSync.email_to_id_map c !! e = Some u.

(** A kick from [channel_id] of the account mapped from an email of
    [to_remove]. *)
Definition aligner_kick (c : AlignerSync.SlackClient) (channel_id : string)
    (to_remove : gset string) (ev : Event) : Prop :=
  exists e u,
    ev_call ev = conversations_kick channel_id u /\
    e ∈ to_remove /\ AlignerSync.email_to_id_map c !! e = Some u.

(** Whether an event is a kick. *)
Definition is_kick (ev : Event) : bool :=
  match ev_call ev with
  | conversations_kick _ _ => true
  | _ => false
  end.

(** What [remove_users_from_channel] logs after a kick call. *)
Definition removal_record (channel_id : string) (ev : Event)
    : list AlignerSync.LogRecord :=
  match ev_call ev, ev_raised ev with
  | conversations_kick _ u, None => [AlignerSync.log_removed u channel_id]
  | conversations_kick _ u, Some (SlackApiError err _) =>
      [AlignerSync.log_remove_failed u err]
  | _, _ => []
  end.

(** The pairs of id and email that [populate_user_cache] stores for the
    members of a page: one for each member that is neither deleted nor a bot
    and has an email in its profile. *)
Definition cached_pairs (lower : string -> string) (mems : list AlignerSync.Member)
    : list (string * string) :=
  omap (fun mem =>
          if negb (AlignerSync.member_deleted mem) && negb (AlignerSync.member_is_bot mem)
          then (fun e => (AlignerSync.member_id mem, lower e)) <$>
                 AlignerSync.member_email mem
          else None) mems.

(** The two maps are inverse of each other. *)
Definition inverse_maps (c : AlignerSync.SlackClient) : Prop :=
  forall u e,
    AlignerSync.id_to_email_map c !! u = Some e <->
    AlignerSync.email_to_id_map c !! e = Some u.

Definition human (i e : string) : AlignerSync.Member :=
  {| AlignerSync.member_id := i; AlignerSync.member_deleted := false;
     AlignerSync.member_is_bot := false; AlignerSync.member_email := Some e |}.

(** The maps for three accounts. *)
Definition aligner_abc : AlignerSync.SlackClient :=
  AlignerSync.cache_members ascii_lower
    [human "UA" "a@x.com"; human "UB" "b@x.com"; human "UC" "c@x.com"]
    AlignerSync.new_client.

(** A roster with a bot, a deleted account and an account without email. *)
Definition aligner_roster : list AlignerSync.Member :=
  [human "UA" "A@x.com";
   {| AlignerSync.member_id := "UBOT"; AlignerSync.member_deleted := false;
      AlignerSync.member_is_bot := true; AlignerSync.member_email := Some "bot@x.com" |};
   {| AlignerSync.member_id := "UGONE"; AlignerSync.member_deleted := true;
      AlignerSync.member_is_bot := false; AlignerSync.member_email := Some "gone@x.com" |};
   {| AlignerSync.member_id := "UNONE"; AlignerSync.member_deleted := false;
      AlignerSync.member_is_bot := false; AlignerSync.member_email := None |};
   human "UB" "b@x.com"].

(** A user list served in two pages. *)
Definition aligner_two_pages (token : option string) : Exn + AlignerSync.Page :=
  match token with
  | None =>
      inr {| AlignerSync.page_members := [human "UA" "A@x.com"];
             AlignerSync.page_cursor := Some "p2" |}
  | Some _ =>
      inr {| AlignerSync.page_members := [human "UB" "b@x.com"];
             AlignerSync.page_cursor := Some "" |}
  end.

(** Services that refuse every invite with a Slack error and accept every
    kick. *)
Definition refusing_invites (G S_h : gset string) : Env :=
  {| group_members := fun _ _ => inr G;
     channel_members := fun _ _ => inr S_h;
     invite_response := fun _ _ _ => Some (SlackApiError "not_in_channel" "not_in_channel");
     kick_response := fun _ _ _ => None;
     post_response := fun _ _ _ => None |}.

(** A user list whose second page is refused for rate limiting. *)
Definition aligner_rate_limited (token : option string) : Exn + AlignerSync.Page :=
  match token with
  | None =>
      inr {| AlignerSync.page_members := [human "UA" "A@x.com"];
             AlignerSync.page_cursor := Some "p2" |}
  | Some _ => inl (SlackApiError "ratelimited" "ratelimited")
  end.

(** * Properties *)

(** ** The monad *)

Ltac unfold_monad :=
  unfold bind, ret, raise, try_except, lift, update_stats, logger, perform,
    settings_dry_run, key_error in *.

(** States that carry the history of calls. *)
Class HasEvents (S : Type) := events_of : S -> list Event.
#[global] Instance World_events : HasEvents World := events.
#[global] Instance RunState_events : HasEvents RunState := fun s => events (world s).
#[global] Instance AlignerState_events : HasEvents AlignerSync.State := AlignerSync.calls.

(** A computation that only ever appends to the history. *)
Definition appends {S A} `{HasEvents S} (c : M S A) : Prop :=
  forall s, events_of s `prefix_of` events_of (c s).1.

(** A computation whose calls all satisfy [P]. *)
Definition emits {S A} `{HasEvents S} (P : Event -> Prop) (c : M S A) : Prop :=
  forall s, exists evs,
    events_of (c s).1 = (events_of s ++ evs)%list /\ Forall P evs.

(** A computation that leaves the name of the [stats] object alone. *)
Definition keeps_name {A} (c : M RunState A) : Prop :=
  forall s, mapping_name (stats (c s).1) = mapping_name (stats s).

(** A computation whose result depends on the initial state through [R]
    only, and that leaves states related by [R] when started in such. *)
Definition respects {S A} (R : S -> S -> Prop) (c : M S A) : Prop :=
  forall s s', R s s' -> (c s).2 = (c s').2 /\ R (c s).1 (c s').1.

(** Any two worlds. *)
Definition any_world (w w' : World) : Prop := True.

(** Two states of a mapping with the same statistics. *)
Definition same_stats (s s' : RunState) : Prop := stats s = stats s'.

Lemma appends_ret {S A} `{HasEvents S} (a : A) : appends (ret a).
Proof. intros s. reflexivity. Qed.

Lemma appends_raise {S A} `{HasEvents S} (e : Exn) : appends (@raise S A e).
Proof. intros s. reflexivity. Qed.

Lemma appends_bind {S A B} `{HasEvents S} (c : M S A) (k : A -> M S B) :
  appends c -> (forall a, appends (k a)) -> appends (bind c k).
Proof.
  intros Hc Hk s. unfold bind. specialize (Hc s).
  destruct (c s) as [s' [e|a]]; simpl in *; [done|].
  etrans; [exact Hc|apply Hk].
Qed.

Lemma appends_try_except {S A} `{HasEvents S} (c : M S A) (h : Exn -> option (M S A)) :
  appends c -> (forall e k, h e = Some k -> appends k) -> appends (try_except c h).
Proof.
  intros Hc Hh s. unfold try_except. specialize (Hc s).
  destruct (c s) as [s' [e|a]]; simpl in *; [|done].
  destruct (h e) as [k|] eqn:Hk; [|done].
  etrans; [exact Hc|eapply Hh, Hk].
Qed.

Lemma appends_logger (r : LogRecord) : appends (logger r).
Proof. intros w. reflexivity. Qed.

Lemma appends_perform (c : Call) (answer : list Event -> option Exn) :
  appends (perform c answer).
Proof. intros w. simpl. apply prefix_app_r. reflexivity. Qed.

Lemma appends_lift {A} (c : M World A) : appends c -> appends (lift c).
Proof.
  intros Hc s. unfold lift. specialize (Hc (world s)).
  destruct (c (world s)) as [w r]. exact Hc.
Qed.

Lemma appends_update_stats (f : SyncStats -> SyncStats) : appends (update_stats f).
Proof. intros s. reflexivity. Qed.

Lemma appends_if {S A} `{HasEvents S} (b : bool) (c1 c2 : M S A) :
  appends c1 -> appends c2 -> appends (if b then c1 else c2).
Proof. by destruct b. Qed.

Create HintDb appends.
#[global] Hint Resolve appends_ret appends_raise appends_logger appends_perform
  appends_update_stats : appends.

Ltac solve_appends :=
  repeat first
    [ progress auto with appends
    | apply appends_bind; [|intros]
    | apply appends_lift
    | apply appends_if
    | apply appends_try_except; [|intros [] ? ?; simplify_eq]
    | case_decide | case_bool_decide | case_match ].

(** ** The history only grows *)

Lemma appends_get_group_members env g : appends (get_group_members env g).
Proof.
  intros w. unfold get_group_members.
  apply (appends_try_except (listing (group_members env (events w) g))).
  - unfold listing. case_match; auto with appends.
  - intros e k [= <-]. solve_appends.
Qed.

Lemma appends_get_channel_members env ch : appends (get_channel_members env ch).
Proof.
  intros w. unfold get_channel_members.
  apply (appends_try_except (listing (channel_members env (events w) ch))).
  - unfold listing. case_match; auto with appends.
  - intros [err t|t] k [= <-]. solve_appends.
Qed.

Lemma appends_resolve_emails c emails ids missing :
  appends (resolve_emails c emails ids missing).
Proof.
  revert ids missing. induction emails as [|e emails IH]; intros; simpl.
  - solve_appends.
  - case_match; [apply IH|]. apply appends_bind; [solve_appends|intros; apply IH].
Qed.

Lemma appends_invite_chunk env ch dry chunk n :
  appends (invite_chunk env ch dry chunk n).
Proof. unfold invite_chunk. solve_appends. Qed.

Lemma appends_invite_loop env ch dry ids starts n :
  appends (invite_loop env ch dry ids starts n).
Proof.
  revert n. induction starts as [|i starts IH]; intros; simpl.
  - solve_appends.
  - apply appends_bind; [apply appends_invite_chunk|intros; apply IH].
Qed.

Lemma appends_invite_users env c ch emails dry :
  appends (invite_users env c ch emails dry).
Proof.
  unfold invite_users. apply appends_bind; [apply appends_resolve_emails|intros].
  apply appends_bind; [apply appends_invite_loop|intros]. solve_appends.
Qed.

Lemma appends_kick_user env ch u dry : appends (kick_user env ch u dry).
Proof. unfold kick_user. solve_appends. Qed.

Lemma appends_post_report env ch sl dry : appends (post_report env ch sl dry).
Proof. unfold post_report. solve_appends. Qed.

Lemma appends_settings_dry_run cfg : appends (@settings_dry_run RunState cfg).
Proof. unfold settings_dry_run. solve_appends. Qed.

Lemma appends_remove_one env cfg c m smm e : appends (remove_one env cfg c m smm e).
Proof.
  unfold remove_one. apply appends_bind; [solve_appends|intros u].
  repeat (apply appends_if; [solve_appends|]).
  apply appends_bind; [apply appends_settings_dry_run|intros dry].
  apply appends_bind; [apply appends_lift, appends_kick_user|intros]. solve_appends.
Qed.

Lemma appends_remove_loop env cfg c m smm emails :
  appends (remove_loop env cfg c m smm emails).
Proof.
  induction emails as [|e emails IH]; simpl; [solve_appends|].
  apply appends_bind; [apply appends_remove_one|intros; apply IH].
Qed.

Lemma appends_execute_adds env cfg c ord m to_add :
  appends (execute_adds env cfg c ord m to_add).
Proof.
  unfold execute_adds. case_decide; [solve_appends|].
  apply appends_bind; [apply appends_settings_dry_run|intros dry].
  apply appends_bind; [apply appends_lift, appends_invite_users|intros]. solve_appends.
Qed.

Lemma appends_reconcile env cfg c ord m G S_h :
  appends (reconcile env cfg c ord m G S_h).
Proof.
  unfold reconcile. case_bool_decide; [solve_appends|].
  apply appends_bind; [apply appends_execute_adds|intros; apply appends_remove_loop].
Qed.

Lemma appends_mapping_body env cfg c ord m : appends (mapping_body env cfg c ord m).
Proof.
  unfold mapping_body.
  apply appends_bind; [apply appends_lift, appends_get_group_members|intros].
  apply appends_bind; [apply appends_lift, appends_get_channel_members|intros].
  apply appends_reconcile.
Qed.

Lemma appends_mapping_failed e : appends (mapping_failed e).
Proof. unfold mapping_failed. solve_appends. Qed.

(** ** Equations of the client operations *)

Lemma kick_user_dry env ch u w :
  kick_user env ch u true w =
    ({| events := events w; log := log w ++ [log_would_kick u] |}, inr true).
Proof. reflexivity. Qed.

Lemma kick_user_real env ch u w :
  kick_user env ch u false w =
    let ev := {| ev_call := conversations_kick ch u;
                 ev_raised := kick_response env (events w) ch u |} in
    match kick_response env (events w) ch u with
    | None =>
        ({| events := events w ++ [ev]; log := log w ++ [log_kicked u] |}, inr true)
    | Some (SlackApiError err t) =>
        ({| events := events w ++ [ev]; log := log w ++ [log_kick_failed u err] |},
         inr false)
    | Some (Exception t) =>
        ({| events := events w ++ [ev]; log := log w |}, inl (Exception t))
    end.
Proof.
  unfold kick_user. unfold_monad. simpl.
  destruct (kick_response env (events w) ch u) as [[err t|t]|]; reflexivity.
Qed.

Lemma invite_chunk_dry env ch chunk n w :
  invite_chunk env ch true chunk n w =
    ({| events := events w; log := log w ++ [log_would_invite chunk] |},
     inr (n + length chunk)).
Proof. reflexivity. Qed.

Lemma invite_chunk_real env ch chunk n w :
  invite_chunk env ch false chunk n w =
    let ev := {| ev_call := conversations_invite ch chunk;
                 ev_raised := invite_response env (events w) ch chunk |} in
    match invite_response env (events w) ch chunk with
    | None => ({| events := events w ++ [ev]; log := log w |}, inr (n + length chunk))
    | Some (SlackApiError err t) =>
        if decide (err = "already_in_channel") then
          ({| events := events w ++ [ev]; log := log w |}, inr n)
        else
          ({| events := events w ++ [ev]; log := log w ++ [log_invite_failed err] |},
           inr n)
    | Some (Exception t) =>
        ({| events := events w ++ [ev]; log := log w |}, inl (Exception t))
    end.
Proof.
  unfold invite_chunk. unfold_monad. simpl.
  destruct (invite_response env (events w) ch chunk) as [[err t|t]|]; try reflexivity.
  case_decide; reflexivity.
Qed.

(** The first loop of [invite_users] never raises and makes no call. *)
Lemma resolve_emails_eq c emails ids missing w :
  resolve_emails c emails ids missing w =
    ({| events := events w; log := log w ++ (log_no_account <$> unresolved c emails) |},
     inr ((ids ++ resolved c emails)%list, (missing ++ unresolved c emails)%list)).
Proof.
  revert ids missing w. induction emails as [|e emails IH]; intros; simpl.
  - unfold ret. rewrite !app_nil_r. by destruct w.
  - unfold resolved, unresolved. simpl. rewrite filter_cons.
    destruct (user_cache c !! e) as [d|] eqn:Hd; simpl.
    + rewrite IH. unfold resolved, unresolved. by rewrite <- app_assoc.
    + unfold bind, logger. rewrite IH. simpl. unfold resolved, unresolved.
      by rewrite <- !app_assoc.
Qed.

(** With both listings answered, the body of a mapping is the
    reconciliation of the two sets. *)
Lemma mapping_body_fetched env cfg c ord m s G S_h :
  group_members env (events (world s)) (google_group m) = inr G ->
  channel_members env (events (world s)) (slack_channel m) = inr S_h ->
  mapping_body env cfg c ord m s = reconcile env cfg c ord m G S_h s.
Proof.
  intros HG HS. unfold mapping_body, get_group_members, get_channel_members.
  unfold bind at 1. unfold lift at 1. unfold try_except at 1. rewrite HG. simpl.
  unfold bind at 1. unfold lift at 1. unfold try_except at 1. simpl. rewrite HS. simpl.
  by destruct s.
Qed.

(** ** The diff *)

(** C3: for all source sets [G] and destination sets [S], the add-set
    [G - S] and the remove-set [S - G] are disjoint, and removing the
    remove-set from [S] and adding the add-set gives [G]; for the diff of
    [run_sync] and for the diff of [sync_group_to_channel]. *)
Theorem diff_disjoint_and_reconstructs (G S : gset string) :
  (to_add_emails G S ## candidate_remove_emails G S /\
   (S ∖ candidate_remove_emails G S) ∪ to_add_emails G S = G) /\
  (Aligner.to_add G S ## Aligner.to_remove G S /\
   (S ∖ Aligner.to_remove G S) ∪ Aligner.to_add G S = G).
Proof.
  unfold to_add_emails, candidate_remove_emails, Aligner.to_add, Aligner.to_remove.
  assert (H : (G ∖ S) ## (S ∖ G) /\ (S ∖ (S ∖ G)) ∪ (G ∖ S) = G); [|done].
  split.
  - set_solver.
  - apply set_eq. intros x. rewrite elem_of_union, !elem_of_difference.
    destruct (decide (x ∈ S)), (decide (x ∈ G)); tauto.
Qed.

(** ** The safety ceiling *)

(** C1: when the number of computed changes exceeds the ceiling, the mapping
    ends with status Aborted, the reason is the one entry of its error list,
    and the history of calls is unchanged: no invite, no kick. *)
Theorem ceiling_aborts_without_mutation env cfg c ord m w (G S_h : gset string) :
  group_members env (events w) (google_group m) = inr G ->
  channel_members env (events w) (slack_channel m) = inr S_h ->
  (ceiling cfg < Z.of_nat (total_changes G (dom (member_map c ord S_h))))%Z ->
  let r := process_mapping env cfg c ord m w in
  status r.1 = Aborted /\
  errors r.1 = [abort_message cfg (total_changes G (dom (member_map c ord S_h)))] /\
  events r.2 = events w /\
  filter (fun ev => mutating ev = true) (new_events w r.2) = [] /\
  added r.1 = 0 /\ removed r.1 = 0 /\ skipped r.1 = 0.
Proof.
  intros HG HS Hlim. unfold process_mapping, try_except.
  rewrite (mapping_body_fetched _ _ _ _ _ _ G S_h) by done.
  unfold reconcile. rewrite bool_decide_eq_true_2 by done.
  unfold_monad. simpl. unfold new_events. simpl.
  rewrite drop_all. done.
Qed.

Lemma ceiling_aborts_without_mutation_witness :
  let r := process_mapping (obliging fifty_one ∅) (settings_of false 50) abc_client
             elements_order eng empty_world in
  status r.1 = Aborted /\
  errors r.1 = ["Aborting: 51 changes exceeds limit of 50"] /\
  events r.2 = [].
Proof.
  pose proof (ceiling_aborts_without_mutation (obliging fifty_one ∅)
    (settings_of false 50) abc_client elements_order eng empty_world fifty_one ∅
    eq_refl eq_refl) as H.
  assert (Hlim : (ceiling (settings_of false 50) <
            Z.of_nat (total_changes fifty_one (dom (member_map abc_client elements_order ∅))))%Z)
    by (vm_compute; reflexivity).
  destruct (H Hlim) as (H1 & H2 & H3 & _).
  split; [exact H1|]. split; [|exact H3].
  rewrite H2. vm_compute. reflexivity.
Defined.

(** ** The removal filters *)

Lemma skip_state_skipped_with (r : LogRecord) (s : RunState) :
  skipped_with r s (skip_state r s, inr tt).
Proof. unfold skipped_with, skip_state, incr_skipped. simpl. done. Qed.

(** C2: for a removal candidate, the filters are tried in the order
    protected set, admin or owner, bot or app user, and the first that
    matches decides: the iteration returns, the count of skipped candidates
    goes up by one, the other statistics stay as they were, the matching
    filter is logged, and no call is made.  A member of the protected set is
    skipped whatever the cache holds for it, in particular when it has none
    of the flags; a cached admin or owner that is not protected is skipped
    as such whether or not it is also a bot; a cached bot or app user is
    skipped as such when it is neither protected nor admin nor owner. *)
Theorem removal_filters_in_order env cfg c m
    (slack_member_map : gmap string string) (email u : string) (s : RunState) :
  slack_member_map !! email = Some u ->
  let run := remove_one env cfg c m slack_member_map email s in
  (u ∈ protected_ids m ->
     skipped_with (log_skip_protected email) s run) /\
  (forall d,
     (u ∉ protected_ids m) ->
     user_cache c !! email = Some d ->
     is_admin d = true \/ is_owner d = true ->
     skipped_with (log_skip_admin_owner email) s run) /\
  (forall d,
     (u ∉ protected_ids m) ->
     user_cache c !! email = Some d ->
     is_admin d = false -> is_owner d = false ->
     is_bot d = true \/ is_app_user d = true ->
     skipped_with (log_skip_bot email) s run).
Proof.
  intros Hu run. subst run. split; [|split].
  - intros Hp. unfold remove_one. rewrite Hu.
    unfold bind at 1. cbv beta. unfold ret at 1. cbv beta iota.
    rewrite (bool_decide_eq_true_2 _ Hp). apply skip_state_skipped_with.
  - intros d Hp Hd Ha. unfold remove_one. rewrite Hu.
    unfold bind at 1. cbv beta. unfold ret at 1. cbv beta iota.
    rewrite (bool_decide_eq_false_2 _ Hp), Hd. cbn [flag].
    replace (is_admin d || is_owner d) with true
      by (destruct Ha as [-> | ->]; [done|by rewrite orb_true_r]).
    apply skip_state_skipped_with.
  - intros d Hp Hd Ha Ho Hb. unfold remove_one. rewrite Hu.
    unfold bind at 1. cbv beta. unfold ret at 1. cbv beta iota.
    rewrite (bool_decide_eq_false_2 _ Hp), Hd. cbn [flag]. rewrite Ha, Ho.
    cbn [orb].
    replace (is_bot d || is_app_user d) with true
      by (destruct Hb as [-> | ->]; [done|by rewrite orb_true_r]).
    apply skip_state_skipped_with.
Qed.

Lemma removal_filters_in_order_witness :
  user_cache abc_client !! "c@x.com" = Some (member "UC" "c@x.com") /\
  skipped_with (log_skip_protected "c@x.com") (start_state eng empty_world)
    (remove_one (obliging ∅ ∅) (settings_of false 50) abc_client (eng_protecting ["UC"])
       {["c@x.com" := "UC"]} "c@x.com" (start_state eng empty_world)).
Proof.
  split; [vm_compute; reflexivity|].
  apply (removal_filters_in_order (obliging ∅ ∅) (settings_of false 50) abc_client
           (eng_protecting ["UC"]) {["c@x.com" := "UC"]} "c@x.com" "UC"
           (start_state eng empty_world)).
  - vm_compute. reflexivity.
  - apply (bool_decide_unpack _). vm_compute. exact I.
Defined.

(** ** What one pass of the removal loop does to the statistics *)

(** One iteration either raises and leaves the statistics alone, or moves
    exactly one of the three counters. *)
Lemma remove_one_stats env cfg c m smm e s s' r :
  remove_one env cfg c m smm e s = (s', r) ->
  (r = inr tt /\
   (stats s' = incr_skipped (stats s) \/
    stats s' = incr_removed (stats s) \/
    stats s' = append_error ("Failed to kick " ++ e) (stats s))) \/
  ((exists x, r = inl x) /\ stats s' = stats s).
Proof.
  unfold remove_one.
  destruct (smm !! e) as [u|]; [|unfold_monad; intros [= <- <-]; eauto].
  unfold bind at 1. unfold ret at 1. cbv beta iota.
  destruct (bool_decide (u ∈ protected_ids m));
    [unfold_monad; simpl; intros [= <- <-]; auto|].
  destruct (flag is_admin _ || flag is_owner _);
    [unfold_monad; simpl; intros [= <- <-]; auto|].
  destruct (flag is_bot _ || flag is_app_user _);
    [unfold_monad; simpl; intros [= <- <-]; auto|].
  unfold settings_dry_run.
  destruct (dry_run cfg) as [[|]|]; [| |unfold_monad; intros [= <- <-]; eauto].
  - unfold bind, lift, ret. cbv beta iota. rewrite kick_user_dry.
    unfold update_stats. simpl. intros [= <- <-]; auto.
  - unfold bind, lift, ret. cbv beta iota. rewrite kick_user_real. cbv zeta.
    destruct (kick_response env (events (world s)) (slack_channel m) u) as [[err t|t]|];
      unfold update_stats; simpl; intros [= <- <-]; eauto 6.
Qed.

Lemma remove_loop_stats env cfg c m smm emails s s' r :
  remove_loop env cfg c m smm emails s = (s', r) ->
  status (stats s') = status (stats s) /\
  added (stats s') = added (stats s) /\
  missing_accounts (stats s') = missing_accounts (stats s) /\
  (exists l, errors (stats s') = (errors (stats s) ++ l)%list /\
             Forall (fun msg => exists e, e ∈ emails /\ msg = "Failed to kick " ++ e) l) /\
  (r = inr tt -> accounted (stats s') = accounted (stats s) + length emails).
Proof.
  revert s. induction emails as [|e emails IH]; intros s; simpl.
  - intros [= <- <-]. split_and!; try done.
    exists []. by rewrite app_nil_r.
  - unfold bind.
    destruct (remove_one env cfg c m smm e s) as [s1 r1] eqn:E1.
    apply remove_one_stats in E1 as H1. destruct r1 as [x|[]].
    + intros [= <- <-]. destruct H1 as [[? _]|[_ ->]]; [done|].
      split_and!; try done. exists []. by rewrite app_nil_r.
    + intros Hloop. destruct H1 as [[_ H1]|[[x ?] _]]; [|done].
      destruct (IH s1 Hloop) as (IH1 & IH2 & IH3 & (l & IH4 & IH5) & IH6).
      rewrite IH1, IH2, IH3, IH4.
      assert (Hl : Forall (fun msg => exists e0, e0 ∈ e :: emails /\
                                        msg = "Failed to kick " ++ e0) l).
      { eapply Forall_impl; [exact IH5|]. intros msg (e0 & ? & ->).
        exists e0. split; [by right|done]. }
      destruct H1 as [H1|[H1|H1]]; rewrite H1 in *; simpl; split_and!; try done;
        try (intros Hr; rewrite (IH6 Hr); unfold accounted; simpl;
             rewrite ?length_app; simpl; lia);
        try (by exists l).
      exists (("Failed to kick " ++ e) :: l). split; [by rewrite <- app_assoc|].
      constructor; [|done]. exists e. split; [by left|done].
Qed.

(** The invitations touch only [added] and [missing_accounts]. *)
Lemma execute_adds_stats env cfg c ord m to_add s s' r :
  execute_adds env cfg c ord m to_add s = (s', r) ->
  status (stats s') = status (stats s) /\
  skipped (stats s') = skipped (stats s) /\
  removed (stats s') = removed (stats s) /\
  errors (stats s') = errors (stats s).
Proof.
  unfold execute_adds. case_decide; [by intros [= <- <-]|].
  unfold settings_dry_run. destruct (dry_run cfg) as [dry|]; [|by intros [= <- <-]].
  unfold bind, ret, lift, update_stats.
  destruct (invite_users env c (slack_channel m) (enum ord to_add) dry (world s))
    as [w' [x|[n miss]]]; by intros [= <- <-].
Qed.


Lemma elem_of_enum (ord : SetOrder) (X : gset string) (x : string) :
  x ∈ enum ord X <-> x ∈ X.
Proof. rewrite (enum_perm ord X). apply elem_of_elements. Qed.

(** Below the ceiling, the reconciliation is the invitations followed by the
    removal loop. *)
Lemma reconcile_below_ceiling env cfg c ord m (G S_h : gset string) s :
  (Z.of_nat (total_changes G (dom (member_map c ord S_h))) <= ceiling cfg)%Z ->
  reconcile env cfg c ord m G S_h s =
    (execute_adds env cfg c ord m (to_add_emails G (dom (member_map c ord S_h))) ;;;
     remove_loop env cfg c m (member_map c ord S_h)
       (enum ord (candidate_remove_emails G (dom (member_map c ord S_h))))) s.
Proof.
  intros Hlim. unfold reconcile.
  assert (Hn : ¬ (ceiling cfg < Z.of_nat (total_changes G (dom (member_map c ord S_h))))%Z)
    by lia.
  by rewrite (bool_decide_eq_false_2 _ Hn).
Qed.

(** ** Accounting of the removal candidates *)



(** ** Failure of a mapping *)

(** C7: when the body of a mapping raises, the mapping ends with status
    Failed and the text of the exception appended to its error list; the
    counters and the missing accounts are those reached when the exception
    was raised; this [stats] object is appended to the list of statistics;
    and the calls already issued stay in the history, which is only ever
    extended. *)
Theorem failure_keeps_partial_stats env cfg c ord m w s e :
  default true (enabled m) = true ->
  mapping_body env cfg c ord m (start_state m w) = (s, inl e) ->
  let r := process_mapping env cfg c ord m w in
  status r.1 = Failed /\
  errors r.1 = (errors (stats s) ++ [str e])%list /\
  added r.1 = added (stats s) /\
  removed r.1 = removed (stats s) /\
  skipped r.1 = skipped (stats s) /\
  missing_accounts r.1 = missing_accounts (stats s) /\
  events r.2 = events (world s) /\
  events w `prefix_of` events r.2 /\
  forall stats_list,
    run_mappings env cfg c ord [m] stats_list w = ((stats_list ++ [r.1])%list, r.2).
Proof.
  intros Hen Hbody r. subst r.
  pose proof (appends_mapping_body env cfg c ord m (start_state m w)) as Hpre.
  unfold process_mapping, try_except. rewrite Hbody in *.
  unfold mapping_failed. unfold_monad. simpl. split_and!; try done.
  intros stats_list. rewrite Hen. simpl.
  unfold process_mapping, try_except. rewrite Hbody.
  unfold mapping_failed. unfold_monad. reflexivity.
Qed.

Lemma failure_keeps_partial_stats_witness :
  let r := process_mapping (breaking_after_first ∅ {["UB"; "UC"]}) (settings_of false 50)
             abc_client elements_order eng empty_world in
  status r.1 = Failed /\
  errors r.1 = ["connection reset"] /\
  removed r.1 = 1 /\
  length (events r.2) = 2.
Proof.
  destruct (mapping_body (breaking_after_first ∅ {["UB"; "UC"]}) (settings_of false 50)
              abc_client elements_order eng (start_state eng empty_world))
    as [s [e|u]] eqn:Hbody; [|vm_compute in Hbody; discriminate].
  pose proof (failure_keeps_partial_stats (breaking_after_first ∅ {["UB"; "UC"]})
                (settings_of false 50) abc_client elements_order eng empty_world
                s e eq_refl Hbody)
    as (H1 & H2 & _ & H4 & _ & _ & H7 & _).
  vm_compute in Hbody. injection Hbody as <- <-.
  cbv zeta. rewrite H1, H2, H4, H7. vm_compute. auto.
Defined.

(** ** The chunks of [invite_users] *)

Lemma concat_slices {A} (l : list A) (step a k : nat) :
  concat ((fun i => slice l i (i + step)) <$> ((fun j => j * step) <$> seq a k)) =
  take (k * step) (drop (a * step) l).
Proof.
  revert a. induction k as [|k IH]; intros a; simpl; [done|].
  rewrite IH. unfold slice.
  replace (a * step + step - a * step) with step by lia.
  replace (S a * step) with (a * step + step) by lia.
  rewrite <- (drop_drop l step (a * step)).
  apply take_take_drop.
Qed.

(** The chunks are consecutive pieces of the list and cover it. *)
Lemma concat_chunks (l : list string) : concat (chunks l) = l.
Proof.
  unfold chunks, range. rewrite concat_slices. rewrite Nat.mul_0_l, drop_0.
  apply take_ge. unfold chunk_size.
  pose proof (Nat.div_mod_eq (length l + 30 - 1) 30) as H.
  pose proof (Nat.mod_upper_bound (length l + 30 - 1) 30 ltac:(lia)) as H'.
  set (q := (length l + 30 - 1) / 30) in *.
  set (r := (length l + 30 - 1) mod 30) in *. lia.
Qed.

Lemma sum_list_length_concat {A} (ls : list (list A)) :
  sum_list_with length ls = length (concat ls).
Proof. induction ls as [|l ls IH]; simpl; [done|]. rewrite length_app. lia. Qed.

Lemma chunks_total (l : list string) : sum_list_with length (chunks l) = length l.
Proof. by rewrite sum_list_length_concat, concat_chunks. Qed.

Lemma elem_of_chunk (l us : list string) (u : string) :
  us ∈ chunks l -> u ∈ us -> u ∈ l.
Proof.
  intros Hus Hu. rewrite <- (concat_chunks l).
  induction Hus as [us cs|us' us cs _ IH]; simpl; rewrite elem_of_app; auto.
Qed.

Lemma invite_loop_each env ch dry ids starts n w :
  invite_loop env ch dry ids starts n w =
  invite_each env ch dry ((fun i => slice ids i (i + chunk_size)) <$> starts) n w.
Proof.
  revert n w. induction starts as [|i starts IH]; intros n w; simpl; [done|].
  unfold bind. destruct (invite_chunk env ch dry _ n w) as [w1 [x|n1]]; [done|apply IH].
Qed.

(** ** What the invitations do *)

Lemma invite_each_dry env ch cs n w :
  invite_each env ch true cs n w =
    ({| events := events w; log := log w ++ (log_would_invite <$> cs) |},
     inr (n + sum_list_with length cs)).
Proof.
  revert n w. induction cs as [|chunk cs IH]; intros n w; cbn [invite_each].
  - unfold ret. simpl. rewrite app_nil_r, Nat.add_0_r. by destruct w.
  - unfold bind. rewrite invite_chunk_dry, IH. simpl.
    by rewrite <- app_assoc, Nat.add_assoc.
Qed.

(** The calls made by the invitations of a real run, whatever the answers
    are: one call per chunk, in order, until a call raises something that is
    not a Slack error.  Only Slack errors other than "already_in_channel"
    are logged, and only the chunks of the calls that returned are counted. *)
Lemma invite_each_real env ch cs n w w' r :
  invite_each env ch false cs n w = (w', r) ->
  exists evs,
    events w' = (events w ++ evs)%list /\
    log w' = (log w ++ (evs ≫= invite_log))%list /\
    Forall (fun ev => exists h us, us ∈ cs /\ ev_call ev = conversations_invite ch us /\
                                   ev_raised ev = invite_response env h ch us) evs /\
    match r with
    | inr n' =>
        n' = n + sum_list_with invited evs /\
        ev_call <$> evs = conversations_invite ch <$> cs /\
        Forall (fun ev => forall t, ev_raised ev <> Some (Exception t)) evs
    | inl x => exists ev t, ev ∈ evs /\ x = Exception t /\ ev_raised ev = Some x
    end.
Proof.
  revert n w. induction cs as [|chunk cs IH]; intros n w; cbn [invite_each].
  - intros [= <- <-]. exists []. rewrite !app_nil_r. simpl. split_and!; auto.
  - unfold bind. rewrite invite_chunk_real. cbv zeta.
    set (ev := {| ev_call := conversations_invite ch chunk;
                  ev_raised := invite_response env (events w) ch chunk |}).
    assert (Hev : exists h us, us ∈ chunk :: cs /\
                    ev_call ev = conversations_invite ch us /\
                    ev_raised ev = invite_response env h ch us).
    { exists (events w), chunk. split_and!; [by left|done|done]. }
    assert (Hweak : forall evs,
      Forall (fun ev => exists h us, us ∈ cs /\ ev_call ev = conversations_invite ch us /\
                                     ev_raised ev = invite_response env h ch us) evs ->
      Forall (fun ev => exists h us, us ∈ chunk :: cs /\
                                     ev_call ev = conversations_invite ch us /\
                                     ev_raised ev = invite_response env h ch us) evs).
    { intros evs Hevs. eapply Forall_impl; [exact Hevs|].
      intros ev' (h & us & ? & ? & ?).
      exists h, us. split_and!; [by right|done|done]. }
    destruct (invite_response env (events w) ch chunk) as [[err t|t]|] eqn:Hresp.
    + case_decide as Herr.
      * intros Hrest. apply IH in Hrest as (evs & E1 & E2 & E3 & E4). simpl in *.
        exists (ev :: evs). rewrite bind_cons.
        unfold invite_log at 1. simpl. rewrite ?Hresp, decide_True by done. simpl.
        rewrite E1, E2, <- app_assoc. split_and!; [done|done|by constructor; auto|].
        destruct r as [x|n'].
        -- destruct E4 as (ev' & t' & ? & ? & ?). exists ev', t'.
           split_and!; [by right|done|done].
        -- destruct E4 as (-> & E5 & E6). unfold invited at 1. simpl. rewrite ?Hresp.
           split_and!; [done|by (simpl; f_equal)|].
           constructor; [|done]. simpl. by rewrite ?Hresp.
      * intros Hrest. apply IH in Hrest as (evs & E1 & E2 & E3 & E4). simpl in *.
        exists (ev :: evs). rewrite bind_cons.
        unfold invite_log at 1. simpl. rewrite ?Hresp, decide_False by done. simpl.
        rewrite E1, E2, <- !app_assoc. split_and!; [done|done|by constructor; auto|].
        destruct r as [x|n'].
        -- destruct E4 as (ev' & t' & ? & ? & ?). exists ev', t'.
           split_and!; [by right|done|done].
        -- destruct E4 as (-> & E5 & E6). unfold invited at 1. simpl. rewrite ?Hresp.
           split_and!; [done|by (simpl; f_equal)|].
           constructor; [|done]. simpl. by rewrite ?Hresp.
    + intros [= <- <-]. exists [ev]. simpl.
      unfold invite_log. simpl. rewrite ?Hresp. simpl. rewrite app_nil_r.
      split_and!; [done|done|by constructor|].
      exists ev, t. split_and!; [by left|done|]. simpl. by rewrite ?Hresp.
    + intros Hrest. apply IH in Hrest as (evs & E1 & E2 & E3 & E4). simpl in *.
      exists (ev :: evs). rewrite bind_cons.
      unfold invite_log at 1. simpl. rewrite ?Hresp. simpl.
      rewrite E1, E2, <- app_assoc. split_and!; [done|done|by constructor; auto|].
      destruct r as [x|n'].
      * destruct E4 as (ev' & t' & ? & ? & ?). exists ev', t'.
        split_and!; [by right|done|done].
      * destruct E4 as (-> & E5 & E6).
        assert (Hinv : invited ev = length chunk)
          by (unfold invited, call_size; simpl; by rewrite ?Hresp).
        split_and!; [simpl; rewrite Hinv; lia|by (simpl; f_equal)|].
        constructor; [|done]. simpl. by rewrite ?Hresp.
Qed.

Lemma new_events_app (w w' : World) (evs : list Event) :
  events w' = (events w ++ evs)%list -> new_events w w' = evs.
Proof. intros H. unfold new_events. rewrite H. apply drop_app_length. Qed.

Lemma invite_users_dry env c ch emails w :
  invite_users env c ch emails true w =
    ({| events := events w;
        log := log w ++ (log_no_account <$> unresolved c emails) ++
               (log_would_invite <$> chunks (resolved c emails)) |},
     inr (length (resolved c emails), unresolved c emails)).
Proof.
  unfold invite_users, bind. rewrite resolve_emails_eq. cbn [fst snd app].
  rewrite invite_loop_each, invite_each_dry. fold (chunks (resolved c emails)).
  rewrite chunks_total. unfold ret. simpl. by rewrite <- app_assoc.
Qed.

Lemma invite_users_real env c ch emails w w' r :
  invite_users env c ch emails false w = (w', r) ->
  exists evs,
    events w' = (events w ++ evs)%list /\
    log w' = (log w ++ (log_no_account <$> unresolved c emails) ++
              (evs ≫= invite_log))%list /\
    Forall (fun ev => exists h us, us ∈ chunks (resolved c emails) /\
                        ev_call ev = conversations_invite ch us /\
                        ev_raised ev = invite_response env h ch us) evs /\
    match r with
    | inr (n, missing) =>
        n = sum_list_with invited evs /\
        missing = unresolved c emails /\
        ev_call <$> evs = conversations_invite ch <$> chunks (resolved c emails) /\
        Forall (fun ev => forall t, ev_raised ev <> Some (Exception t)) evs
    | inl x => exists ev t, ev ∈ evs /\ x = Exception t /\ ev_raised ev = Some x
    end.
Proof.
  unfold invite_users, bind. rewrite resolve_emails_eq. cbn [fst snd app].
  rewrite invite_loop_each. fold (chunks (resolved c emails)).
  destruct (invite_each env ch false (chunks (resolved c emails)) 0 _)
    as [w1 r1] eqn:E.
  apply invite_each_real in E as (evs & E1 & E2 & E3 & E4). simpl in E1, E2.
  destruct r1 as [x|n]; intros [= <- <-]; exists evs;
    rewrite E1, E2, <- app_assoc; split_and!; try done.
  all: by destruct E4 as (? & ? & ?).
Qed.

Lemma call_sizes ch (evs : list Event) (cs : list (list string)) :
  ev_call <$> evs = conversations_invite ch <$> cs ->
  sum_list_with call_size evs = sum_list_with length cs.
Proof.
  revert cs. induction evs as [|ev evs IH]; intros [|chunk cs]; simpl; try done.
  intros [= Hc Hrest]. rewrite (IH cs Hrest). unfold call_size. by rewrite Hc.
Qed.

Lemma invited_le_call_sizes (evs : list Event) :
  sum_list_with invited evs <= sum_list_with call_size evs.
Proof.
  induction evs as [|ev evs IH]; simpl; [done|].
  assert (invited ev <= call_size ev); [|lia].
  unfold invited. destruct (ev_raised ev); lia.
Qed.

Lemma resolved_cons c (e : string) (emails : list string) :
  resolved c (e :: emails) =
    match user_cache c !! e with
    | Some d => user_id d :: resolved c emails
    | None => resolved c emails
    end.
Proof. unfold resolved. simpl. by destruct (user_cache c !! e). Qed.

Lemma unresolved_cons c (e : string) (emails : list string) :
  unresolved c (e :: emails) =
    match user_cache c !! e with
    | Some d => unresolved c emails
    | None => e :: unresolved c emails
    end.
Proof.
  unfold unresolved. rewrite filter_cons.
  destruct (user_cache c !! e) eqn:Hd; by case_decide.
Qed.

Lemma length_resolved_unresolved c (emails : list string) :
  length (resolved c emails) + length (unresolved c emails) = length emails.
Proof.
  induction emails as [|e emails IH]; [done|].
  rewrite resolved_cons, unresolved_cons.
  destruct (user_cache c !! e); simpl; lia.
Qed.

Lemma elem_of_resolved c (emails : list string) (u : string) :
  u ∈ resolved c emails <->
  exists e d, e ∈ emails /\ user_cache c !! e = Some d /\ user_id d = u.
Proof.
  unfold resolved. rewrite list_elem_of_omap. split.
  - intros (e & He & Hu). destruct (user_cache c !! e) as [d|] eqn:Hd; [|done].
    simpl in Hu. injection Hu as <-. eauto.
  - intros (e & d & He & Hd & <-). exists e. by rewrite Hd.
Qed.

Lemma elem_of_unresolved c (emails : list string) (e : string) :
  e ∈ unresolved c emails <-> user_cache c !! e = None /\ e ∈ emails.
Proof. unfold unresolved. by rewrite list_elem_of_filter. Qed.

(** ** Missing accounts *)

(** C4: an email to add that has no entry in the user cache is reported in
    the returned list of missing accounts (and logged), is not counted as
    added, and no invite is attempted for it: every user id of every invite
    call is the cached id of another email of the list.  The missing account
    never makes [invite_users] raise: only an exception of the invite
    endpoint itself that is not a Slack error can escape. *)
Theorem missing_account_reported_not_invited env c ch (emails : list string)
    (dry : bool) (w : World) (e : string) :
  e ∈ emails ->
  user_cache c !! e = None ->
  let r := invite_users env c ch emails dry w in
  log_no_account e ∈ log r.1 /\
  (forall ev, ev ∈ new_events w r.1 ->
     exists us, ev_call ev = conversations_invite ch us /\
       forall u, u ∈ us ->
         exists e' d, e' ∈ emails /\ e' <> e /\ user_cache c !! e' = Some d /\
                      user_id d = u) /\
  match r.2 with
  | inr (n, missing) => e ∈ missing /\ n + length missing <= length emails
  | inl x => dry = false /\
             exists ev t, ev ∈ new_events w r.1 /\ x = Exception t /\
                          ev_raised ev = Some x
  end.
Proof.
  intros He Hnone r. subst r.
  assert (Hmiss : e ∈ unresolved c emails) by by apply elem_of_unresolved.
  pose proof (length_resolved_unresolved c emails) as Hlen.
  destruct dry.
  - rewrite invite_users_dry. unfold new_events. simpl. rewrite drop_all.
    split_and!.
    + rewrite !elem_of_app. right. left. by apply list_elem_of_fmap_2.
    + intros ev Hev. by apply elem_of_nil in Hev.
    + done.
    + lia.
  - destruct (invite_users env c ch emails false w) as [w' r] eqn:E.
    apply invite_users_real in E as (evs & E1 & E2 & E3 & E4).
    cbn [fst snd]. rewrite (new_events_app w w' evs E1). split_and!.
    + rewrite E2, !elem_of_app. right. left. by apply list_elem_of_fmap_2.
    + intros ev Hev. rewrite Forall_forall in E3.
      destruct (E3 ev Hev) as (h & us & Hus & Hcall & _).
      exists us. split; [done|]. intros u Hu.
      pose proof (elem_of_chunk _ _ _ Hus Hu) as Hres.
      apply elem_of_resolved in Hres as (e' & d & ? & Hd & ?).
      exists e', d. split_and!; try done. intros ->. by rewrite Hnone in Hd.
    + destruct r as [x|[n missing]].
      * split; [done|]. destruct E4 as (ev & t & ? & ? & ?). eauto.
      * destruct E4 as (-> & -> & E5 & _). split; [done|].
        pose proof (invited_le_call_sizes evs) as H1.
        rewrite (call_sizes _ _ _ E5), chunks_total in H1. lia.
Qed.

Lemma missing_account_reported_not_invited_witness :
  let r := invite_users (obliging ∅ ∅) abc_client "C1" ["a@x.com"; "z@x.com"] false
             empty_world in
  r.2 = inr (1, ["z@x.com"]) /\
  events r.1 = [{| ev_call := conversations_invite "C1" ["UA"]; ev_raised := None |}] /\
  log_no_account "z@x.com" ∈ log r.1.
Proof.
  split; [vm_compute; reflexivity|]. split; [vm_compute; reflexivity|].
  apply (missing_account_reported_not_invited (obliging ∅ ∅) abc_client "C1"
           ["a@x.com"; "z@x.com"] false empty_world "z@x.com").
  - apply (bool_decide_unpack _). vm_compute. exact I.
  - vm_compute. reflexivity.
Defined.

(** ** The "already a member" answer *)

(** C8, as far as the code goes: a chunk answered with "already_in_channel"
    raises nothing and logs nothing, and the loop goes on with the next
    chunk; but its users are not counted.  When the invite endpoint raises
    Slack errors only, [invite_users] returns, every chunk has been
    submitted, the returned count is the total size of the chunks whose call
    returned, and the log has one error record per chunk that failed with
    another Slack error. *)
Theorem already_member_is_benign env c ch (emails : list string) (w : World) :
  (forall h us t, invite_response env h ch us <> Some (Exception t)) ->
  let r := invite_users env c ch emails false w in
  let evs := new_events w r.1 in
  r.2 = inr (sum_list_with invited evs, unresolved c emails) /\
  ev_call <$> evs = conversations_invite ch <$> chunks (resolved c emails) /\
  log r.1 = (log w ++ (log_no_account <$> unresolved c emails) ++
             (evs ≫= invite_log))%list /\
  (forall ev t, ev ∈ evs ->
     ev_raised ev = Some (SlackApiError "already_in_channel" t) ->
     invite_log ev = [] /\ invited ev = 0) /\
  (forall chunk n w0 t,
     invite_response env (events w0) ch chunk =
       Some (SlackApiError "already_in_channel" t) ->
     invite_chunk env ch false chunk n w0 =
       ({| events := events w0 ++
                     [{| ev_call := conversations_invite ch chunk;
                         ev_raised := Some (SlackApiError "already_in_channel" t) |}];
           log := log w0 |}, inr n)).
Proof.
  intros Hslack r evs. subst evs r.
  destruct (invite_users env c ch emails false w) as [w' r] eqn:E.
  apply invite_users_real in E as (evs & E1 & E2 & E3 & E4).
  cbn [fst snd]. rewrite (new_events_app w w' evs E1). split_and!.
  - destruct r as [x|[n missing]].
    + destruct E4 as (ev & t & Hev & -> & Hr). rewrite Forall_forall in E3.
      destruct (E3 ev Hev) as (h & us & _ & _ & Hresp).
      rewrite Hresp in Hr. by apply Hslack in Hr.
    + by destruct E4 as (-> & -> & _).
  - destruct r as [x|[n missing]]; [|by destruct E4 as (_ & _ & ? & _)].
    destruct E4 as (ev & t & Hev & -> & Hr). rewrite Forall_forall in E3.
    destruct (E3 ev Hev) as (h & us & _ & _ & Hresp).
    rewrite Hresp in Hr. by apply Hslack in Hr.
  - done.
  - intros ev t _ Hr. unfold invite_log, invited. rewrite Hr.
    by rewrite decide_True.
  - intros chunk n w0 t Hr. rewrite invite_chunk_real. cbv zeta. rewrite Hr.
    by rewrite decide_True.
Qed.

Lemma already_member_is_benign_witness :
  let r := invite_users (already_member ∅ ∅) abc_client "C1" ["a@x.com"; "b@x.com"]
             false empty_world in
  r.2 = inr (0, []) /\ log r.1 = [] /\ length (events r.1) = 1.
Proof.
  pose proof (already_member_is_benign (already_member ∅ ∅) abc_client "C1"
                ["a@x.com"; "b@x.com"] empty_world) as H.
  assert (Hslack : forall h us t,
            invite_response (already_member ∅ ∅) h "C1" us <> Some (Exception t))
    by (intros h us t; simpl; discriminate).
  destruct (H Hslack) as (H1 & _ & H3 & _).
  cbv zeta. rewrite H1, H3. vm_compute. auto.
Defined.

(** C8 as stated fails: with one chunk answered "already_in_channel" no
    chunk has another failure, yet the chunk is left out of the returned
    count. *)
Lemma already_member_chunk_not_counted :
  let r := invite_users (already_member ∅ ∅) abc_client "C1" ["a@x.com"] false
             empty_world in
  ~ (forall n missing, r.2 = inr (n, missing) ->
       n = sum_list_with counted_unless_other_failure (new_events empty_world r.1)).
Proof.
  intros r H. specialize (H 0 [] eq_refl). vm_compute in H. discriminate.
Qed.

(** ** Dry run against a real run in which every call succeeds *)

Lemma events_of_invites ch (evs : list Event) (cs : list (list string)) :
  ev_call <$> evs = conversations_invite ch <$> cs ->
  Forall (fun ev => ev_raised ev = None) evs ->
  evs = invite_ok ch <$> cs.
Proof.
  revert cs. induction evs as [|[call raised] evs IH]; intros [|chunk cs]; simpl;
    try done.
  intros [= -> Hrest] Hnone. apply Forall_cons in Hnone as [Hr Hnone].
  simpl in Hr. subst raised. f_equal. by apply IH.
Qed.

Lemma invite_ok_log ch (cs : list (list string)) :
  (invite_ok ch <$> cs) ≫= invite_log = [].
Proof. induction cs as [|chunk cs IH]; [done|]. by rewrite fmap_cons, bind_cons, IH. Qed.

Lemma invite_ok_invited ch (cs : list (list string)) :
  sum_list_with invited (invite_ok ch <$> cs) = sum_list_with length cs.
Proof. induction cs as [|chunk cs IH]; [done|]. rewrite fmap_cons. simpl. by rewrite IH. Qed.

Lemma invite_users_all_succeed env c ch (emails : list string) (w : World) :
  (forall h us, invite_response env h ch us = None) ->
  invite_users env c ch emails false w =
    ({| events := events w ++ (invite_ok ch <$> chunks (resolved c emails));
        log := log w ++ (log_no_account <$> unresolved c emails) |},
     inr (length (resolved c emails), unresolved c emails)).
Proof.
  intros Hok.
  destruct (invite_users env c ch emails false w) as [w' r] eqn:E.
  apply invite_users_real in E as (evs & E1 & E2 & E3 & E4).
  assert (Hnone : Forall (fun ev => ev_raised ev = None) evs).
  { eapply Forall_impl; [exact E3|]. intros ev (h & us & _ & _ & ->). apply Hok. }
  destruct r as [x|[n missing]].
  - destruct E4 as (ev & t & Hev & -> & Hr). rewrite Forall_forall in Hnone.
    by rewrite (Hnone ev Hev) in Hr.
  - destruct E4 as (-> & -> & E5 & _).
    pose proof (events_of_invites _ _ _ E5 Hnone) as ->.
    rewrite invite_ok_log, app_nil_r in E2.
    rewrite invite_ok_invited, chunks_total.
    destruct w' as [evs' log']. simpl in *. by subst.
Qed.

Lemma get_group_members_events env g w :
  events (get_group_members env g w).1 = events w.
Proof.
  unfold get_group_members, try_except, listing.
  by destruct (group_members env (events w) g).
Qed.

Lemma get_channel_members_events env ch w :
  events (get_channel_members env ch w).1 = events w.
Proof.
  unfold get_channel_members, try_except, listing.
  by destruct (channel_members env (events w) ch) as [[err t|t]|].
Qed.

(** The body of the removal loop, case by case. *)
Lemma remove_one_eq env cfg c m smm e s :
  remove_one env cfg c m smm e s =
    match smm !! e with
    | None => (s, inl (key_error e))
    | Some u =>
        if bool_decide (u ∈ protected_ids m) then
          (skip_state (log_skip_protected e) s, inr tt)
        else if flag is_admin (user_cache c !! e) || flag is_owner (user_cache c !! e) then
          (skip_state (log_skip_admin_owner e) s, inr tt)
        else if flag is_bot (user_cache c !! e) || flag is_app_user (user_cache c !! e) then
          (skip_state (log_skip_bot e) s, inr tt)
        else
          match dry_run cfg with
          | None => (s, inl (key_error "dry_run"))
          | Some dry =>
              match kick_user env (slack_channel m) u dry (world s) with
              | (w', inl x) => ({| stats := stats s; world := w' |}, inl x)
              | (w', inr true) =>
                  ({| stats := incr_removed (stats s); world := w' |}, inr tt)
              | (w', inr false) =>
                  ({| stats := append_error ("Failed to kick " ++ e) (stats s);
                      world := w' |}, inr tt)
              end
          end
    end.
Proof.
  unfold remove_one, settings_dry_run, bind, ret, raise, lift, update_stats, skip_state.
  destruct (smm !! e) as [u|]; [|done].
  destruct (bool_decide (u ∈ protected_ids m)); [done|].
  destruct (flag is_admin _ || flag is_owner _); [done|].
  destruct (flag is_bot _ || flag is_app_user _); [done|].
  destruct (dry_run cfg) as [dry|]; [|done].
  by destruct (kick_user env (slack_channel m) u dry (world s)) as [w' [x|[|]]].
Qed.

(** One iteration of the removal loop, dry and real, from states with the
    same statistics. *)
Lemma remove_one_dry_real env cfg c m smm e s1 s2 :
  (forall h ch u, kick_response env h ch u = None) ->
  stats s1 = stats s2 ->
  let d := remove_one env (with_dry_run true cfg) c m smm e s1 in
  let r := remove_one env (with_dry_run false cfg) c m smm e s2 in
  stats d.1 = stats r.1 /\ d.2 = r.2 /\ events (world d.1) = events (world s1).
Proof.
  intros Hok Hst. cbv zeta. rewrite !remove_one_eq.
  destruct (smm !! e) as [u|]; [|done].
  destruct (bool_decide (u ∈ protected_ids m)); [simpl; by rewrite Hst|].
  destruct (flag is_admin _ || flag is_owner _); [simpl; by rewrite Hst|].
  destruct (flag is_bot _ || flag is_app_user _); [simpl; by rewrite Hst|].
  cbn [dry_run with_dry_run].
  rewrite kick_user_dry, kick_user_real. cbv zeta. rewrite Hok.
  simpl. by rewrite Hst.
Qed.

Lemma remove_loop_dry_real env cfg c m smm emails s1 s2 :
  (forall h ch u, kick_response env h ch u = None) ->
  stats s1 = stats s2 ->
  let d := remove_loop env (with_dry_run true cfg) c m smm emails s1 in
  let r := remove_loop env (with_dry_run false cfg) c m smm emails s2 in
  stats d.1 = stats r.1 /\ d.2 = r.2 /\ events (world d.1) = events (world s1).
Proof.
  intros Hok. revert s1 s2. induction emails as [|e emails IH]; intros s1 s2 Hst;
    cbv zeta; cbn [remove_loop]; [done|].
  unfold bind.
  destruct (remove_one_dry_real env cfg c m smm e s1 s2 Hok Hst) as (H1 & H2 & H3).
  destruct (remove_one env (with_dry_run true cfg) c m smm e s1) as [d1 rd].
  destruct (remove_one env (with_dry_run false cfg) c m smm e s2) as [r1 rr].
  simpl in H1, H2, H3. subst rr. destruct rd as [x|[]]; [done|].
  destruct (IH d1 r1 H1) as (I1 & I2 & I3). by rewrite I3.
Qed.

Lemma execute_adds_dry_real env cfg c ord m to_add s1 s2 :
  (forall h ch us, invite_response env h ch us = None) ->
  stats s1 = stats s2 ->
  let d := execute_adds env (with_dry_run true cfg) c ord m to_add s1 in
  let r := execute_adds env (with_dry_run false cfg) c ord m to_add s2 in
  stats d.1 = stats r.1 /\ d.2 = r.2 /\ events (world d.1) = events (world s1).
Proof.
  intros Hok Hst. cbv zeta. unfold execute_adds. case_decide; [done|].
  unfold settings_dry_run. cbn [dry_run with_dry_run].
  unfold bind, ret, lift, update_stats.
  rewrite invite_users_dry, invite_users_all_succeed by done.
  simpl. by rewrite Hst.
Qed.

Lemma reconcile_dry_real env cfg c ord m (G S_h : gset string) s1 s2 :
  (forall h ch us, invite_response env h ch us = None) ->
  (forall h ch u, kick_response env h ch u = None) ->
  stats s1 = stats s2 ->
  let d := reconcile env (with_dry_run true cfg) c ord m G S_h s1 in
  let r := reconcile env (with_dry_run false cfg) c ord m G S_h s2 in
  stats d.1 = stats r.1 /\ d.2 = r.2 /\ events (world d.1) = events (world s1).
Proof.
  intros Hinv Hkick Hst. cbv zeta. unfold reconcile.
  change (ceiling (with_dry_run true cfg)) with (ceiling cfg).
  change (ceiling (with_dry_run false cfg)) with (ceiling cfg).
  case_bool_decide.
  - unfold_monad. simpl. by rewrite Hst.
  - unfold bind.
    destruct (execute_adds_dry_real env cfg c ord m
                (to_add_emails G (dom (member_map c ord S_h))) s1 s2 Hinv Hst)
      as (H1 & H2 & H3).
    destruct (execute_adds env (with_dry_run true cfg) c ord m _ s1) as [d1 rd].
    destruct (execute_adds env (with_dry_run false cfg) c ord m _ s2) as [r1 rr].
    simpl in H1, H2, H3. subst rr. destruct rd as [x|[]]; [done|].
    destruct (remove_loop_dry_real env cfg c m (member_map c ord S_h)
                (enum ord (candidate_remove_emails G (dom (member_map c ord S_h))))
                d1 r1 Hkick H1) as (I1 & I2 & I3).
    by rewrite I3.
Qed.

Lemma mapping_body_eq env cfg c ord m s :
  mapping_body env cfg c ord m s =
    match get_group_members env (google_group m) (world s) with
    | (w1, inl x) => ({| stats := stats s; world := w1 |}, inl x)
    | (w1, inr G) =>
        match get_channel_members env (slack_channel m) w1 with
        | (w2, inl x) => ({| stats := stats s; world := w2 |}, inl x)
        | (w2, inr S_h) =>
            reconcile env cfg c ord m G S_h {| stats := stats s; world := w2 |}
        end
    end.
Proof.
  unfold mapping_body, bind, lift.
  destruct (get_group_members env (google_group m) (world s)) as [w1 [x|G]]; [done|].
  cbn [world stats].
  by destruct (get_channel_members env (slack_channel m) w1) as [w2 [x|S_h]].
Qed.

Lemma mapping_body_dry_real env cfg c ord m s :
  (forall h ch us, invite_response env h ch us = None) ->
  (forall h ch u, kick_response env h ch u = None) ->
  let d := mapping_body env (with_dry_run true cfg) c ord m s in
  let r := mapping_body env (with_dry_run false cfg) c ord m s in
  stats d.1 = stats r.1 /\ d.2 = r.2 /\ events (world d.1) = events (world s).
Proof.
  intros Hinv Hkick. cbv zeta. rewrite !mapping_body_eq.
  pose proof (get_group_members_events env (google_group m) (world s)) as HG.
  destruct (get_group_members env (google_group m) (world s)) as [w1 [x|G]];
    simpl in HG; [done|].
  pose proof (get_channel_members_events env (slack_channel m) w1) as HS.
  destruct (get_channel_members env (slack_channel m) w1) as [w2 [x|S_h]];
    simpl in HS; [simpl; by rewrite HS|].
  destruct (reconcile_dry_real env cfg c ord m G S_h
              {| stats := stats s; world := w2 |} {| stats := stats s; world := w2 |}
              Hinv Hkick eq_refl) as (H1 & H2 & H3).
  split_and!; [done|done|]. rewrite H3. simpl. by rewrite HS.
Qed.

(** C5: with the same inputs, a dry run gives the same statistics (added,
    removed, skipped, and every other field) as the real run in which every
    invite and kick call succeeds, and it makes no call at all; [kick_user]
    in a dry run returns true and only writes a log record. *)
Theorem dry_run_same_counts env cfg c ord m w :
  (forall h ch us, invite_response env h ch us = None) ->
  (forall h ch u, kick_response env h ch u = None) ->
  let dry := process_mapping env (with_dry_run true cfg) c ord m w in
  let real := process_mapping env (with_dry_run false cfg) c ord m w in
  (added dry.1 = added real.1 /\
   removed dry.1 = removed real.1 /\
   skipped dry.1 = skipped real.1) /\
  dry.1 = real.1 /\
  events dry.2 = events w /\
  filter (fun ev => mutating ev = true) (new_events w dry.2) = [] /\
  forall env' ch u w',
    kick_user env' ch u true w' =
      ({| events := events w'; log := log w' ++ [log_would_kick u] |}, inr true).
Proof.
  intros Hinv Hkick dry real.
  assert (Hst : dry.1 = real.1 /\ events dry.2 = events w).
  { subst dry real. unfold process_mapping, try_except.
    destruct (mapping_body_dry_real env cfg c ord m (start_state m w) Hinv Hkick)
      as (H1 & H2 & H3).
    destruct (mapping_body env (with_dry_run true cfg) c ord m (start_state m w))
      as [d rd].
    destruct (mapping_body env (with_dry_run false cfg) c ord m (start_state m w))
      as [r rr].
    simpl in H1, H2, H3. subst rr. destruct rd as [x|[]]; simpl.
    - unfold mapping_failed. unfold_monad. simpl. by rewrite H1, H3.
    - by rewrite H1, H3. }
  destruct Hst as [Hst Hev]. split_and!; try by rewrite Hst.
  - done.
  - unfold new_events. by rewrite Hev, drop_all.
  - intros. apply kick_user_dry.
Qed.

Lemma dry_run_same_counts_witness :
  let env := obliging {["a@x.com"; "b@x.com"]} {["UB"; "UC"]} in
  let dry := process_mapping env (with_dry_run true (settings_of false 50)) abc_client
               elements_order eng empty_world in
  let real := process_mapping env (with_dry_run false (settings_of false 50)) abc_client
                elements_order eng empty_world in
  (added real.1 = 1 /\ removed real.1 = 1 /\ skipped real.1 = 0 /\
   length (events real.2) = 2) /\
  dry.1 = real.1 /\ events dry.2 = [].
Proof.
  split; [vm_compute; auto|].
  destruct (dry_run_same_counts (obliging {["a@x.com"; "b@x.com"]} {["UB"; "UC"]})
              (settings_of false 50) abc_client elements_order eng empty_world)
    as (_ & H & He & _).
  - intros h ch us. reflexivity.
  - intros h ch u. reflexivity.
  - split; [exact H|exact He].
Defined.

(** ** The report *)

Lemma string_app_assoc (s1 s2 s3 : string) : (s1 ++ s2) ++ s3 = s1 ++ (s2 ++ s3).
Proof.
  induction s1 as [|a s1 IH]; [done|].
  change (String a ((s1 ++ s2) ++ s3) = String a (s1 ++ (s2 ++ s3))). by rewrite IH.
Qed.

Lemma string_app_nil_r (s : string) : s ++ "" = s.
Proof.
  induction s as [|a s IH]; [done|].
  change (String a (s ++ "") = String a s). by rewrite IH.
Qed.

Lemma has_char_app (a : Ascii.ascii) (s1 s2 : string) :
  has_char a (s1 ++ s2) = has_char a s1 || has_char a s2.
Proof.
  induction s1 as [|b s1 IH]; [done|].
  change (bool_decide (a = b) || has_char a (s1 ++ s2) =
          bool_decide (a = b) || has_char a s1 || has_char a s2).
  rewrite IH. by rewrite orb_assoc.
Qed.

(** C9, with the separator the code uses: the report is a no-op when the
    notify channel is unset (absent or empty) or the run is a dry run;
    otherwise one message is posted whose blocks are a header followed by
    one section per mapping, holding the name, a status icon, the three
    counts and, when the lists are not empty, the number of missing accounts
    and the errors joined by a comma and a space.  A failure of the post is
    logged and [post_report] never raises. *)
Theorem post_report_behaviour env (channel_id : option string)
    (stats_list : list SyncStats) (dry : option bool) (w : World) :
  let r := post_report env channel_id stats_list dry w in
  r.2 = inr tt /\
  (truthy_string channel_id = false \/ truthy_bool dry = true -> r.1 = w) /\
  (forall target, channel_id = Some target -> target <> "" -> truthy_bool dry = false ->
     let blocks := report_blocks stats_list in
     let answer := post_response env (events w) target blocks in
     events r.1 = (events w ++ [{| ev_call := chat_postMessage target blocks;
                                   ev_raised := answer |}])%list /\
     log r.1 = (log w ++ match answer with
                         | Some e => [log_post_failed e]
                         | None => []
                         end)%list) /\
  length (report_blocks stats_list) = S (length stats_list) /\
  (forall i st, stats_list !! i = Some st ->
     report_blocks stats_list !! S i = Some (section_block st)) /\
  (forall st,
     text (section_block st) =
       "*" ++ mapping_name st ++ "*" ++ nl ++
       (if decide (status st = Success) then success_icon else warning_icon) ++
       " Added: " ++ pretty (added st) ++
       " | Removed: " ++ pretty (removed st) ++
       " | Skipped: " ++ pretty (skipped st) ++
       (if decide (missing_accounts st = []) then ""
        else nl ++ missing_icon ++ " Missing Slack Accts: " ++
             pretty (length (missing_accounts st))) ++
       (if decide (errors st = []) then ""
        else nl ++ errors_icon ++ " Errors: " ++ String.concat ", " (errors st))).
Proof.
  intros r. subst r. unfold post_report.
  split; [|split; [|split; [|split; [|split]]]].
  - destruct (negb (truthy_string channel_id) || truthy_bool dry); [done|].
    unfold try_except, perform, logger.
    by destruct (post_response env (events w) _ _).
  - intros H.
    assert (negb (truthy_string channel_id) || truthy_bool dry = true) as ->; [|done].
    destruct H as [-> | ->]; [done|apply orb_true_r].
  - intros target -> Hne Hdry. cbv zeta.
    unfold truthy_string. rewrite (bool_decide_eq_false_2 _ Hne), Hdry.
    simpl. unfold try_except, perform, logger. simpl.
    destruct (post_response env (events w) target (report_blocks stats_list));
      simpl; rewrite ?app_nil_r; split; reflexivity.
  - unfold report_blocks. simpl. by rewrite length_fmap.
  - intros i st Hi. unfold report_blocks. simpl. by rewrite list_lookup_fmap, Hi.
  - intros st. unfold section_block, summary_text. cbn [text].
    destruct (missing_accounts st) as [|a l], (errors st) as [|b k];
      rewrite ?decide_True by done; rewrite ?decide_False by done;
      rewrite ?string_app_assoc, ?string_app_nil_r; try done.
    all: repeat (f_equal; rewrite ?string_app_assoc, ?string_app_nil_r; try done).
Qed.

(** C9 as stated fails: the error list of the summary is not joined by
    semicolons (with or without a following space); the text of a summary
    with two errors, neither of which has a semicolon, has none at all.  The
    separator is a comma followed by a space. *)
Lemma report_errors_not_semicolon_joined :
  ~ errors_joined_with ";" two_errors /\
  ~ errors_joined_with "; " two_errors /\
  errors_joined_with ", " two_errors.
Proof.
  split_and!.
  - intros (before & after & H).
    apply (f_equal (has_char (Ascii.ascii_of_nat 59))) in H.
    rewrite !has_char_app in H.
    assert (has_char (Ascii.ascii_of_nat 59) (summary_text two_errors) = false) as Hl
      by (vm_compute; reflexivity).
    assert (has_char (Ascii.ascii_of_nat 59)
              (String.concat ";" (errors two_errors)) = true) as Hr
      by (vm_compute; reflexivity).
    rewrite Hl, Hr, orb_true_l, orb_true_r in H. discriminate.
  - intros (before & after & H).
    apply (f_equal (has_char (Ascii.ascii_of_nat 59))) in H.
    rewrite !has_char_app in H.
    assert (has_char (Ascii.ascii_of_nat 59) (summary_text two_errors) = false) as Hl
      by (vm_compute; reflexivity).
    assert (has_char (Ascii.ascii_of_nat 59)
              (String.concat "; " (errors two_errors)) = true) as Hr
      by (vm_compute; reflexivity).
    rewrite Hl, Hr, orb_true_l, orb_true_r in H. discriminate.
  - exists ("*eng*" ++ nl ++ warning_icon ++
            " Added: 0 | Removed: 1 | Skipped: 0" ++ nl ++ errors_icon ++ " Errors: "), "".
    vm_compute. reflexivity.
Qed.

(** ** A second run *)

(** The emails of [slack_member_map] are the resolvable emails of the channel
    members, and each is mapped to a member with that email. *)
Lemma build_member_map_lookup c (l : list string) (m0 : gmap string string)
    (e u : string) :
  build_member_map c l m0 !! e = Some u ->
  m0 !! e = Some u \/ (u ∈ l /\ email_of c u = Some e).
Proof.
  revert m0. induction l as [|v l IH]; intros m0; simpl; [auto|].
  unfold email_of in *.
  destruct (id_map c !! v) as [d|] eqn:Hd.
  - case_decide as Hemp.
    + intros H. apply IH in H as [?|[? ?]]; [auto|]. right. split; [by right|done].
    + intros H. apply IH in H as [H|[? ?]]; [|right; split; [by right|done]].
      destruct (decide (user_email d = e)) as [<-|Hne].
      * rewrite lookup_insert_eq in H. injection H as <-. right.
        split; [by left|]. rewrite Hd. by rewrite decide_False.
      * rewrite lookup_insert_ne in H by done. auto.
  - intros H. apply IH in H as [?|[? ?]]; [auto|]. right. split; [by right|done].
Qed.

Lemma build_member_map_dom c (l : list string) (m0 : gmap string string) (e : string) :
  e ∈ dom (build_member_map c l m0) <->
  e ∈ dom m0 \/ exists u, u ∈ l /\ email_of c u = Some e.
Proof.
  revert m0. induction l as [|v l IH]; intros m0; simpl.
  - split; [auto|]. intros [?|(u & Hu & _)]; [done|]. by apply elem_of_nil in Hu.
  - assert (Hskip : email_of c v = None ->
        (e ∈ dom m0 \/ (exists u, u ∈ l /\ email_of c u = Some e)) <->
        (e ∈ dom m0 \/ (exists u, u ∈ v :: l /\ email_of c u = Some e))).
    { intros Hv. split; (intros [?|(u & Hu & He)]; [auto|right]).
      - exists u. split; [by right|done].
      - apply elem_of_cons in Hu as [->|Hu]; [congruence|eauto]. }
    destruct (id_map c !! v) as [d|] eqn:Hd;
      [|rewrite IH; apply Hskip; unfold email_of; by rewrite Hd].
    case_decide as Hemp;
      [rewrite IH; apply Hskip; unfold email_of; rewrite Hd; by rewrite decide_True|].
    rewrite IH, dom_insert, elem_of_union, elem_of_singleton. split.
    + intros [[->|?]|(u & Hu & He)]; [right|auto|right].
      * exists v. split; [by left|]. unfold email_of. rewrite Hd.
        by rewrite decide_False.
      * exists u. split; [by right|done].
    + intros [?|(u & Hu & He)]; [auto|].
      apply elem_of_cons in Hu as [->|Hu]; [|eauto].
      left. left. unfold email_of in He. rewrite Hd in He.
      rewrite decide_False in He by done. congruence.
Qed.

Lemma member_map_dom c ord (X : gset string) (e : string) :
  e ∈ dom (member_map c ord X) <-> exists u, u ∈ X /\ email_of c u = Some e.
Proof.
  unfold member_map. rewrite build_member_map_dom, dom_empty, elem_of_empty.
  split.
  - intros [[]|(u & Hu & He)]. exists u. by rewrite elem_of_enum in Hu.
  - intros (u & Hu & He). right. exists u. by rewrite elem_of_enum.
Qed.

Lemma member_map_lookup c ord (X : gset string) (e u : string) :
  member_map c ord X !! e = Some u -> u ∈ X /\ email_of c u = Some e.
Proof.
  unfold member_map. intros H.
  apply build_member_map_lookup in H as [H|[Hu He]]; [by rewrite lookup_empty in H|].
  by rewrite elem_of_enum in Hu.
Qed.

Lemma channel_after_app ch (X : gset string) (evs1 evs2 : list Event) :
  channel_after ch X (evs1 ++ evs2) = channel_after ch (channel_after ch X evs1) evs2.
Proof. apply foldl_app. Qed.

Lemma channel_after_invites ch (X : gset string) (cs : list (list string)) :
  channel_after ch X (invite_ok ch <$> cs) = X ∪ list_to_set (concat cs).
Proof.
  revert X. induction cs as [|chunk cs IH]; intros X; simpl.
  - set_solver.
  - unfold channel_after in *. simpl. rewrite IH.
    unfold apply_event. simpl. rewrite decide_True by done.
    rewrite list_to_set_app_L. set_solver.
Qed.

Lemma channel_after_kicks ch (X : gset string) (us : list string) :
  channel_after ch X (kick_ok ch <$> us) = X ∖ list_to_set us.
Proof.
  revert X. induction us as [|u us IH]; intros X; simpl.
  - set_solver.
  - unfold channel_after in *. simpl. rewrite IH.
    unfold apply_event. simpl. rewrite decide_True by done. set_solver.
Qed.

Lemma enum_empty (ord : SetOrder) : enum ord ∅ = [].
Proof.
  apply Permutation_nil_r. rewrite (enum_perm ord ∅). by rewrite elements_empty.
Qed.

(** The calls of the invitations when every invite succeeds. *)
Lemma execute_adds_all_succeed env cfg c ord m (to_add : gset string) s :
  dry_run cfg = Some false ->
  (forall h ch us, invite_response env h ch us = None) ->
  exists s',
    execute_adds env cfg c ord m to_add s = (s', inr tt) /\
    events (world s') =
      (events (world s) ++
       (invite_ok (slack_channel m) <$> chunks (resolved c (enum ord to_add))))%list.
Proof.
  intros Hdry Hok. unfold execute_adds. case_decide as Hempty.
  - subst to_add. rewrite enum_empty. exists s. split; [done|].
    change (chunks (resolved c [])) with (@nil (list string)). simpl.
    by rewrite app_nil_r.
  - unfold settings_dry_run. rewrite Hdry. unfold bind, ret, lift, update_stats.
    rewrite invite_users_all_succeed by done. simpl. eauto.
Qed.

(** The calls of the removal loop when every kick succeeds and no candidate
    is kept by a filter. *)
Lemma remove_loop_all_kicked env cfg c m smm (emails : list string) s :
  dry_run cfg = Some false ->
  (forall h ch u, kick_response env h ch u = None) ->
  Forall (fun e => is_Some (smm !! e) /\ filtered c m smm e = false) emails ->
  exists s',
    remove_loop env cfg c m smm emails s = (s', inr tt) /\
    events (world s') =
      (events (world s) ++ (kick_ok (slack_channel m) <$> omap (fun e => smm !! e) emails))%list.
Proof.
  intros Hdry Hok. revert s. induction emails as [|e emails IH]; intros s Hall.
  - exists s. split; [done|]. simpl. by rewrite app_nil_r.
  - apply Forall_cons in Hall as [[[u Hu] Hfree] Hall].
    cbn [remove_loop]. unfold bind. rewrite remove_one_eq.
    unfold filtered in Hfree. rewrite Hu in *.
    apply orb_false_iff in Hfree as [Hfree Hbot].
    apply orb_false_iff in Hfree as [Hprot Hadm].
    rewrite Hprot, Hadm, Hbot, Hdry, kick_user_real. cbv zeta. rewrite Hok.
    destruct (IH {| stats := incr_removed (stats s);
                    world := {| events := events (world s) ++
                                           [kick_ok (slack_channel m) u];
                                log := log (world s) ++ [log_kicked u] |} |} Hall)
      as (s' & Hloop & Hev).
    exists s'. split; [exact Hloop|]. rewrite Hev. simpl.
    rewrite Hu. simpl. by rewrite <- app_assoc.
Qed.

(** The members of the channel after a real run in which every computed
    change is carried out. *)
Lemma first_run_events env cfg c ord m w (G S_h : gset string) :
  group_members env (events w) (google_group m) = inr G ->
  channel_members env (events w) (slack_channel m) = inr S_h ->
  dry_run cfg = Some false ->
  (Z.of_nat (total_changes G (dom (member_map c ord S_h))) <= ceiling cfg)%Z ->
  (forall h ch us, invite_response env h ch us = None) ->
  (forall h ch u, kick_response env h ch u = None) ->
  set_Forall (fun e => filtered c m (member_map c ord S_h) e = false)
    (candidate_remove_emails G (dom (member_map c ord S_h))) ->
  new_events w (process_mapping env cfg c ord m w).2 =
    ((invite_ok (slack_channel m) <$>
        chunks (resolved c (enum ord (to_add_emails G (dom (member_map c ord S_h)))))) ++
     (kick_ok (slack_channel m) <$>
        omap (fun e => member_map c ord S_h !! e)
          (enum ord (candidate_remove_emails G (dom (member_map c ord S_h))))))%list.
Proof.
  intros HG HS Hdry Hlim Hinv Hkick Hfree.
  apply new_events_app. unfold process_mapping, try_except.
  rewrite (mapping_body_fetched _ _ _ _ _ _ G S_h) by done.
  rewrite reconcile_below_ceiling by done. unfold bind.
  destruct (execute_adds_all_succeed env cfg c ord m
              (to_add_emails G (dom (member_map c ord S_h))) (start_state m w) Hdry Hinv)
    as (s1 & -> & Hev1).
  destruct (remove_loop_all_kicked env cfg c m (member_map c ord S_h)
              (enum ord (candidate_remove_emails G (dom (member_map c ord S_h)))) s1
              Hdry Hkick) as (s2 & -> & Hev2).
  - apply Forall_forall. intros e He. apply elem_of_enum in He. split.
    + apply elem_of_dom. unfold candidate_remove_emails in He. set_solver.
    + by apply Hfree.
  - simpl. rewrite Hev2, Hev1. simpl. by rewrite <- app_assoc.
Qed.

(** C6, for the runs in which it holds: after a real run below the ceiling
    in which every invite and every kick succeeds, every email to add has a
    cached account whose id leads back to that email, no removal candidate
    is kept by a safety filter, and different channel members have
    different emails, a second run that finds the channel as the first run's
    calls left it computes an empty add-set and an empty remove-set. *)
Theorem second_run_finds_nothing env cfg c ord ord2 m w (G S_h : gset string) :
  group_members env (events w) (google_group m) = inr G ->
  channel_members env (events w) (slack_channel m) = inr S_h ->
  dry_run cfg = Some false ->
  (Z.of_nat (total_changes G (dom (member_map c ord S_h))) <= ceiling cfg)%Z ->
  (forall h ch us, invite_response env h ch us = None) ->
  (forall h ch u, kick_response env h ch u = None) ->
  set_Forall (fun e => round_trip c e = Some e)
    (to_add_emails G (dom (member_map c ord S_h))) ->
  set_Forall (fun e => filtered c m (member_map c ord S_h) e = false)
    (candidate_remove_emails G (dom (member_map c ord S_h))) ->
  distinct_emails c S_h ->
  second_run_clean env cfg c ord ord2 m w G S_h.
Proof.
  intros HG HS Hdry Hlim Hinv Hkick Hround Hfree Hdist.
  unfold second_run_clean. cbv zeta.
  rewrite (first_run_events env cfg c ord m w G S_h) by done.
  rewrite channel_after_app, channel_after_invites, channel_after_kicks, concat_chunks.
  set (smm := member_map c ord S_h) in *.
  set (to_add := to_add_emails G (dom smm)) in *.
  set (cand := candidate_remove_emails G (dom smm)) in *.
  set (K := omap (fun e => smm !! e) (enum ord cand)).
  set (I := resolved c (enum ord to_add)).
  assert (HK : forall u, u ∈ K -> exists e, e ∈ cand /\ u ∈ S_h /\ email_of c u = Some e).
  { intros u Hu. apply list_elem_of_omap in Hu as (e & He & Hlk).
    apply elem_of_enum in He. apply member_map_lookup in Hlk as [? ?]. eauto. }
  assert (HI : forall u, u ∈ I -> exists e, e ∈ to_add /\ email_of c u = Some e).
  { intros u Hu. apply elem_of_resolved in Hu as (e & d & He & Hd & <-).
    apply elem_of_enum in He. exists e. split; [done|].
    specialize (Hround e He). unfold round_trip in Hround. by rewrite Hd in Hround. }
  assert (Hdom : forall e, e ∈ dom (member_map c ord2
                              ((S_h ∪ list_to_set I) ∖ list_to_set K)) <-> e ∈ G).
  { intros e. rewrite member_map_dom. split.
    - intros (u & Hu & He).
      apply elem_of_difference in Hu as [Hu HnK].
      rewrite elem_of_list_to_set in HnK.
      apply elem_of_union in Hu as [Hu|Hu].
      + destruct (decide (e ∈ G)) as [|HnG]; [done|]. exfalso. apply HnK.
        assert (Hdm : e ∈ dom smm) by (apply member_map_dom; eauto).
        assert (Hc : e ∈ cand) by (unfold cand, candidate_remove_emails; set_solver).
        apply elem_of_dom in Hdm as [u' Hu'].
        pose proof (member_map_lookup _ _ _ _ _ Hu') as [Hin' He'].
        assert (u = u') as <-.
        { apply (Hdist u Hu u' Hin'); [by rewrite He|congruence]. }
        apply list_elem_of_omap. exists e. split; [by apply elem_of_enum|done].
      + rewrite elem_of_list_to_set in Hu. apply HI in Hu as (e' & He' & Hem).
        assert (e' = e) as <- by congruence.
        unfold to_add, to_add_emails in He'. set_solver.
    - intros HeG. destruct (decide (e ∈ dom smm)) as [Hdm|Hndm].
      + apply member_map_dom in Hdm as (u & Hu & He). exists u. split; [|done].
        apply elem_of_difference. split; [set_solver|].
        rewrite elem_of_list_to_set. intros HuK.
        apply HK in HuK as (e' & He' & _ & Hem).
        assert (e' = e) as -> by congruence.
        unfold cand, candidate_remove_emails in He'. set_solver.
      + assert (Hta : e ∈ to_add) by (unfold to_add, to_add_emails; set_solver).
        pose proof (Hround e Hta) as Hrt. unfold round_trip in Hrt.
        destruct (user_cache c !! e) as [d|] eqn:Hd; [|done].
        exists (user_id d). split; [|done].
        apply elem_of_difference. split.
        * apply elem_of_union. right. rewrite elem_of_list_to_set.
          apply elem_of_resolved. exists e, d. by rewrite elem_of_enum.
        * rewrite elem_of_list_to_set. intros HuK.
          apply HK in HuK as (e' & He' & _ & Hem).
          assert (e' = e) as -> by congruence.
          unfold cand, candidate_remove_emails in He'. set_solver. }
  unfold to_add_emails, candidate_remove_emails. split; apply set_eq; intros e.
  - rewrite elem_of_difference, Hdom. set_solver.
  - rewrite elem_of_difference, Hdom. set_solver.
Qed.

Lemma second_run_finds_nothing_witness :
  second_run_clean (obliging {["a@x.com"; "b@x.com"]} {["UB"; "UC"]})
    (settings_of false 50) abc_client elements_order elements_order eng empty_world
    {["a@x.com"; "b@x.com"]} {["UB"; "UC"]}.
Proof.
  apply second_run_finds_nothing.
  - reflexivity.
  - reflexivity.
  - reflexivity.
  - vm_compute. discriminate.
  - intros h ch us. reflexivity.
  - intros h ch u. reflexivity.
  - apply (bool_decide_unpack _). vm_compute. exact I.
  - apply (bool_decide_unpack _). vm_compute. exact I.
  - apply (bool_decide_unpack _). vm_compute. exact I.
Defined.

(** C6 as stated fails, by design of the run: an email without a Slack
    account is reported as missing and stays in the add-set of the next run,
    and a protected member is skipped and stays in its remove-set. *)
Lemma second_run_still_has_work :
  ~ second_run_clean (obliging {["z@x.com"]} ∅) (settings_of false 50) abc_client
      elements_order elements_order eng empty_world {["z@x.com"]} ∅ /\
  ~ second_run_clean (obliging ∅ {["UC"]}) (settings_of false 50) abc_client
      elements_order elements_order (eng_protecting ["UC"]) empty_world ∅ {["UC"]}.
Proof.
  split.
  - intros [H _]. apply (f_equal size) in H. vm_compute in H. discriminate.
  - intros [_ H]. apply (f_equal size) in H. vm_compute in H. discriminate.
Qed.

(** ** The example of the specification *)

(** [G = {a, b}], [S = {b, c}], no protection, ceiling 50, real run: one
    invite for the handle of [a], one kick for the handle of [c], and the
    statistics added=1, removed=1, skipped=0. *)
Example example_scenario :
  let r := process_mapping (obliging {["a@x.com"; "b@x.com"]} {["UB"; "UC"]})
             (settings_of false 50) abc_client elements_order eng empty_world in
  events r.2 = [invite_ok "C1" ["UA"]; kick_ok "C1" "UC"] /\
  added r.1 = 1 /\ removed r.1 = 1 /\ skipped r.1 = 0 /\ status r.1 = Success.
Proof. vm_compute. auto 6. Qed.

(** A report whose delivery fails is logged and the run goes on. *)
Example report_failure_logged :
  let r := run_sync report_down (settings_of false 50) [] abc_client elements_order
             empty_world in
  log r.2 = [log_starting (Some false); log_post_failed (Exception "timed out");
             log_complete].
Proof. vm_compute. reflexivity. Qed.

(** * Further properties *)

(** ** Computations whose calls satisfy a predicate *)

Lemma emits_ret {S A} `{HasEvents S} (P : Event -> Prop) (a : A) : emits P (ret a).
Proof. intros s. exists []. by rewrite app_nil_r. Qed.

Lemma emits_raise {S A} `{HasEvents S} (P : Event -> Prop) (e : Exn) :
  emits P (@raise S A e).
Proof. intros s. exists []. by rewrite app_nil_r. Qed.

Lemma emits_bind {S A B} `{HasEvents S} (P : Event -> Prop)
    (c : M S A) (k : A -> M S B) :
  emits P c -> (forall a, emits P (k a)) -> emits P (bind c k).
Proof.
  intros Hc Hk s. unfold bind. destruct (Hc s) as (evs & E & HP).
  destruct (c s) as [s' [e|a]]; simpl in *; [eauto|].
  destruct (Hk a s') as (evs' & E' & HP').
  exists (evs ++ evs')%list. rewrite E', E, <- app_assoc. split; [done|].
  by apply Forall_app.
Qed.

Lemma emits_try_except {S A} `{HasEvents S} (P : Event -> Prop)
    (c : M S A) (h : Exn -> option (M S A)) :
  emits P c -> (forall e k, h e = Some k -> emits P k) -> emits P (try_except c h).
Proof.
  intros Hc Hh s. unfold try_except. destruct (Hc s) as (evs & E & HP).
  destruct (c s) as [s' [e|a]]; simpl in *; [|eauto].
  destruct (h e) as [k|] eqn:Hk; [|simpl; eauto].
  destruct (Hh e k Hk s') as (evs' & E' & HP').
  exists (evs ++ evs')%list. rewrite E', E, <- app_assoc. split; [done|].
  by apply Forall_app.
Qed.

Lemma emits_impl {S A} `{HasEvents S} (P Q : Event -> Prop) (c : M S A) :
  (forall ev, P ev -> Q ev) -> emits P c -> emits Q c.
Proof.
  intros HPQ Hc s. destruct (Hc s) as (evs & E & HP). exists evs.
  split; [done|]. eapply Forall_impl; [exact HP|done].
Qed.

Lemma emits_logger (P : Event -> Prop) (r : LogRecord) : emits P (logger r).
Proof. intros w. exists []. simpl. by rewrite app_nil_r. Qed.

Lemma emits_perform (P : Event -> Prop) (c : Call) (answer : list Event -> option Exn) :
  (forall r, P {| ev_call := c; ev_raised := r |}) -> emits P (perform c answer).
Proof. intros HP w. eexists. split; [reflexivity|]. by constructor. Qed.

Lemma emits_lift {A} (P : Event -> Prop) (c : M World A) : emits P c -> emits P (lift c).
Proof.
  intros Hc s. unfold lift. destruct (Hc (world s)) as (evs & E & HP).
  destruct (c (world s)) as [w r]. by exists evs.
Qed.

Lemma emits_update_stats (P : Event -> Prop) (f : SyncStats -> SyncStats) :
  emits P (update_stats f).
Proof. intros s. exists []. simpl. by rewrite app_nil_r. Qed.

(** Nothing is emitted exactly when the history is left as it was. *)
Lemma emits_nothing {S A} `{HasEvents S} (c : M S A) (s : S) :
  emits (fun _ => False) c -> events_of (c s).1 = events_of s.
Proof.
  intros Hc. destruct (Hc s) as (evs & E & HP).
  destruct evs as [|ev evs]; [by rewrite app_nil_r in E|].
  by apply Forall_cons in HP as [[] _].
Qed.

Lemma emits_new_events (P : Event -> Prop) (w w' : World) (evs : list Event) :
  events w' = (events w ++ evs)%list -> Forall P evs -> Forall P (new_events w w').
Proof. intros E HP. by rewrite (new_events_app w w' evs E). Qed.

(** ** The calls of the clients *)

Lemma emits_get_group_members (P : Event -> Prop) env g :
  emits P (get_group_members env g).
Proof.
  intros w. exists []. rewrite app_nil_r. split; [|done].
  apply get_group_members_events.
Qed.

Lemma emits_get_channel_members (P : Event -> Prop) env ch :
  emits P (get_channel_members env ch).
Proof.
  intros w. exists []. rewrite app_nil_r. split; [|done].
  apply get_channel_members_events.
Qed.

Lemma emits_kick_user (P : Event -> Prop) env ch u (dry : bool) :
  (dry = false -> forall r, P {| ev_call := conversations_kick ch u; ev_raised := r |}) ->
  emits P (kick_user env ch u dry).
Proof.
  intros HP. unfold kick_user. destruct dry.
  - apply emits_bind; [apply emits_logger|intros; apply emits_ret].
  - apply emits_try_except.
    + apply emits_bind; [apply emits_perform; auto|intros].
      apply emits_bind; [apply emits_logger|intros; apply emits_ret].
    + intros [err t|t] k [= <-].
      apply emits_bind; [apply emits_logger|intros; apply emits_ret].
Qed.

(** The size of a chunk is between one and [chunk_size]. *)
Lemma chunk_bounds (l us : list string) :
  us ∈ chunks l -> 1 <= length us <= chunk_size.
Proof.
  unfold chunks, range. intros H.
  apply list_elem_of_fmap in H as (i & -> & Hi).
  apply list_elem_of_fmap in Hi as (k & -> & Hk).
  apply elem_of_seq in Hk as [_ Hk].
  unfold slice, chunk_size in *.
  rewrite length_take, length_drop.
  pose proof (Nat.div_mod_eq (length l + 30 - 1) 30) as Hd.
  pose proof (Nat.mod_upper_bound (length l + 30 - 1) 30 ltac:(lia)) as Hm.
  set (q := (length l + 30 - 1) / 30) in *.
  set (r := (length l + 30 - 1) mod 30) in *. lia.
Qed.

Lemma length_chunks (l : list string) :
  length (chunks l) = (length l + chunk_size - 1) / chunk_size.
Proof. unfold chunks, range. by rewrite !length_fmap, length_seq. Qed.

(** Whatever the answers are, [invite_users] only issues invites to the given
    channel, of chunks of the ids found in the cache. *)
Lemma invite_users_calls env c ch (emails : list string) (dry : bool) (w : World) :
  exists evs,
    events (invite_users env c ch emails dry w).1 = (events w ++ evs)%list /\
    (dry = true -> evs = []) /\
    Forall (fun ev => exists us, us ∈ chunks (resolved c emails) /\
                        ev_call ev = conversations_invite ch us) evs.
Proof.
  destruct dry.
  - rewrite invite_users_dry. exists []. simpl. by rewrite app_nil_r.
  - destruct (invite_users env c ch emails false w) as [w' r] eqn:E.
    apply invite_users_real in E as (evs & E1 & _ & E3 & _).
    exists evs. split_and!; [done|done|].
    eapply Forall_impl; [exact E3|]. intros ev (h & us & ? & ? & _). eauto.
Qed.

(** ** The calls of a mapping *)

Lemma remove_one_calls env cfg c m smm (cands : gset string) (e : string) :
  e ∈ cands ->
  emits (fun ev => dry_run cfg = Some false /\ kick_of c m smm cands ev)
        (remove_one env cfg c m smm e).
Proof.
  intros He s. rewrite remove_one_eq.
  assert (Hnone : forall r : Exn + (), exists evs,
            events_of (s, r).1 = (events_of s ++ evs)%list /\
            Forall (fun ev => dry_run cfg = Some false /\ kick_of c m smm cands ev) evs).
  { intros r. exists []. by rewrite app_nil_r. }
  assert (Hskip : forall l, exists evs,
            events_of (skip_state l s, @inr Exn () ()).1 = (events_of s ++ evs)%list /\
            Forall (fun ev => dry_run cfg = Some false /\ kick_of c m smm cands ev) evs).
  { intros r. exists []. by rewrite app_nil_r. }
  destruct (smm !! e) as [u|] eqn:Hu; [|apply Hnone].
  destruct (bool_decide (u ∈ protected_ids m)) eqn:Hprot; [apply Hskip|].
  destruct (flag is_admin _ || flag is_owner _) eqn:Hadm; [apply Hskip|].
  destruct (flag is_bot _ || flag is_app_user _) eqn:Hbot; [apply Hskip|].
  destruct (dry_run cfg) as [[|]|] eqn:Hdry; [| |apply Hnone].
  - rewrite kick_user_dry. exists []. by rewrite app_nil_r.
  - rewrite kick_user_real. cbv zeta.
    set (ev := {| ev_call := conversations_kick (slack_channel m) u;
                  ev_raised := kick_response env (events (world s)) (slack_channel m) u |}).
    assert (HP : dry_run cfg = Some false /\ kick_of c m smm cands ev).
    { split; [done|]. exists e, u. split_and!; try done.
      unfold filtered. by rewrite Hu, Hprot, Hadm, Hbot. }
    exists [ev].
    destruct (kick_response env (events (world s)) (slack_channel m) u) as [[err t|t]|];
      (split; [reflexivity|constructor; [split; [done|apply HP]|constructor]]).
Qed.

Lemma remove_loop_calls env cfg c m smm (cands : gset string) (emails : list string) :
  Forall (fun e => e ∈ cands) emails ->
  emits (fun ev => dry_run cfg = Some false /\ kick_of c m smm cands ev)
        (remove_loop env cfg c m smm emails).
Proof.
  induction 1 as [|e emails He _ IH]; simpl; [apply emits_ret|].
  apply emits_bind; [by apply remove_one_calls|intros; apply IH].
Qed.

Lemma execute_adds_calls env cfg c ord m (to_add : gset string) :
  emits (fun ev => dry_run cfg = Some false /\ invite_of c m to_add ev)
        (execute_adds env cfg c ord m to_add).
Proof.
  intros s. unfold execute_adds. case_decide; [apply emits_ret|].
  unfold settings_dry_run. destruct (dry_run cfg) as [dry|] eqn:Hdry; [|apply emits_raise].
  unfold bind at 1. unfold ret at 1. cbv beta iota.
  apply emits_bind; [|intros; apply emits_bind; intros; apply emits_update_stats].
  apply emits_lift. intros w.
  destruct (invite_users_calls env c (slack_channel m) (enum ord to_add) dry w)
    as (evs & E & Edry & Hall).
  exists evs. split; [exact E|]. destruct dry; [by rewrite Edry|].
  eapply Forall_impl; [exact Hall|]. intros ev (us & Hus & Hcall).
  split; [done|]. exists us. split; [done|]. intros u Hu.
  pose proof (elem_of_chunk _ _ _ Hus Hu) as Hres.
  apply elem_of_resolved in Hres as (e & d & He & ? & ?).
  apply elem_of_enum in He. eauto.
Qed.

Lemma reconcile_calls env cfg c ord m (G S_h : gset string) :
  emits (mapping_call cfg c ord m G S_h) (reconcile env cfg c ord m G S_h).
Proof.
  unfold reconcile. case_bool_decide.
  - apply emits_bind; [apply emits_lift, emits_logger|intros].
    apply emits_bind; intros; apply emits_update_stats.
  - apply emits_bind; [|intros].
    + eapply emits_impl; [|apply execute_adds_calls]. intros ev [? ?]. split; auto.
    + eapply emits_impl; [|apply remove_loop_calls].
      * intros ev [? ?]. split; [done|]. right. eassumption.
      * apply Forall_forall. intros e He. by apply elem_of_enum in He.
Qed.

Lemma mapping_failed_calls (P : Event -> Prop) (e : Exn) : emits P (mapping_failed e).
Proof.
  unfold mapping_failed. apply emits_bind; [apply emits_lift, emits_logger|intros].
  apply emits_bind; intros; apply emits_update_stats.
Qed.

Lemma get_group_members_inr env g w w1 (G : gset string) :
  get_group_members env g w = (w1, inr G) ->
  group_members env (events w) g = inr G /\ w1 = w.
Proof.
  unfold get_group_members, try_except, listing.
  destruct (group_members env (events w) g) as [x|G']; simpl; [done|].
  by intros [= <- <-].
Qed.

Lemma get_channel_members_inr env ch w w1 (S_h : gset string) :
  get_channel_members env ch w = (w1, inr S_h) ->
  channel_members env (events w) ch = inr S_h /\ w1 = w.
Proof.
  unfold get_channel_members, try_except, listing.
  destruct (channel_members env (events w) ch) as [[err t|t]|S']; simpl; [done|done|].
  by intros [= <- <-].
Qed.

(** The calls of one mapping, whatever the services answer: none unless both
    listings succeed, and then only calls of the mapping. *)
Lemma process_mapping_calls env cfg c ord m w :
  exists evs,
    events (process_mapping env cfg c ord m w).2 = (events w ++ evs)%list /\
    (evs = [] \/
     exists G S_h,
       group_members env (events w) (google_group m) = inr G /\
       channel_members env (events w) (slack_channel m) = inr S_h /\
       Forall (mapping_call cfg c ord m G S_h) evs).
Proof.
  unfold process_mapping, try_except. rewrite mapping_body_eq.
  pose proof (get_group_members_events env (google_group m) (world (start_state m w)))
    as HG.
  destruct (get_group_members env (google_group m) (world (start_state m w)))
    as [w1 [x|G]] eqn:EG; simpl in HG.
  { exists []. rewrite app_nil_r. split; [exact HG|by left]. }
  apply get_group_members_inr in EG as [EG ->].
  pose proof (get_channel_members_events env (slack_channel m) (world (start_state m w)))
    as HS.
  destruct (get_channel_members env (slack_channel m) (world (start_state m w)))
    as [w2 [x|S_h]] eqn:ES; simpl in HS.
  { exists []. rewrite app_nil_r. split; [exact HS|by left]. }
  apply get_channel_members_inr in ES as [ES ->].
  set (s0 := {| stats := stats (start_state m w); world := world (start_state m w) |}).
  destruct (reconcile_calls env cfg c ord m G S_h s0) as (evs & E & HP).
  change (events_of s0) with (events w) in E.
  exists evs. split; [|right; by exists G, S_h].
  by destruct (reconcile env cfg c ord m G S_h s0) as [s1 [x|[]]].
Qed.

(** ** Invitations: the size and the content of the calls *)

(** X1: whatever the invite endpoint answers, every call of [invite_users] is
    an invite to the given channel of at least one and at most thirty user
    ids, each of them found in the cache for one of the emails; a dry run
    makes no call, and so does a run in which no email is found. *)
Theorem invite_calls_are_bounded_chunks env c ch (emails : list string)
    (dry : bool) (w : World) :
  let evs := new_events w (invite_users env c ch emails dry w).1 in
  Forall (fun ev => exists us,
            ev_call ev = conversations_invite ch us /\
            1 <= length us <= 30 /\
            forall u, u ∈ us -> u ∈ resolved c emails) evs /\
  (dry = true -> evs = []) /\
  (resolved c emails = [] -> evs = []).
Proof.
  intros evs. subst evs.
  destruct (invite_users_calls env c ch emails dry w) as (evs & E & Edry & Hall).
  rewrite (new_events_app _ _ _ E). split_and!.
  - eapply Forall_impl; [exact Hall|]. intros ev (us & Hus & Hcall).
    exists us. split_and!; [done|by apply (chunk_bounds _ _ Hus)..|].
    intros u Hu. by apply (elem_of_chunk _ _ _ Hus Hu).
  - done.
  - intros Hnil. rewrite Hnil in Hall.
    destruct evs as [|ev evs]; [done|].
    apply Forall_cons in Hall as [(us & Hus & _) _]. by apply elem_of_nil in Hus.
Qed.

Lemma call_users_concat ch (evs : list Event) (cs : list (list string)) :
  ev_call <$> evs = conversations_invite ch <$> cs ->
  concat (call_users <$> evs) = concat cs.
Proof.
  revert cs. induction evs as [|ev evs IH]; intros [|chunk cs]; simpl; try done.
  intros [= Hc Hrest]. f_equal; [unfold call_users; by rewrite Hc|by apply IH].
Qed.

(** X2: in a real run in which the invite endpoint raises nothing but Slack
    errors, the invite calls taken together carry exactly the user ids found
    in the cache, in the order of the emails, none dropped and none repeated,
    in [ceil(n / 30)] calls. *)
Theorem invite_calls_cover_resolved env c ch (emails : list string) (w : World) :
  (forall h us t, invite_response env h ch us <> Some (Exception t)) ->
  let evs := new_events w (invite_users env c ch emails false w).1 in
  concat (call_users <$> evs) = resolved c emails /\
  length evs = (length (resolved c emails) + 29) / 30.
Proof.
  intros Hslack evs. subst evs.
  destruct (invite_users env c ch emails false w) as [w' r] eqn:E.
  apply invite_users_real in E as (evs & E1 & _ & E3 & E4).
  cbn [fst]. rewrite (new_events_app _ _ _ E1).
  destruct r as [x|[n missing]].
  - destruct E4 as (ev & t & Hev & -> & Hr). rewrite Forall_forall in E3.
    destruct (E3 ev Hev) as (h & us & _ & _ & Hresp).
    rewrite Hresp in Hr. by apply Hslack in Hr.
  - destruct E4 as (_ & _ & E5 & _). split.
    + by rewrite (call_users_concat _ _ _ E5), concat_chunks.
    + apply (f_equal length) in E5. rewrite !length_fmap in E5.
      rewrite E5, length_chunks. unfold chunk_size. f_equal. lia.
Qed.

Lemma invite_calls_cover_resolved_witness :
  let evs := new_events empty_world
               (invite_users (already_member ∅ ∅) abc_client "C1"
                  ["c@x.com"; "z@x.com"; "a@x.com"] false empty_world).1 in
  concat (call_users <$> evs) = ["UC"; "UA"] /\ length evs = 1.
Proof.
  apply (invite_calls_cover_resolved (already_member ∅ ∅) abc_client "C1"
           ["c@x.com"; "z@x.com"; "a@x.com"] empty_world).
  intros h us t. simpl. discriminate.
Defined.

(** ** A mapping only calls for what its diff asks *)

(** X3: whatever the services answer, a kick issued for a mapping goes to the
    channel of the mapping, in a real run, for a member of the channel that
    is not protected, whose cached flags are all unset, and whose email is
    not in the group. *)
Theorem kicks_only_removable env cfg c ord m w (G S_h : gset string) :
  group_members env (events w) (google_group m) = inr G ->
  channel_members env (events w) (slack_channel m) = inr S_h ->
  forall ev ch u,
    ev ∈ new_events w (process_mapping env cfg c ord m w).2 ->
    ev_call ev = conversations_kick ch u ->
    dry_run cfg = Some false /\
    ch = slack_channel m /\
    u ∈ S_h /\
    (u ∉ protected_ids m) /\
    exists e,
      email_of c u = Some e /\ (e ∉ G) /\
      flag is_admin (user_cache c !! e) = false /\
      flag is_owner (user_cache c !! e) = false /\
      flag is_bot (user_cache c !! e) = false /\
      flag is_app_user (user_cache c !! e) = false.
Proof.
  intros HG HS ev ch u Hev Hcall.
  destruct (process_mapping_calls env cfg c ord m w) as (evs & E & Hevs).
  rewrite (new_events_app _ _ _ E) in Hev.
  destruct Hevs as [->|(G' & S' & HG' & HS' & Hall)]; [by apply elem_of_nil in Hev|].
  rewrite HG in HG'. rewrite HS in HS'. injection HG' as <-. injection HS' as <-.
  rewrite Forall_forall in Hall. destruct (Hall ev Hev) as [Hdry [Hinv|Hkick]].
  { destruct Hinv as (us & Hc & _). congruence. }
  destruct Hkick as (e & u' & Hc & He & Hlk & Hfree).
  rewrite Hcall in Hc. injection Hc as -> ->.
  apply member_map_lookup in Hlk as Hmem. destruct Hmem as [Hin Hem].
  unfold filtered in Hfree. rewrite Hlk in Hfree.
  apply orb_false_iff in Hfree as [Hfree Hbot].
  apply orb_false_iff in Hfree as [Hprot Hadm].
  apply orb_false_iff in Hadm as [? ?]. apply orb_false_iff in Hbot as [? ?].
  apply bool_decide_eq_false in Hprot.
  split_and!; try done. exists e. split_and!; try done.
  unfold candidate_remove_emails in He. set_solver.
Qed.

Lemma kicks_only_removable_witness :
  let env := refusing_kick {["a@x.com"]} {["UB"; "UC"; "UD"]} "UC" in
  let r := process_mapping env (settings_of false 50) abcd_client elements_order
             (eng_protecting ["UD"]) empty_world in
  ev_call <$> new_events empty_world r.2 =
    [conversations_invite "C1" ["UA"]; conversations_kick "C1" "UC";
     conversations_kick "C1" "UB"] /\
  "UC" ∉ protected_ids (eng_protecting ["UD"]).
Proof.
  split; [vm_compute; reflexivity|].
  eapply (kicks_only_removable
            (refusing_kick {["a@x.com"]} {["UB"; "UC"; "UD"]} "UC")
            (settings_of false 50) abcd_client elements_order (eng_protecting ["UD"])
            empty_world {["a@x.com"]} {["UB"; "UC"; "UD"]} eq_refl eq_refl
            {| ev_call := conversations_kick "C1" "UC";
               ev_raised := Some (SlackApiError "cant_kick_self" "cant_kick_self") |}
            "C1" "UC").
  - vm_compute. right. left.
  - reflexivity.
Defined.

(** X4: whatever the services answer, an invite issued for a mapping goes to
    the channel of the mapping, in a real run, and every user it names is the
    cached account of an email that is in the group and not yet among the
    emails of the channel; and a mapping never posts a message. *)
Theorem invites_only_missing_members env cfg c ord m w (G S_h : gset string) :
  group_members env (events w) (google_group m) = inr G ->
  channel_members env (events w) (slack_channel m) = inr S_h ->
  forall ev,
    ev ∈ new_events w (process_mapping env cfg c ord m w).2 ->
    mutating ev = true /\
    forall ch users,
      ev_call ev = conversations_invite ch users ->
      dry_run cfg = Some false /\
      ch = slack_channel m /\
      forall u, u ∈ users ->
        exists e d, e ∈ G /\ (e ∉ dom (member_map c ord S_h)) /\
                    user_cache c !! e = Some d /\ user_id d = u.
Proof.
  intros HG HS ev Hev.
  destruct (process_mapping_calls env cfg c ord m w) as (evs & E & Hevs).
  rewrite (new_events_app _ _ _ E) in Hev.
  destruct Hevs as [->|(G' & S' & HG' & HS' & Hall)]; [by apply elem_of_nil in Hev|].
  rewrite HG in HG'. rewrite HS in HS'. injection HG' as <-. injection HS' as <-.
  rewrite Forall_forall in Hall. destruct (Hall ev Hev) as [Hdry [Hinv|Hkick]].
  - destruct Hinv as (us & Hc & Hus). split; [unfold mutating; by rewrite Hc|].
    intros ch users Hcall. rewrite Hcall in Hc. injection Hc as -> ->.
    split_and!; try done. intros u Hu.
    destruct (Hus u Hu) as (e & d & He & ? & ?). exists e, d.
    unfold to_add_emails in He. set_solver.
  - destruct Hkick as (e & u' & Hc & _). split; [unfold mutating; by rewrite Hc|].
    intros ch users Hcall. congruence.
Qed.

Lemma invites_only_missing_members_witness :
  let env := obliging {["a@x.com"; "b@x.com"]} {["UB"; "UC"]} in
  mutating (invite_ok "C1" ["UA"]) = true /\
  invite_ok "C1" ["UA"] ∈
    new_events empty_world
      (process_mapping env (settings_of false 50) abc_client elements_order eng
         empty_world).2.
Proof.
  assert (Hin : invite_ok "C1" ["UA"] ∈
    new_events empty_world
      (process_mapping (obliging {["a@x.com"; "b@x.com"]} {["UB"; "UC"]})
         (settings_of false 50) abc_client elements_order eng empty_world).2).
  { vm_compute. left. }
  split; [|exact Hin].
  apply (invites_only_missing_members
           (obliging {["a@x.com"; "b@x.com"]} {["UB"; "UC"]}) (settings_of false 50)
           abc_client elements_order eng empty_world
           {["a@x.com"; "b@x.com"]} {["UB"; "UC"]} eq_refl eq_refl _ Hin).
Defined.

(** ** The list of statistics *)

Lemma keeps_name_ret {A} (a : A) : keeps_name (ret a).
Proof. by intros s. Qed.

Lemma keeps_name_raise {A} (e : Exn) : keeps_name (@raise RunState A e).
Proof. by intros s. Qed.

Lemma keeps_name_bind {A B} (c : M RunState A) (k : A -> M RunState B) :
  keeps_name c -> (forall a, keeps_name (k a)) -> keeps_name (bind c k).
Proof.
  intros Hc Hk s. unfold bind. specialize (Hc s).
  destruct (c s) as [s' [e|a]]; simpl in *; [done|]. by rewrite Hk.
Qed.

Lemma keeps_name_lift {A} (c : M World A) : keeps_name (lift c).
Proof. intros s. unfold lift. by destruct (c (world s)). Qed.

Lemma keeps_name_update_stats (f : SyncStats -> SyncStats) :
  (forall st, mapping_name (f st) = mapping_name st) -> keeps_name (update_stats f).
Proof. intros Hf s. apply Hf. Qed.

Lemma keeps_name_remove_one env cfg c m smm e : keeps_name (remove_one env cfg c m smm e).
Proof.
  intros s.
  destruct (remove_one env cfg c m smm e s) as [s' r] eqn:E.
  apply remove_one_stats in E as H. cbn [fst].
  destruct H as [[_ [H|[H|H]]]|[_ H]]; by rewrite H.
Qed.

Lemma keeps_name_remove_loop env cfg c m smm emails :
  keeps_name (remove_loop env cfg c m smm emails).
Proof.
  induction emails as [|e emails IH]; simpl; [apply keeps_name_ret|].
  apply keeps_name_bind; [apply keeps_name_remove_one|intros; apply IH].
Qed.

Lemma keeps_name_execute_adds env cfg c ord m to_add :
  keeps_name (execute_adds env cfg c ord m to_add).
Proof.
  unfold execute_adds. case_decide; [apply keeps_name_ret|].
  apply keeps_name_bind.
  { unfold settings_dry_run. destruct (dry_run cfg);
      [apply keeps_name_ret|apply keeps_name_raise]. }
  intros dry. apply keeps_name_bind; [apply keeps_name_lift|intros].
  apply keeps_name_bind; intros; by apply keeps_name_update_stats.
Qed.

Lemma keeps_name_reconcile env cfg c ord m (G S_h : gset string) :
  keeps_name (reconcile env cfg c ord m G S_h).
Proof.
  unfold reconcile. case_bool_decide.
  - apply keeps_name_bind; [apply keeps_name_lift|intros].
    apply keeps_name_bind; intros; by apply keeps_name_update_stats.
  - apply keeps_name_bind; [apply keeps_name_execute_adds|intros].
    apply keeps_name_remove_loop.
Qed.

Lemma keeps_name_mapping_body env cfg c ord m : keeps_name (mapping_body env cfg c ord m).
Proof.
  unfold mapping_body.
  apply keeps_name_bind; [apply keeps_name_lift|intros].
  apply keeps_name_bind; [apply keeps_name_lift|intros].
  apply keeps_name_reconcile.
Qed.

Lemma process_mapping_name env cfg c ord m w :
  mapping_name (process_mapping env cfg c ord m w).1 = name m.
Proof.
  unfold process_mapping, try_except.
  pose proof (keeps_name_mapping_body env cfg c ord m (start_state m w)) as H.
  destruct (mapping_body env cfg c ord m (start_state m w)) as [s [x|[]]];
    simpl in *; [|done].
  unfold mapping_failed. unfold_monad. simpl. done.
Qed.

(** X5: the list of statistics gets exactly one entry for every mapping that
    is not disabled, in the order of the configuration and under the name of
    the mapping, whether the mapping succeeded, aborted or failed; a disabled
    mapping adds none. *)
Theorem one_stats_per_enabled_mapping env cfg c ord (mappings : list Mapping)
    (stats_list : list SyncStats) (w : World) :
  mapping_name <$> (run_mappings env cfg c ord mappings stats_list w).1 =
    ((mapping_name <$> stats_list) ++ enabled_names mappings)%list.
Proof.
  revert stats_list w. unfold enabled_names.
  induction mappings as [|m ms IH]; intros sl w; cbn [run_mappings].
  - by rewrite app_nil_r.
  - rewrite filter_cons. destruct (default true (enabled m)) eqn:Hen; cbn [negb].
    + rewrite IH, fmap_app, decide_True, fmap_cons, <- app_assoc by done.
      f_equal. cbn [fmap list_fmap app]. by rewrite process_mapping_name.
    + rewrite IH. by rewrite decide_False.
Qed.

(** ** Mappings are processed independently *)

Lemma respects_ret {S A} (R : S -> S -> Prop) (a : A) : respects R (ret a).
Proof. by intros s s' H. Qed.

Lemma respects_raise {S A} (R : S -> S -> Prop) (e : Exn) : respects R (@raise S A e).
Proof. by intros s s' H. Qed.

Lemma respects_bind {S A B} (R : S -> S -> Prop) (c : M S A) (k : A -> M S B) :
  respects R c -> (forall a, respects R (k a)) -> respects R (bind c k).
Proof.
  intros Hc Hk s s' H. unfold bind. destruct (Hc s s' H) as [E HR].
  destruct (c s) as [s1 r1], (c s') as [s1' r1']. simpl in *. subst r1'.
  destruct r1 as [e|a]; [done|]. by apply Hk.
Qed.

Lemma respects_try_except {S A} (R : S -> S -> Prop) (c : M S A)
    (h : Exn -> option (M S A)) :
  respects R c -> (forall e k, h e = Some k -> respects R k) ->
  respects R (try_except c h).
Proof.
  intros Hc Hh s s' H. unfold try_except. destruct (Hc s s' H) as [E HR].
  destruct (c s) as [s1 r1], (c s') as [s1' r1']. simpl in *. subst r1'.
  destruct r1 as [e|a]; [|done].
  destruct (h e) as [k|] eqn:Hk; [|done]. by apply (Hh e k Hk).
Qed.

Lemma respects_logger (r : LogRecord) : respects any_world (logger r).
Proof. by intros w w' _. Qed.

Lemma respects_perform (c : Call) (answer : list Event -> option Exn) :
  (forall h h', answer h = answer h') -> respects any_world (perform c answer).
Proof.
  intros Ha w w' _. unfold perform. cbv zeta. cbn [fst snd].
  by rewrite (Ha (events w) (events w')).
Qed.

Lemma respects_lift {A} (c : M World A) :
  respects any_world c -> respects same_stats (lift c).
Proof.
  intros Hc s s' H. unfold lift. destruct (Hc (world s) (world s') I) as [E _].
  destruct (c (world s)) as [w1 r1], (c (world s')) as [w1' r1']. simpl in *.
  by subst.
Qed.

Lemma respects_update_stats (f : SyncStats -> SyncStats) :
  respects same_stats (update_stats f).
Proof. intros s s' H. unfold update_stats, same_stats in *. simpl. by rewrite H. Qed.

Lemma respects_settings_dry_run {S} (R : S -> S -> Prop) cfg :
  respects R (@settings_dry_run S cfg).
Proof.
  unfold settings_dry_run. destruct (dry_run cfg); [apply respects_ret|apply respects_raise].
Qed.

Lemma respects_get_group_members env g :
  history_blind env -> respects any_world (get_group_members env g).
Proof.
  intros Hb w w' H. unfold get_group_members.
  destruct (Hb (events w) (events w')) as (Hg & _). rewrite (Hg g).
  apply respects_try_except; [|intros e k [= <-]|done].
  - unfold listing. destruct (group_members env (events w') g);
      [apply respects_raise|apply respects_ret].
  - apply respects_bind; [apply respects_logger|intros _; apply respects_raise].
Qed.

Lemma respects_get_channel_members env ch :
  history_blind env -> respects any_world (get_channel_members env ch).
Proof.
  intros Hb w w' H. unfold get_channel_members.
  destruct (Hb (events w) (events w')) as (_ & Hc & _). rewrite (Hc ch).
  apply respects_try_except; [|intros [err t|t] k [= <-]|done].
  - unfold listing. destruct (channel_members env (events w') ch);
      [apply respects_raise|apply respects_ret].
  - apply respects_bind; [apply respects_logger|intros _; apply respects_raise].
Qed.

Lemma respects_resolve_emails c emails ids missing :
  respects any_world (resolve_emails c emails ids missing).
Proof.
  revert ids missing. induction emails as [|e emails IH]; intros ids missing;
    cbn [resolve_emails]; [apply respects_ret|].
  destruct (user_cache c !! e); [apply IH|].
  apply respects_bind; [apply respects_logger|intros _; apply IH].
Qed.

Lemma respects_invite_chunk env ch (dry : bool) chunk n :
  history_blind env -> respects any_world (invite_chunk env ch dry chunk n).
Proof.
  intros Hb. unfold invite_chunk. destruct dry.
  - apply respects_bind; [apply respects_logger|intros _; apply respects_ret].
  - apply respects_try_except.
    + apply respects_bind; [|intros _; apply respects_ret].
      apply respects_perform. intros h h'.
      destruct (Hb h h') as (_ & _ & Hi & _). apply Hi.
    + intros [err t|t] k [= <-]. case_decide; [apply respects_ret|].
      apply respects_bind; [apply respects_logger|intros _; apply respects_ret].
Qed.

Lemma respects_invite_loop env ch (dry : bool) ids starts n :
  history_blind env -> respects any_world (invite_loop env ch dry ids starts n).
Proof.
  intros Hb. revert n. induction starts as [|i starts IH]; intros n;
    cbn [invite_loop]; [apply respects_ret|].
  apply respects_bind; [by apply respects_invite_chunk|intros n'; apply IH].
Qed.

Lemma respects_invite_users env c ch emails (dry : bool) :
  history_blind env -> respects any_world (invite_users env c ch emails dry).
Proof.
  intros Hb. unfold invite_users.
  apply respects_bind; [apply respects_resolve_emails|intros r].
  apply respects_bind; [by apply respects_invite_loop|intros n; apply respects_ret].
Qed.

Lemma respects_kick_user env ch u (dry : bool) :
  history_blind env -> respects any_world (kick_user env ch u dry).
Proof.
  intros Hb. unfold kick_user. destruct dry.
  - apply respects_bind; [apply respects_logger|intros _; apply respects_ret].
  - apply respects_try_except.
    + apply respects_bind; [|intros _].
      * apply respects_perform. intros h h'.
        destruct (Hb h h') as (_ & _ & _ & Hk). apply Hk.
      * apply respects_bind; [apply respects_logger|intros _; apply respects_ret].
    + intros [err t|t] k [= <-].
      apply respects_bind; [apply respects_logger|intros _; apply respects_ret].
Qed.

Lemma respects_remove_one env cfg c m smm e :
  history_blind env -> respects same_stats (remove_one env cfg c m smm e).
Proof.
  intros Hb. unfold remove_one. apply respects_bind.
  - destruct (smm !! e); [apply respects_ret|apply respects_raise].
  - intros u. cbv zeta.
    repeat match goal with
           | |- respects _ (if ?b then _ else _) => destruct b
           end;
      try (apply respects_bind;
           [apply respects_lift, respects_logger|intros _; apply respects_update_stats]).
    apply respects_bind; [apply respects_settings_dry_run|intros dry].
    apply respects_bind; [by apply respects_lift, respects_kick_user|intros [|]];
      apply respects_update_stats.
Qed.

Lemma respects_remove_loop env cfg c m smm emails :
  history_blind env -> respects same_stats (remove_loop env cfg c m smm emails).
Proof.
  intros Hb. induction emails as [|e emails IH]; cbn [remove_loop];
    [apply respects_ret|].
  apply respects_bind; [by apply respects_remove_one|intros _; apply IH].
Qed.

Lemma respects_execute_adds env cfg c ord m to_add :
  history_blind env -> respects same_stats (execute_adds env cfg c ord m to_add).
Proof.
  intros Hb. unfold execute_adds. case_decide; [apply respects_ret|].
  apply respects_bind; [apply respects_settings_dry_run|intros dry].
  apply respects_bind; [by apply respects_lift, respects_invite_users|intros r].
  apply respects_bind; [apply respects_update_stats|intros _; apply respects_update_stats].
Qed.

Lemma respects_reconcile env cfg c ord m G S_h :
  history_blind env -> respects same_stats (reconcile env cfg c ord m G S_h).
Proof.
  intros Hb. unfold reconcile. cbv zeta. case_bool_decide.
  - apply respects_bind; [apply respects_lift, respects_logger|intros _].
    apply respects_bind; [apply respects_update_stats|intros _; apply respects_update_stats].
  - apply respects_bind; [by apply respects_execute_adds|intros _].
    by apply respects_remove_loop.
Qed.

Lemma respects_mapping_body env cfg c ord m :
  history_blind env -> respects same_stats (mapping_body env cfg c ord m).
Proof.
  intros Hb. unfold mapping_body.
  apply respects_bind; [by apply respects_lift, respects_get_group_members|intros G].
  apply respects_bind; [by apply respects_lift, respects_get_channel_members|intros S_h].
  by apply respects_reconcile.
Qed.

Lemma respects_mapping_failed e : respects same_stats (mapping_failed e).
Proof.
  unfold mapping_failed.
  apply respects_bind; [apply respects_lift, respects_logger|intros _].
  apply respects_bind; [apply respects_update_stats|intros _; apply respects_update_stats].
Qed.

(** With such services the statistics of a mapping do not depend on what was
    called or logged before it. *)
Lemma process_mapping_blind env cfg c ord m (w w' : World) :
  history_blind env ->
  (process_mapping env cfg c ord m w).1 = (process_mapping env cfg c ord m w').1.
Proof.
  intros Hb. unfold process_mapping. cbv zeta. cbn [fst].
  apply (respects_try_except same_stats (mapping_body env cfg c ord m)
           (fun e => Some (mapping_failed e))).
  - by apply respects_mapping_body.
  - intros e k [= <-]. apply respects_mapping_failed.
  - done.
Qed.

(** X6: the mappings are processed independently of each other: when the
    answers of the services do not depend on the calls made before, the run
    appends, for each mapping that is not disabled and in the order of the
    configuration, the very statistics that the mapping gives when it is
    processed alone; what happened to an earlier mapping, abort or failure
    included, changes nothing for a later one. *)
Theorem mappings_are_independent env cfg c ord (mappings : list Mapping)
    (stats_list : list SyncStats) (w : World) :
  history_blind env ->
  (run_mappings env cfg c ord mappings stats_list w).1 =
  (stats_list ++
   ((fun m => (process_mapping env cfg c ord m empty_world).1) <$>
      enabled_mappings mappings))%list.
Proof.
  intros Hb. revert stats_list w.
  induction mappings as [|m ms IH]; intros sl w; cbn [run_mappings].
  - by rewrite app_nil_r.
  - unfold enabled_mappings in *. rewrite filter_cons.
    destruct (default true (enabled m)) eqn:Hen; cbn [negb].
    + cbv zeta. rewrite IH, decide_True, fmap_cons, <- app_assoc by done.
      cbn [app]. by rewrite (process_mapping_blind env cfg c ord m w empty_world Hb).
    + rewrite IH. by rewrite decide_False.
Qed.

Lemma mappings_are_independent_witness :
  status <$> (run_mappings one_group_down (settings_of false 50) abc_client
                elements_order [ops; eng] [] empty_world).1 = [Failed; Success] /\
  (run_mappings one_group_down (settings_of false 50) abc_client elements_order
     [ops; eng] [] empty_world).1 =
  ([] ++
   ((fun m => (process_mapping one_group_down (settings_of false 50) abc_client
                 elements_order m empty_world).1) <$> enabled_mappings [ops; eng]))%list.
Proof.
  split; [vm_compute; reflexivity|].
  apply (mappings_are_independent one_group_down (settings_of false 50) abc_client
           elements_order [ops; eng] [] empty_world).
  intros h h'. simpl. done.
Defined.

(** ** The calls of a whole run *)

Lemma mapping_call_mutating cfg c ord m (G S_h : gset string) (ev : Event) :
  mapping_call cfg c ord m G S_h ev -> dry_run cfg = Some false /\ mutating ev = true.
Proof.
  intros [Hdry [(us & Hc & _)|(e & u & Hc & _)]]; split; try done;
    unfold mutating; by rewrite Hc.
Qed.

Lemma run_mappings_calls env cfg c ord (mappings : list Mapping)
    (stats_list : list SyncStats) (w : World) :
  exists evs,
    events (run_mappings env cfg c ord mappings stats_list w).2 = (events w ++ evs)%list /\
    Forall (fun ev => dry_run cfg = Some false /\ mutating ev = true) evs.
Proof.
  revert stats_list w. induction mappings as [|m ms IH]; intros sl w;
    cbn [run_mappings].
  - exists []. by rewrite app_nil_r.
  - destruct (negb (default true (enabled m))); [apply IH|].
    destruct (process_mapping_calls env cfg c ord m w) as (evs1 & E1 & H1).
    destruct (IH (sl ++ [(process_mapping env cfg c ord m w).1])%list
                 (process_mapping env cfg c ord m w).2) as (evs2 & E2 & H2).
    exists (evs1 ++ evs2)%list. rewrite E2, E1, <- app_assoc. split; [done|].
    apply Forall_app. split; [|done].
    destruct H1 as [->|(G & S_h & _ & _ & Hall)]; [done|].
    eapply Forall_impl; [exact Hall|]. apply mapping_call_mutating.
Qed.

Lemma post_report_calls env (channel_id : option string) (stats_list : list SyncStats)
    (dry : option bool) (w : World) :
  events (post_report env channel_id stats_list dry w).1 =
    (events w ++
     if truthy_string channel_id && negb (truthy_bool dry) then
       [{| ev_call := chat_postMessage (default "" channel_id) (report_blocks stats_list);
           ev_raised := post_response env (events w) (default "" channel_id)
                          (report_blocks stats_list) |}]
     else [])%list.
Proof.
  unfold post_report.
  destruct (truthy_string channel_id), (truthy_bool dry); simpl;
    rewrite ?app_nil_r; try done.
  unfold try_except, perform, logger.
  by destruct (post_response env (events w) _ _).
Qed.

(** X7: in a run with [dry_run] set to true nothing is called at all, whatever
    the configuration and the services are: no invite, no kick and no
    report. *)
Theorem dry_run_makes_no_call env cfg (mappings : list Mapping) c ord (w : World) :
  dry_run cfg = Some true ->
  events (run_sync env cfg mappings c ord w).2 = events w.
Proof.
  intros Hdry. unfold run_sync. cbn [fst snd logger events].
  rewrite post_report_calls, Hdry.
  rewrite andb_false_r, app_nil_r.
  destruct (run_mappings_calls env cfg c ord mappings []
              {| events := events w; log := log w ++ [log_starting (Some true)] |})
    as (evs & E & Hall).
  rewrite E. simpl. destruct evs as [|ev evs]; [by rewrite app_nil_r|].
  apply Forall_cons in Hall as [[Hf _] _]. congruence.
Qed.

Lemma dry_run_makes_no_call_witness :
  events (run_sync (obliging {["a@x.com"; "b@x.com"]} {["UB"; "UC"]})
            (settings_of true 50) [eng] abc_client elements_order empty_world).2 = [].
Proof.
  apply (dry_run_makes_no_call (obliging {["a@x.com"; "b@x.com"]} {["UB"; "UC"]})
           (settings_of true 50) [eng] abc_client elements_order empty_world).
  reflexivity.
Defined.

(** X8: the calls of a run are the invites and kicks of its mappings followed
    by at most one report: the report comes after every invite and kick,
    carries the blocks of the final list of statistics, and is posted exactly
    when the notify channel is set and [dry_run] is not true. *)
Theorem report_follows_the_mappings env cfg (mappings : list Mapping) c ord (w : World) :
  let r := run_sync env cfg mappings c ord w in
  exists evs posts,
    new_events w r.2 = (evs ++ posts)%list /\
    Forall (fun ev => mutating ev = true) evs /\
    Forall (report_of r.1) posts /\
    length posts =
      (if truthy_string (notify_channel_id cfg) && negb (truthy_bool (dry_run cfg))
       then 1 else 0).
Proof.
  intros r. subst r. unfold run_sync. cbn [fst snd logger events].
  destruct (run_mappings_calls env cfg c ord mappings []
              {| events := events w; log := log w ++ [log_starting (dry_run cfg)] |})
    as (evs & E & Hall).
  set (rm := run_mappings env cfg c ord mappings []
               {| events := events w; log := log w ++ [log_starting (dry_run cfg)] |})
    in *.
  simpl in E.
  exists evs. eexists. split_and!.
  - apply new_events_app. rewrite post_report_calls, E, <- app_assoc. reflexivity.
  - eapply Forall_impl; [exact Hall|]. by intros ev [_ ?].
  - destruct (truthy_string _ && negb _); [|done].
    constructor; [|done]. by eexists.
  - by destruct (truthy_string _ && negb _).
Qed.

(** ** The status of a mapping *)

Ltac settle_outcome H :=
  first
    [ done
    | lia
    | by destruct H
    | destruct H; lia
    | split; [lia|done]
    | by eexists ].

(** X9: once both listings are answered, the status tells what happened:
    Aborted exactly when the number of changes exceeds the ceiling (a number
    equal to the ceiling is let through), Failed exactly when the body
    raised, Success exactly when the ceiling was respected and nothing
    raised. *)
Theorem status_tells_the_outcome env cfg c ord m w (G S_h : gset string) :
  group_members env (events w) (google_group m) = inr G ->
  channel_members env (events w) (slack_channel m) = inr S_h ->
  let r := process_mapping env cfg c ord m w in
  let total := total_changes G (dom (member_map c ord S_h)) in
  let outcome := (mapping_body env cfg c ord m (start_state m w)).2 in
  (status r.1 = Aborted <-> (ceiling cfg < Z.of_nat total)%Z) /\
  (status r.1 = Failed <-> exists e, outcome = inl e) /\
  (status r.1 = Success <-> (Z.of_nat total <= ceiling cfg)%Z /\ outcome = inr tt).
Proof.
  intros HG HS r total outcome. subst r total outcome.
  unfold process_mapping, try_except.
  rewrite (mapping_body_fetched _ _ _ _ _ _ G S_h) by done.
  destruct (decide (ceiling cfg < Z.of_nat (total_changes G (dom (member_map c ord S_h))))%Z)
    as [Hlim|Hlim].
  - unfold reconcile. rewrite (bool_decide_eq_true_2 _ Hlim).
    unfold_monad. simpl. split_and!; split; intros H; settle_outcome H.
  - rewrite reconcile_below_ceiling by lia. unfold bind.
    destruct (execute_adds env cfg c ord m _ (start_state m w)) as [s1 [x|[]]] eqn:E1.
    { simpl. split_and!; split; intros H; settle_outcome H. }
    apply execute_adds_stats in E1 as (A1 & _).
    destruct (remove_loop env cfg c m _ _ s1) as [s2 r2] eqn:E2.
    apply remove_loop_stats in E2 as (B1 & _).
    rewrite A1 in B1. simpl in B1.
    destruct r2 as [x|[]]; simpl.
    + split_and!; split; intros H; settle_outcome H.
    + rewrite B1. split_and!; split; intros H; settle_outcome H.
Qed.

Lemma status_tells_the_outcome_witness :
  let env := obliging {["a@x.com"; "b@x.com"]} {["UB"; "UC"]} in
  status (process_mapping env (settings_of false 2) abc_client elements_order eng
            empty_world).1 = Success /\
  status (process_mapping env (settings_of false 1) abc_client elements_order eng
            empty_world).1 = Aborted.
Proof.
  pose proof (status_tells_the_outcome
                (obliging {["a@x.com"; "b@x.com"]} {["UB"; "UC"]}) (settings_of false 2)
                abc_client elements_order eng empty_world
                {["a@x.com"; "b@x.com"]} {["UB"; "UC"]} eq_refl eq_refl) as (_ & _ & H2).
  pose proof (status_tells_the_outcome
                (obliging {["a@x.com"; "b@x.com"]} {["UB"; "UC"]}) (settings_of false 1)
                abc_client elements_order eng empty_world
                {["a@x.com"; "b@x.com"]} {["UB"; "UC"]} eq_refl eq_refl) as (H1 & _).
  split.
  - apply H2. split; [vm_compute; discriminate|vm_compute; reflexivity].
  - apply H1. vm_compute. reflexivity.
Defined.

(** X10: when the listing of the group fails, or the listing of the channel
    fails after it, the mapping fails without a single call: its status is
    Failed, its only error is the text of the exception, its counters are
    zero and the failure is logged. *)
Theorem listing_failure_fails_the_mapping env cfg c ord m w (e : Exn) :
  group_members env (events w) (google_group m) = inl e \/
  (exists G, group_members env (events w) (google_group m) = inr G /\
             channel_members env (events w) (slack_channel m) = inl e) ->
  let r := process_mapping env cfg c ord m w in
  status r.1 = Failed /\
  errors r.1 = [str e] /\
  (added r.1 = 0 /\ removed r.1 = 0 /\ skipped r.1 = 0) /\
  missing_accounts r.1 = [] /\
  events r.2 = events w /\
  log_mapping_failed e ∈ log r.2.
Proof.
  intros H r. subst r. unfold process_mapping, try_except. rewrite mapping_body_eq.
  unfold get_group_members, get_channel_members, try_except, listing. simpl.
  destruct H as [HG|(G & HG & HS)]; rewrite HG; simpl.
  - unfold mapping_failed. unfold_monad. simpl. split_and!; try done.
    rewrite !elem_of_app. right. by left.
  - rewrite HS. destruct e as [err t|t]; simpl;
      unfold mapping_failed; unfold_monad; simpl; split_and!; try done;
      rewrite !elem_of_app; right; by left.
Qed.

Lemma listing_failure_fails_the_mapping_witness :
  let r := process_mapping directory_down (settings_of false 50) abc_client
             elements_order eng empty_world in
  status r.1 = Failed /\ errors r.1 = ["HttpError 503"] /\ events r.2 = [].
Proof.
  destruct (listing_failure_fails_the_mapping directory_down (settings_of false 50)
              abc_client elements_order eng empty_world (Exception "HttpError 503"))
    as (H1 & H2 & _ & _ & H5 & _).
  - left. reflexivity.
  - split_and!; [exact H1|exact H2|exact H5].
Defined.

(** X11: when the settings have no [dry_run] key, a mapping that has somebody
    to add fails on the missing key before anything is called: status
    Failed, the only error is the text of the [KeyError], nothing is counted
    as added. *)
Theorem missing_dry_run_key_fails_the_mapping env cfg c ord m w (G S_h : gset string) :
  dry_run cfg = None ->
  group_members env (events w) (google_group m) = inr G ->
  channel_members env (events w) (slack_channel m) = inr S_h ->
  (Z.of_nat (total_changes G (dom (member_map c ord S_h))) <= ceiling cfg)%Z ->
  to_add_emails G (dom (member_map c ord S_h)) <> ∅ ->
  let r := process_mapping env cfg c ord m w in
  status r.1 = Failed /\
  errors r.1 = ["'dry_run'"] /\
  added r.1 = 0 /\
  events r.2 = events w.
Proof.
  intros Hdry HG HS Hlim Hne r. subst r. unfold process_mapping, try_except.
  rewrite (mapping_body_fetched _ _ _ _ _ _ G S_h) by done.
  rewrite reconcile_below_ceiling by done.
  unfold bind, execute_adds. rewrite decide_False by done.
  unfold settings_dry_run. rewrite Hdry. unfold mapping_failed. unfold_monad.
  simpl. done.
Qed.

Lemma missing_dry_run_key_fails_the_mapping_witness :
  let r := process_mapping (obliging {["a@x.com"; "b@x.com"]} {["UB"; "UC"]})
             settings_without_dry_run abc_client elements_order eng empty_world in
  status r.1 = Failed /\ errors r.1 = ["'dry_run'"] /\ added r.1 = 0 /\ events r.2 = [].
Proof.
  apply (missing_dry_run_key_fails_the_mapping
           (obliging {["a@x.com"; "b@x.com"]} {["UB"; "UC"]}) settings_without_dry_run
           abc_client elements_order eng empty_world
           {["a@x.com"; "b@x.com"]} {["UB"; "UC"]}).
  - reflexivity.
  - reflexivity.
  - reflexivity.
  - vm_compute. discriminate.
  - intros H. apply (f_equal size) in H. vm_compute in H. discriminate.
Defined.

(** ** The listings, page by page *)

(** A loop whose pages are all served and processed ends after the last page
    with the pages folded into the accumulator, whatever fuel is left. *)
Lemma paginate_serves {P A} (request : option string -> Exn + P)
    (next : P -> option string) (process : P -> A -> Exn + A) (step : A -> P -> A)
    (pages : list P) (fuel : nat) (token : option string) (acc : A) :
  serves request next token pages ->
  length pages <= fuel ->
  (forall page acc, page ∈ pages -> process page acc = inr (step acc page)) ->
  paginate request next process fuel token acc = Some (foldl step acc pages, None).
Proof.
  revert fuel token acc. induction pages as [|page rest IH]; intros fuel token acc;
    [done|].
  intros [Hreq Hrest] Hfuel Hproc. destruct fuel as [|fuel]; [simpl in Hfuel; lia|].
  cbn [paginate]. rewrite Hreq, (Hproc page acc) by by left.
  destruct rest as [|page' rest'].
  - by rewrite Hrest.
  - destruct Hrest as [-> Hrest]. cbn [foldl]. apply IH; [done|simpl in *; lia|].
    intros p a Hp. apply Hproc. by right.
Qed.

(** A loop whose request fails after some pages ends with that exception and
    the accumulator reached so far. *)
Lemma paginate_fails {P A} (request : option string -> Exn + P)
    (next : P -> option string) (process : P -> A -> Exn + A) (step : A -> P -> A)
    (pages : list P) (e : Exn) (fuel : nat) (token : option string) (acc : A) :
  serves_then_fails request next token pages e ->
  length pages < fuel ->
  (forall page acc, page ∈ pages -> process page acc = inr (step acc page)) ->
  paginate request next process fuel token acc = Some (foldl step acc pages, Some e).
Proof.
  revert fuel token acc. induction pages as [|page rest IH]; intros fuel token acc.
  - intros Hreq Hfuel _. destruct fuel as [|fuel]; [simpl in Hfuel; lia|].
    cbn [paginate]. simpl in Hreq. by rewrite Hreq.
  - intros (Hreq & Htok & Hrest) Hfuel Hproc.
    destruct fuel as [|fuel]; [simpl in Hfuel; lia|].
    cbn [paginate]. rewrite Hreq, (Hproc page acc), Htok by by left.
    cbn [foldl]. apply IH; [done|simpl in *; lia|].
    intros p a Hp. apply Hproc. by right.
Qed.

(** Whatever ends the loop, a property of the accumulator that every page
    keeps holds in the end. *)
Lemma paginate_invariant {P A} (I : A -> Prop) (request : option string -> Exn + P)
    (next : P -> option string) (process : P -> A -> Exn + A)
    (fuel : nat) (token : option string) (acc acc' : A) (x : option Exn) :
  I acc ->
  (forall page acc acc', I acc -> process page acc = inr acc' -> I acc') ->
  paginate request next process fuel token acc = Some (acc', x) ->
  I acc'.
Proof.
  intros Hacc Hstep. revert token acc Hacc.
  induction fuel as [|fuel IH]; intros token acc Hacc; [done|].
  cbn [paginate]. destruct (request token) as [e|page]; [by intros [= <- <-]|].
  destruct (process page acc) as [e|acc1] eqn:Hp; [by intros [= <- <-]|].
  destruct (truthy_string (next page)).
  - apply IH. by eapply Hstep.
  - intros [= <- <-]. by eapply Hstep.
Qed.

Lemma user_emails_cons (en : GroupEntry) (entries : list GroupEntry) :
  user_emails (en :: entries) =
    match (if decide (entry_type en = Some "USER") then entry_email en else None) with
    | Some e => e :: user_emails entries
    | None => user_emails entries
    end.
Proof. unfold user_emails. simpl. by destruct (if decide _ then _ else _). Qed.

Lemma add_entries_present lower (entries : list GroupEntry) (members : gset string) :
  emails_present entries ->
  add_entries lower entries members =
    inr (members ∪ list_to_set (lower <$> user_emails entries)).
Proof.
  revert members. induction entries as [|en entries IH]; intros members Hall.
  - simpl. f_equal. set_solver.
  - apply Forall_cons in Hall as [Hen Hall]. cbn [add_entries]. unfold add_entry.
    rewrite user_emails_cons. case_decide as Htype.
    + destruct (Hen Htype) as [e ->]. rewrite (IH _ Hall). f_equal.
      rewrite fmap_cons. set_solver.
    + by rewrite (IH _ Hall).
Qed.

Lemma emails_present_page (pages : list GroupPage) (page : GroupPage) :
  emails_present (all_entries pages) -> page ∈ pages ->
  emails_present (default [] (page_entries page)).
Proof.
  unfold emails_present, all_entries. rewrite !Forall_forall. intros Hall Hp en Hen.
  apply Hall. apply list_elem_of_bind. eauto.
Qed.

Lemma foldl_group_pages lower (pages : list GroupPage) (members : gset string) :
  foldl (fun members page =>
           members ∪ list_to_set (lower <$> user_emails (default [] (page_entries page))))
        members pages =
  members ∪ list_to_set (lower <$> user_emails (all_entries pages)).
Proof.
  revert members. induction pages as [|page pages IH]; intros members; cbn [foldl].
  - unfold all_entries, user_emails. simpl. set_solver.
  - rewrite IH. unfold all_entries. rewrite bind_cons. unfold user_emails.
    rewrite omap_app, fmap_app, list_to_set_app_L. set_solver.
Qed.

(** X12: when the directory serves the group on a sequence of pages, the last
    of which has no (or an empty) next-page token, the listing ends after
    the last page, for any fuel that covers the pages, and returns the
    lowercased emails of the entries of type USER of all the pages; entries
    of another type, nested groups among them, contribute nothing. *)
Theorem group_listing_collects_users lower
    (members_list : option string -> Exn + GroupPage) (pages : list GroupPage)
    (fuel : nat) :
  serves members_list nextPageToken None pages ->
  length pages <= fuel ->
  emails_present (all_entries pages) ->
  group_listing lower members_list fuel =
    Some (inr (list_to_set (lower <$> user_emails (all_entries pages)))).
Proof.
  intros Hserves Hfuel Hpresent. unfold group_listing.
  rewrite (paginate_serves _ _ _
             (fun members page =>
                members ∪ list_to_set
                  (lower <$> user_emails (default [] (page_entries page))))
             pages fuel None ∅ Hserves Hfuel).
  - rewrite foldl_group_pages. simpl. do 2 f_equal. set_solver.
  - intros page acc Hp. apply add_entries_present.
    by apply (emails_present_page pages).
Qed.

Lemma group_listing_collects_users_witness :
  group_listing ascii_lower two_page_directory 5 =
    Some (inr {["alice@x.com"; "bob@x.com"]}).
Proof.
  rewrite (group_listing_collects_users ascii_lower two_page_directory
             [ {| page_entries :=
                    Some [ {| entry_type := Some "USER"; entry_email := Some "Alice@X.com" |};
                           {| entry_type := Some "GROUP"; entry_email := Some "devs@x.com" |} ];
                  nextPageToken := Some "p2" |};
               {| page_entries :=
                    Some [ {| entry_type := Some "USER"; entry_email := Some "bob@x.com" |} ];
                  nextPageToken := None |} ] 5).
  - vm_compute. reflexivity.
  - simpl. auto.
  - simpl. lia.
  - repeat constructor; simpl; eauto; discriminate.
Defined.

(** X13: when a request of the directory listing fails, after any number of
    pages, [get_group_members] logs the error and raises it: the members
    read from the earlier pages are not returned, and nothing is called. *)
Theorem group_listing_failure_is_raised lower
    (members_list : string -> option string -> Exn + GroupPage)
    (group_email : string) (pages : list GroupPage) (e : Exn) (fuel : nat) (w : World) :
  serves_then_fails (members_list group_email) nextPageToken None pages e ->
  length pages < fuel ->
  emails_present (all_entries pages) ->
  get_group_members_paged lower members_list fuel group_email w =
    Some ({| events := events w; log := log w ++ [log_google_error group_email e] |},
          inl e).
Proof.
  intros Hfails Hfuel Hpresent. unfold get_group_members_paged, group_listing.
  rewrite (paginate_fails _ _ _
             (fun members page =>
                members ∪ list_to_set
                  (lower <$> user_emails (default [] (page_entries page))))
             pages e fuel None ∅ Hfails Hfuel).
  - reflexivity.
  - intros page acc Hp. apply add_entries_present.
    by apply (emails_present_page pages).
Qed.

Lemma group_listing_failure_is_raised_witness :
  get_group_members_paged ascii_lower (fun _ => broken_directory) 5 "eng@x.com"
    empty_world =
  Some ({| events := []; log := [log_google_error "eng@x.com" (Exception "HttpError 503")] |},
        inl (Exception "HttpError 503")).
Proof.
  apply (group_listing_failure_is_raised ascii_lower (fun _ => broken_directory)
           "eng@x.com"
           [ {| page_entries :=
                  Some [ {| entry_type := Some "USER"; entry_email := Some "Alice@X.com" |} ];
                nextPageToken := Some "p2" |} ]
           (Exception "HttpError 503") 5 empty_world).
  - simpl. auto.
  - simpl. lia.
  - repeat constructor; simpl; eauto.
Defined.

(** X14: when the channel is served on a sequence of pages, the last of which
    has no (or an empty) cursor, the listing of the channel returns the
    union of the member ids of all the pages. *)
Theorem channel_listing_unions_pages
    (conversations_members : option string -> Exn + MembersPage)
    (pages : list MembersPage) (fuel : nat) :
  serves conversations_members next_cursor None pages ->
  length pages <= fuel ->
  channel_listing conversations_members fuel =
    Some (inr (list_to_set (pages ≫= page_member_ids))).
Proof.
  intros Hserves Hfuel. unfold channel_listing.
  rewrite (paginate_serves _ _ _
             (fun ids page => ids ∪ list_to_set (page_member_ids page))
             pages fuel None ∅ Hserves Hfuel) by done.
  simpl. do 2 f_equal.
  assert (H : forall ids : gset string,
    foldl (fun ids page => ids ∪ list_to_set (page_member_ids page)) ids pages =
    ids ∪ list_to_set (pages ≫= page_member_ids)).
  { clear. induction pages as [|page pages IH]; intros ids; cbn [foldl].
    - simpl. set_solver.
    - rewrite IH, bind_cons, list_to_set_app_L. set_solver. }
  rewrite H. set_solver.
Qed.

Lemma channel_listing_unions_pages_witness :
  channel_listing two_page_channel 2 = Some (inr {["UA"; "UB"; "UC"]}).
Proof.
  rewrite (channel_listing_unions_pages two_page_channel
             [ {| page_member_ids := ["UA"; "UB"]; next_cursor := Some "c2" |};
               {| page_member_ids := ["UB"; "UC"]; next_cursor := Some "" |} ] 2).
  - vm_compute. reflexivity.
  - simpl. auto.
  - simpl. lia.
Defined.

(** ** The user cache *)

Lemma cache_members_cons lower (mem : RosterMember) (mems : list RosterMember) c :
  cache_members lower (mem :: mems) c = cache_members lower mems (cache_member lower mem c).
Proof. reflexivity. Qed.

Lemma active_cons (mem : RosterMember) (mems : list RosterMember) :
  active (mem :: mems) = if roster_deleted mem then active mems else mem :: active mems.
Proof.
  unfold active. rewrite filter_cons. destruct (roster_deleted mem); by case_decide.
Qed.

Lemma cache_member_agree lower (mem : RosterMember) c :
  caches_agree c -> caches_agree (cache_member lower mem c).
Proof.
  intros [Hid Hcache]. unfold cache_member.
  destruct (roster_deleted mem); [done|]. split; simpl.
  - intros u d. destruct (decide (roster_id mem = u)) as [<-|Hne].
    + rewrite lookup_insert_eq. by intros [= <-].
    + rewrite lookup_insert_ne by done. apply Hid.
  - assert (Hold : forall e d, user_cache c !! e = Some d ->
              user_email d = e /\ e <> "" /\
              exists d', <[roster_id mem := user_data_of lower mem]> (id_map c)
                           !! user_id d = Some d').
    { intros e d Hd. destruct (Hcache e d Hd) as (? & ? & d' & Hd').
      split_and!; try done.
      destruct (decide (roster_id mem = user_id d)) as [<-|Hne].
      - rewrite lookup_insert_eq. eauto.
      - rewrite lookup_insert_ne by done. eauto. }
    case_decide as Hemp; [exact Hold|].
    intros e d. destruct (decide (user_email (user_data_of lower mem) = e)) as [<-|Hne].
    + rewrite lookup_insert_eq. intros [= <-]. split_and!; try done.
      simpl. rewrite lookup_insert_eq. eauto.
    + rewrite lookup_insert_ne by done. apply Hold.
Qed.

Lemma cache_members_agree lower (mems : list RosterMember) c :
  caches_agree c -> caches_agree (cache_members lower mems c).
Proof.
  revert c. induction mems as [|mem mems IH]; intros c Hc; [done|].
  rewrite cache_members_cons. by apply IH, cache_member_agree.
Qed.

Lemma new_client_agree : caches_agree new_client.
Proof. split; intros ? ?; simpl; by rewrite lookup_empty. Qed.

(** X15: however the listing of the users ends, by its last page or by an
    exception after some pages, the caches it leaves agree with each other
    and with their keys: a record is stored under its own id, and a record
    stored under an email has that email, which is not empty, and its id is
    known to the cache by id. *)
Theorem populate_leaves_agreeing_caches lower
    (users_list : option string -> Exn + RosterPage) (fuel : nat)
    (c : SlackSyncClient) (l : list SetupLog) (x : option Exn) :
  populate_user_cache lower users_list fuel new_client = Some (c, l, x) ->
  caches_agree c.
Proof.
  unfold populate_user_cache.
  destruct (paginate users_list roster_next_cursor _ fuel None new_client)
    as [[c' [e|]]|] eqn:E; [| |done].
  - intros [= <- _ _].
    eapply (paginate_invariant caches_agree); [| |exact E].
    + apply new_client_agree.
    + intros page a a' Ha [= <-]. by apply cache_members_agree.
  - intros [= <- _ _].
    eapply (paginate_invariant caches_agree); [| |exact E].
    + apply new_client_agree.
    + intros page a a' Ha [= <-]. by apply cache_members_agree.
Qed.

Lemma populate_leaves_agreeing_caches_witness :
  caches_agree (cache_members ascii_lower small_roster new_client).
Proof.
  apply (populate_leaves_agreeing_caches ascii_lower small_roster_service 1
           (cache_members ascii_lower small_roster new_client) [log_populating] None).
  reflexivity.
Defined.

(** X16: when the users are served on a sequence of pages, the last of which
    has no (or an empty) cursor, [populate_user_cache] reads them all: it
    returns without an exception and leaves the caches filled with the
    members of all the pages, in their order. *)
Theorem populate_reads_all_pages lower
    (users_list : option string -> Exn + RosterPage) (pages : list RosterPage)
    (fuel : nat) (c : SlackSyncClient) :
  serves users_list roster_next_cursor None pages ->
  length pages <= fuel ->
  populate_user_cache lower users_list fuel c =
    Some (cache_members lower (pages ≫= roster_members) c, [log_populating], None).
Proof.
  intros Hserves Hfuel. unfold populate_user_cache.
  rewrite (paginate_serves _ _ _
             (fun c page => cache_members lower (roster_members page) c)
             pages fuel None c Hserves Hfuel) by done.
  do 3 f_equal. clear. revert c.
  induction pages as [|page pages IH]; intros c; [done|].
  cbn [foldl]. rewrite IH, bind_cons. unfold cache_members. by rewrite foldl_app.
Qed.

Lemma populate_reads_all_pages_witness :
  populate_user_cache ascii_lower small_roster_service 3 new_client =
    Some (cache_members ascii_lower small_roster new_client, [log_populating], None).
Proof.
  rewrite (populate_reads_all_pages ascii_lower small_roster_service
             [ {| roster_members := small_roster; roster_next_cursor := None |} ]
             3 new_client).
  - reflexivity.
  - simpl. auto.
  - simpl. lia.
Defined.

Lemma cache_members_id_map lower (mems : list RosterMember) c (u : string) (d : UserData) :
  id_map (cache_members lower mems c) !! u = Some d ->
  id_map c !! u = Some d \/
  exists mem, mem ∈ active mems /\ roster_id mem = u /\ d = user_data_of lower mem.
Proof.
  revert c. induction mems as [|mem mems IH]; intros c; [by left|].
  rewrite cache_members_cons, active_cons. intros H.
  apply IH in H as [H|(mem' & Hin & ? & ?)].
  - unfold cache_member in H. destruct (roster_deleted mem); [by left|]. simpl in H.
    destruct (decide (roster_id mem = u)) as [<-|Hne].
    + rewrite lookup_insert_eq in H. injection H as <-. right. exists mem.
      split; [by left|done].
    + rewrite lookup_insert_ne in H by done. by left.
  - right. exists mem'. split; [|done]. destruct (roster_deleted mem); [done|by right].
Qed.

Lemma cache_members_user_cache lower (mems : list RosterMember) c (e : string)
    (d : UserData) :
  user_cache (cache_members lower mems c) !! e = Some d ->
  user_cache c !! e = Some d \/
  exists mem, mem ∈ active mems /\ user_email (user_data_of lower mem) = e /\
              e <> "" /\ d = user_data_of lower mem.
Proof.
  revert c. induction mems as [|mem mems IH]; intros c; [by left|].
  rewrite cache_members_cons, active_cons. intros H.
  apply IH in H as [H|(mem' & Hin & ? & ? & ?)].
  - unfold cache_member in H. destruct (roster_deleted mem); [by left|]. simpl in H.
    case_decide as Hemp; [by left|].
    destruct (decide (user_email (user_data_of lower mem) = e)) as [<-|Hne].
    + rewrite lookup_insert_eq in H. injection H as <-. right. exists mem.
      split; [by left|done].
    + rewrite lookup_insert_ne in H by done. by left.
  - right. exists mem'. split; [|done]. destruct (roster_deleted mem); [done|by right].
Qed.

Lemma cache_members_keeps_keys lower (mems : list RosterMember) c :
  (forall u, is_Some (id_map c !! u) ->
             is_Some (id_map (cache_members lower mems c) !! u)) /\
  (forall e, is_Some (user_cache c !! e) ->
             is_Some (user_cache (cache_members lower mems c) !! e)).
Proof.
  revert c. induction mems as [|mem mems IH]; intros c; [done|].
  rewrite cache_members_cons. destruct (IH (cache_member lower mem c)) as [IH1 IH2].
  unfold cache_member in *. destruct (roster_deleted mem); [done|]. simpl in *.
  split.
  - intros u Hu. apply IH1. destruct (decide (roster_id mem = u)) as [<-|Hne].
    + by rewrite lookup_insert_eq.
    + by rewrite lookup_insert_ne.
  - intros e He. apply IH2. case_decide; [done|].
    destruct (decide (user_email (user_data_of lower mem) = e)) as [<-|Hne].
    + by rewrite lookup_insert_eq.
    + by rewrite lookup_insert_ne.
Qed.

Lemma cache_members_active lower (mems : list RosterMember) c (mem : RosterMember) :
  mem ∈ active mems ->
  is_Some (id_map (cache_members lower mems c) !! roster_id mem) /\
  (user_email (user_data_of lower mem) <> "" ->
   is_Some (user_cache (cache_members lower mems c) !! user_email (user_data_of lower mem))).
Proof.
  revert c. induction mems as [|mem' mems IH]; intros c.
  - intros H. by apply elem_of_nil in H.
  - rewrite active_cons, cache_members_cons. intros H.
    destruct (roster_deleted mem') eqn:Hdel; [by apply IH|].
    apply elem_of_cons in H as [->|H]; [|by apply IH].
    destruct (cache_members_keeps_keys lower mems (cache_member lower mem' c))
      as [K1 K2].
    unfold cache_member in *. rewrite Hdel in *. simpl in *. split.
    + apply K1. by rewrite lookup_insert_eq.
    + intros Hne. apply K2. rewrite decide_False by done. by rewrite lookup_insert_eq.
Qed.

(** X17: the caches built from a roster hold the members that are not deleted
    and nobody else: an id is known exactly when a member that is not
    deleted has it, an email exactly when it is the non-empty lowercased
    email of such a member, and every record is the record of such a member;
    a deleted user is in neither cache, a user without email only in the
    cache by id. *)
Theorem caches_hold_the_active_members lower (mems : list RosterMember) :
  let c := cache_members lower mems new_client in
  (forall u, is_Some (id_map c !! u) <->
             exists mem, mem ∈ active mems /\ roster_id mem = u) /\
  (forall e, is_Some (user_cache c !! e) <-> e ∈ cached_emails lower mems) /\
  (forall u d, id_map c !! u = Some d ->
     exists mem, mem ∈ active mems /\ roster_id mem = u /\ d = user_data_of lower mem) /\
  (forall e d, user_cache c !! e = Some d ->
     exists mem, mem ∈ active mems /\ d = user_data_of lower mem).
Proof.
  intros c. subst c. split_and!.
  - intros u. split.
    + intros [d Hd]. apply cache_members_id_map in Hd as [Hd|(mem & ? & ? & _)];
        [by (simpl in Hd; rewrite lookup_empty in Hd)|eauto].
    + intros (mem & Hin & <-). by apply cache_members_active.
  - intros e. unfold cached_emails. rewrite list_elem_of_fmap. split.
    + intros [d Hd].
      apply cache_members_user_cache in Hd as [Hd|(mem & ? & ? & ? & _)];
        [by (simpl in Hd; rewrite lookup_empty in Hd)|].
      exists mem. split; [done|]. apply list_elem_of_filter. split; [congruence|done].
    + intros (mem & -> & Hin). apply list_elem_of_filter in Hin as [Hne Hin].
      by apply cache_members_active.
  - intros u d Hd. apply cache_members_id_map in Hd as [Hd|?];
      [by (simpl in Hd; rewrite lookup_empty in Hd)|done].
  - intros e d Hd.
    apply cache_members_user_cache in Hd as [Hd|(mem & ? & _ & _ & ?)];
      [by (simpl in Hd; rewrite lookup_empty in Hd)|eauto].
Qed.

Lemma cache_members_same_record lower (mems : list RosterMember) c :
  NoDup (roster_id <$> active mems) ->
  (forall mem, mem ∈ active mems -> id_map c !! roster_id mem = None) ->
  (forall e d, user_cache c !! e = Some d -> id_map c !! user_id d = Some d) ->
  forall e d,
    user_cache (cache_members lower mems c) !! e = Some d ->
    id_map (cache_members lower mems c) !! user_id d = Some d.
Proof.
  revert c. induction mems as [|mem mems IH]; intros c Hnd Hfresh Hsame; [done|].
  rewrite cache_members_cons. rewrite active_cons in Hnd, Hfresh.
  unfold cache_member. destruct (roster_deleted mem); [by apply IH|].
  rewrite fmap_cons in Hnd. apply NoDup_cons in Hnd as [Hnew Hnd].
  assert (Hmem : id_map c !! roster_id mem = None) by (apply Hfresh; by left).
  assert (Hold : forall e d, user_cache c !! e = Some d ->
            <[roster_id mem := user_data_of lower mem]> (id_map c) !! user_id d = Some d).
  { intros e d Hd. apply Hsame in Hd as Hd'.
    rewrite lookup_insert_ne; [done|]. intros Heq. rewrite Heq in Hmem. congruence. }
  apply IH; [done| |]; simpl.
  - intros mem' Hin. rewrite lookup_insert_ne; [apply Hfresh; by right|].
    intros Heq. apply Hnew. rewrite Heq. by apply list_elem_of_fmap_2.
  - case_decide as Hemp; [exact Hold|]. intros e d.
    destruct (decide (user_email (user_data_of lower mem) = e)) as [<-|Hne].
    + rewrite lookup_insert_eq. intros [= <-]. simpl. by rewrite lookup_insert_eq.
    + rewrite lookup_insert_ne by done. apply Hold.
Qed.

(** X18: when the members of the roster that are not deleted have different
    ids, the two caches hold the same record for a user: the record cached
    for an email is the one stored under its id, so that going from an email
    to its id and back gives the email again. *)
Theorem distinct_ids_round_trip lower (mems : list RosterMember) :
  NoDup (roster_id <$> active mems) ->
  let c := cache_members lower mems new_client in
  forall e d,
    user_cache c !! e = Some d ->
    id_map c !! user_id d = Some d /\ round_trip c e = Some e.
Proof.
  intros Hnd c e d Hd. subst c.
  assert (Hsame : id_map (cache_members lower mems new_client) !! user_id d = Some d).
  { refine (cache_members_same_record lower mems new_client Hnd _ _ e d Hd).
    - intros mem _. apply lookup_empty.
    - intros e' d' H. simpl in H. by rewrite lookup_empty in H. }
  split; [done|].
  destruct (cache_members_agree lower mems new_client new_client_agree) as [_ Hcache].
  destruct (Hcache e d Hd) as (Hem & Hne & _).
  unfold round_trip, email_of. rewrite Hd, Hsame, Hem. by rewrite decide_False.
Qed.

Lemma distinct_ids_round_trip_witness :
  round_trip (cache_members ascii_lower small_roster new_client) "alice@x.com" =
    Some "alice@x.com".
Proof.
  eapply (distinct_ids_round_trip ascii_lower small_roster).
  - apply (bool_decide_unpack _). vm_compute. exact I.
  - vm_compute. reflexivity.
Defined.

Lemma NoDup_fmap_elem_eq {A B} (f : A -> B) (l : list A) (x y : A) :
  NoDup (f <$> l) -> x ∈ l -> y ∈ l -> f x = f y -> x = y.
Proof.
  induction l as [|a l IH]; intros Hnd Hx Hy Heq; [by apply elem_of_nil in Hx|].
  rewrite fmap_cons in Hnd. apply NoDup_cons in Hnd as [Hnew Hnd].
  apply elem_of_cons in Hx as [->|Hx]; apply elem_of_cons in Hy as [->|Hy]; try done.
  - exfalso. apply Hnew. rewrite Heq. by apply list_elem_of_fmap_2.
  - exfalso. apply Hnew. rewrite <- Heq. by apply list_elem_of_fmap_2.
  - by apply IH.
Qed.

(** X19: when the members of the roster that are not deleted have different
    (non-empty, lowercased) emails, different members of any channel have
    different emails in the cache by id. *)
Theorem distinct_emails_in_cache lower (mems : list RosterMember) (S_h : gset string) :
  NoDup (cached_emails lower mems) ->
  distinct_emails (cache_members lower mems new_client) S_h.
Proof.
  intros Hnd u1 _ u2 _ [e He] Heq. rewrite He in Heq. symmetry in Heq.
  assert (Hmem : forall u, email_of (cache_members lower mems new_client) u = Some e ->
            exists mem, mem ∈ filter (fun mem => user_email (user_data_of lower mem) <> "")
                                     (active mems) /\
                        roster_id mem = u /\ user_email (user_data_of lower mem) = e).
  { intros u Hu. unfold email_of in Hu.
    destruct (id_map (cache_members lower mems new_client) !! u) as [d|] eqn:Hd; [|done].
    case_decide as Hemp; [done|]. injection Hu as <-.
    apply cache_members_id_map in Hd as [Hd|(mem & Hin & Hid & ->)];
      [by (simpl in Hd; rewrite lookup_empty in Hd)|].
    exists mem. split_and!; try done. by apply list_elem_of_filter. }
  destruct (Hmem u1 He) as (mem1 & Hin1 & <- & Hem1).
  destruct (Hmem u2 Heq) as (mem2 & Hin2 & <- & Hem2).
  f_equal. unfold cached_emails in Hnd.
  apply (NoDup_fmap_elem_eq _ _ mem1 mem2 Hnd Hin1 Hin2). congruence.
Qed.

Lemma distinct_emails_in_cache_witness :
  distinct_emails (cache_members ascii_lower small_roster new_client) {["UA"; "UB"; "UBOT"]}.
Proof.
  apply (distinct_emails_in_cache ascii_lower small_roster {["UA"; "UB"; "UBOT"]}).
  apply (bool_decide_unpack _). vm_compute. exact I.
Defined.

(** ** The single-mapping variant *)

Lemma aligner_calls_app (s s' : AlignerSync.State) (evs : list Event) :
  AlignerSync.calls s' = (AlignerSync.calls s ++ evs)%list -> aligner_calls s s' = evs.
Proof. intros E. unfold aligner_calls. by rewrite E, drop_app_length. Qed.

Lemma emits_say (P : Event -> Prop) (r : AlignerSync.LogRecord) :
  emits P (AlignerSync.say r).
Proof. intros s. exists []. simpl. by rewrite app_nil_r. Qed.

Lemma emits_call (P : Event -> Prop) (c : Call) (answer : list Event -> option Exn) :
  (forall r, P {| ev_call := c; ev_raised := r |}) -> emits P (AlignerSync.call c answer).
Proof. intros HP s. eexists. split; [reflexivity|]. by constructor. Qed.

Lemma emits_answered {A} (P : Event -> Prop) (r : Exn + A) :
  emits P (AlignerSync.answered r).
Proof. destruct r; [apply emits_raise|apply emits_ret]. Qed.

Lemma emits_aligner_get_group_members (P : Event -> Prop) env g :
  emits P (AlignerSync.get_group_members env g).
Proof.
  intros s. unfold AlignerSync.get_group_members.
  apply (emits_try_except P); [apply emits_answered|].
  intros e k [= <-]. apply emits_bind; [apply emits_say|intros _; apply emits_raise].
Qed.

Lemma emits_aligner_get_channel_members (P : Event -> Prop) env c ch :
  emits P (AlignerSync.get_channel_members env c ch).
Proof.
  intros s. unfold AlignerSync.get_channel_members.
  apply (emits_bind P); [|intros; apply emits_ret].
  apply emits_try_except; [apply emits_answered|].
  intros [err t|t] k [= <-].
  apply emits_bind; [apply emits_say|intros _; apply emits_raise].
Qed.

Lemma elem_of_ids_of (c : AlignerSync.SlackClient) (emails : list string) (u : string) :
  u ∈ AlignerSync.ids_of c emails <->
  exists e, e ∈ emails /\ AlignerSync.email_to_id_map c !! e = Some u.
Proof. unfold AlignerSync.ids_of. apply list_elem_of_omap. Qed.

Lemma elem_of_emails_of (c : AlignerSync.SlackClient) (ids : gset string) (e : string) :
  e ∈ AlignerSync.emails_of c ids <->
  exists u, u ∈ ids /\ AlignerSync.id_to_email_map c !! u = Some e.
Proof.
  unfold AlignerSync.emails_of. rewrite elem_of_list_to_set, list_elem_of_omap.
  split; intros (u & Hu & ?); exists u; split; try done; by apply elem_of_elements.
Qed.

(** *** The chunks of [add_users_to_channel] *)

Lemma concat_aligner_chunks (l : list string) : concat (aligner_chunks l) = l.
Proof.
  unfold aligner_chunks, range. rewrite concat_slices. rewrite Nat.mul_0_l, drop_0.
  apply take_ge. unfold AlignerSync.chunk_size.
  pose proof (Nat.div_mod_eq (length l + 50 - 1) 50) as H.
  pose proof (Nat.mod_upper_bound (length l + 50 - 1) 50 ltac:(lia)) as H'.
  set (q := (length l + 50 - 1) / 50) in *.
  set (r := (length l + 50 - 1) mod 50) in *. lia.
Qed.

Lemma aligner_chunk_bounds (l us : list string) :
  us ∈ aligner_chunks l -> 1 <= length us <= 50.
Proof.
  unfold aligner_chunks, range. intros H.
  apply list_elem_of_fmap in H as (i & -> & Hi).
  apply list_elem_of_fmap in Hi as (k & -> & Hk).
  apply elem_of_seq in Hk as [_ Hk].
  unfold slice, AlignerSync.chunk_size in *.
  rewrite length_take, length_drop.
  pose proof (Nat.div_mod_eq (length l + 50 - 1) 50) as Hd.
  pose proof (Nat.mod_upper_bound (length l + 50 - 1) 50 ltac:(lia)) as Hm.
  set (q := (length l + 50 - 1) / 50) in *.
  set (r := (length l + 50 - 1) mod 50) in *. lia.
Qed.

Lemma elem_of_aligner_chunk (l us : list string) (u : string) :
  us ∈ aligner_chunks l -> u ∈ us -> u ∈ l.
Proof.
  intros Hus Hu. rewrite <- (concat_aligner_chunks l).
  induction Hus as [us cs|us' us cs _ IH]; simpl; rewrite elem_of_app; auto.
Qed.

(** *** The calls of the two loops *)

Lemma emits_add_chunk (P : Event -> Prop) env ch chunk :
  (forall r, P {| ev_call := conversations_invite ch chunk; ev_raised := r |}) ->
  emits P (AlignerSync.add_chunk env ch chunk).
Proof.
  intros HP. unfold AlignerSync.add_chunk. apply emits_try_except.
  - apply emits_bind; [by apply emits_call|intros _; apply emits_say].
  - intros [err t|t] k [= <-]. case_decide; [apply emits_ret|apply emits_say].
Qed.

Lemma emits_add_loop (P : Event -> Prop) env ch ids starts :
  (forall i r, i ∈ starts ->
     P {| ev_call := conversations_invite ch (slice ids i (i + AlignerSync.chunk_size));
          ev_raised := r |}) ->
  emits P (AlignerSync.add_loop env ch ids starts).
Proof.
  induction starts as [|i starts IH]; intros HP; [apply emits_ret|].
  cbn [AlignerSync.add_loop]. apply emits_bind.
  - apply emits_add_chunk. intros r. apply HP. by left.
  - intros _. apply IH. intros j r Hj. apply HP. by right.
Qed.

(** Whatever the answers are, [add_users_to_channel] only issues invites to
    the given channel, of chunks of the ids mapped from the emails. *)
Lemma emits_add_users (P : Event -> Prop) env c ch emails :
  (forall us r, us ∈ aligner_chunks (AlignerSync.ids_of c emails) ->
     P {| ev_call := conversations_invite ch us; ev_raised := r |}) ->
  emits P (AlignerSync.add_users_to_channel env c ch emails).
Proof.
  intros HP. unfold AlignerSync.add_users_to_channel.
  destruct (AlignerSync.ids_of c emails) as [|u ids] eqn:E; [apply emits_ret|].
  apply emits_add_loop. intros i r Hi. apply HP. unfold aligner_chunks.
  apply list_elem_of_fmap. by exists i.
Qed.

Lemma emits_remove_user (P : Event -> Prop) env ch u :
  (forall r, P {| ev_call := conversations_kick ch u; ev_raised := r |}) ->
  emits P (AlignerSync.remove_user env ch u).
Proof.
  intros HP. unfold AlignerSync.remove_user. apply emits_try_except.
  - apply emits_bind; [by apply emits_call|intros _; apply emits_say].
  - intros [err t|t] k [= <-]. apply emits_say.
Qed.

Lemma emits_remove_loop (P : Event -> Prop) env ch ids :
  (forall u r, u ∈ ids -> P {| ev_call := conversations_kick ch u; ev_raised := r |}) ->
  emits P (AlignerSync.remove_loop env ch ids).
Proof.
  induction ids as [|u ids IH]; intros HP; [apply emits_ret|].
  cbn [AlignerSync.remove_loop]. apply emits_bind.
  - apply emits_remove_user. intros r. apply HP. by left.
  - intros _. apply IH. intros j r Hj. apply HP. by right.
Qed.

(** Step 4 only invites chunks of the accounts of [to_add], only kicks
    accounts of [to_remove], and makes a call only in a real run, a kick only
    when removals are asked for. *)
Lemma emits_execute (P : Event -> Prop) env c ord ch (rm dry : bool)
    (to_add to_remove : gset string) :
  (dry = false -> forall us r,
     us ∈ aligner_chunks (AlignerSync.ids_of c (enum ord to_add)) ->
     P {| ev_call := conversations_invite ch us; ev_raised := r |}) ->
  (dry = false -> rm = true -> forall u r,
     u ∈ AlignerSync.ids_of c (enum ord to_remove) ->
     P {| ev_call := conversations_kick ch u; ev_raised := r |}) ->
  emits P (AlignerSync.execute env c ord ch rm dry to_add to_remove).
Proof.
  intros Hadd Hrm. unfold AlignerSync.execute. destruct dry.
  - apply emits_bind; [apply emits_say|intros _].
    destruct rm; [apply emits_say|apply emits_ret].
  - apply emits_bind.
    + case_decide; [apply emits_ret|]. apply emits_add_users. by apply Hadd.
    + intros _. destruct rm; simpl.
      * case_bool_decide; simpl.
        -- case_decide; [apply emits_ret|done].
        -- apply emits_remove_loop. by apply Hrm.
      * case_decide; [apply emits_ret|apply emits_say].
Qed.

Lemma emits_sync (P : Event -> Prop) env c ord g ch (rm dry : bool) :
  (dry = false -> forall us r,
     P {| ev_call := conversations_invite ch us; ev_raised := r |}) ->
  (dry = false -> rm = true -> forall u r,
     P {| ev_call := conversations_kick ch u; ev_raised := r |}) ->
  emits P (AlignerSync.sync_group_to_channel env c ord g ch rm dry).
Proof.
  intros Hadd Hrm. unfold AlignerSync.sync_group_to_channel.
  apply emits_bind; [apply emits_say|intros _].
  apply emits_bind; [apply emits_aligner_get_group_members|intros G].
  apply emits_bind; [apply emits_say|intros _].
  apply emits_bind; [apply emits_aligner_get_channel_members|intros S_e].
  apply emits_bind; [apply emits_say|intros _]. cbv zeta.
  apply emits_bind; [apply emits_say|intros _].
  apply emits_execute; auto.
Qed.

(** When both listings answer, the run is step 4 on their difference. *)
Lemma sync_listed env c ord g ch (rm dry : bool) (s : AlignerSync.State)
    (G ids : gset string) :
  group_members env (AlignerSync.calls s) g = inr G ->
  channel_members env (AlignerSync.calls s) ch = inr ids ->
  exists s1,
    AlignerSync.calls s1 = AlignerSync.calls s /\
    AlignerSync.sync_group_to_channel env c ord g ch rm dry s =
    AlignerSync.execute env c ord ch rm dry
      (Aligner.to_add G (AlignerSync.emails_of c ids))
      (Aligner.to_remove G (AlignerSync.emails_of c ids)) s1.
Proof.
  intros HG Hids. unfold AlignerSync.sync_group_to_channel.
  unfold bind at 1. cbn [AlignerSync.say].
  unfold bind at 1. unfold AlignerSync.get_group_members, try_except. cbn [AlignerSync.calls].
  rewrite HG. cbn [AlignerSync.answered ret].
  unfold bind at 1. cbn [AlignerSync.say].
  unfold bind at 1. unfold AlignerSync.get_channel_members.
  unfold bind at 1. unfold try_except. cbn [AlignerSync.calls].
  rewrite Hids. cbn [AlignerSync.answered ret].
  unfold bind at 1. cbn [AlignerSync.say]. cbv zeta.
  unfold bind at 1. cbn [AlignerSync.say].
  eexists. split; [|reflexivity]. done.
Qed.

(** ** What a run of [aligner.py] calls for *)

(** X20: a dry run of [sync_group_to_channel] makes no call to Slack,
    whatever the two listings answer and whether or not removals are asked
    for. *)
Theorem aligner_dry_run_makes_no_call env c ord g ch (rm : bool)
    (s : AlignerSync.State) :
  AlignerSync.calls (AlignerSync.sync_group_to_channel env c ord g ch rm true s).1 =
  AlignerSync.calls s.
Proof.
  apply (emits_nothing (AlignerSync.sync_group_to_channel env c ord g ch rm true) s).
  apply emits_sync; discriminate.
Qed.

(** X21: without [remove_extras] nobody is removed: whatever the services
    answer, every call of the run is an invite to the given channel. *)
Theorem no_removal_without_remove_extras env c ord g ch (dry : bool)
    (s : AlignerSync.State) :
  Forall (fun ev => exists us, ev_call ev = conversations_invite ch us)
    (aligner_calls s
       (AlignerSync.sync_group_to_channel env c ord g ch false dry s).1).
Proof.
  destruct (emits_sync (fun ev => exists us, ev_call ev = conversations_invite ch us)
              env c ord g ch false dry) with (s := s) as (evs & E & HP).
  - intros _ us r. by exists us.
  - discriminate.
  - by rewrite (aligner_calls_app _ _ _ E).
Qed.

(** With the listings answered by [G] and [ids], every call is an invite of
    accounts mapped from emails of the group that no listed member has, or,
    when removals are asked for, a kick of the account mapped from the email
    of a listed member that is not in the group. *)
Lemma sync_calls env c ord g ch (rm dry : bool) (s : AlignerSync.State)
    (G ids : gset string) :
  group_members env (AlignerSync.calls s) g = inr G ->
  channel_members env (AlignerSync.calls s) ch = inr ids ->
  Forall (fun ev =>
            dry = false /\
            (aligner_invite c ch (G ∖ AlignerSync.emails_of c ids) ev \/
             rm = true /\ aligner_kick c ch (AlignerSync.emails_of c ids ∖ G) ev))
    (aligner_calls s (AlignerSync.sync_group_to_channel env c ord g ch rm dry s).1).
Proof.
  intros HG Hids.
  destruct (sync_listed env c ord g ch rm dry s G ids HG Hids) as (s1 & Es & ->).
  set (P := fun ev =>
            dry = false /\
            (aligner_invite c ch (G ∖ AlignerSync.emails_of c ids) ev \/
             rm = true /\ aligner_kick c ch (AlignerSync.emails_of c ids ∖ G) ev)).
  destruct (emits_execute P env c ord ch rm dry
              (Aligner.to_add G (AlignerSync.emails_of c ids))
              (Aligner.to_remove G (AlignerSync.emails_of c ids)))
    with (s := s1) as (evs & E & HP).
  - intros Hdry us r Hus. split; [done|]. left. exists us. split; [done|].
    intros u Hu. apply (elem_of_aligner_chunk _ _ _ Hus) in Hu.
    apply elem_of_ids_of in Hu as (e & He & Hlk). exists e. split; [|done].
    by apply elem_of_enum in He.
  - intros Hdry Hrm u r Hu. split; [done|]. right. split; [done|].
    apply elem_of_ids_of in Hu as (e & He & Hlk). exists e, u. split_and!; [done| |done].
    by apply elem_of_enum in He.
  - unfold events_of, AlignerState_events in E. rewrite Es in E.
    by rewrite (aligner_calls_app _ _ _ E).
Qed.

(** X22: when the two listings answer, a run only calls for what the
    difference asks: every call is made in a real run and is either an invite
    to the channel of accounts whose email is in the group and is the email
    of no listed member, or, with [remove_extras], a kick from the channel of
    the account mapped from the email of a listed member that the group does
    not have. *)
Theorem aligner_calls_follow_the_diff env c ord g ch (rm dry : bool)
    (s : AlignerSync.State) (G ids : gset string) :
  group_members env (AlignerSync.calls s) g = inr G ->
  channel_members env (AlignerSync.calls s) ch = inr ids ->
  Forall (fun ev =>
            dry = false /\
            (aligner_invite c ch (G ∖ AlignerSync.emails_of c ids) ev \/
             rm = true /\ aligner_kick c ch (AlignerSync.emails_of c ids ∖ G) ev))
    (aligner_calls s (AlignerSync.sync_group_to_channel env c ord g ch rm dry s).1).
Proof. apply sync_calls. Qed.

Lemma aligner_calls_follow_the_diff_witness :
  Forall (fun ev =>
            false = false /\
            (aligner_invite aligner_abc "C1"
               ({["a@x.com"; "b@x.com"]} ∖ AlignerSync.emails_of aligner_abc {["UB"; "UC"]}) ev \/
             true = true /\
             aligner_kick aligner_abc "C1"
               (AlignerSync.emails_of aligner_abc {["UB"; "UC"]} ∖ {["a@x.com"; "b@x.com"]}) ev))
    (aligner_calls AlignerSync.start
       (AlignerSync.sync_group_to_channel
          (obliging {["a@x.com"; "b@x.com"]} {["UB"; "UC"]}) aligner_abc elements_order
          "eng@x.com" "C1" true false AlignerSync.start).1).
Proof.
  apply (aligner_calls_follow_the_diff
           (obliging {["a@x.com"; "b@x.com"]} {["UB"; "UC"]}) aligner_abc elements_order
           "eng@x.com" "C1" true false AlignerSync.start
           {["a@x.com"; "b@x.com"]} {["UB"; "UC"]}); reflexivity.
Defined.

(** X23: when the two maps are inverse of each other, removals and
    invitations concern the right accounts: every account kicked is a listed
    member of the channel whose email the group does not have, and every
    account invited is not a listed member and has an email of the group. *)
Theorem aligner_calls_concern_the_right_accounts env c ord g ch (rm dry : bool)
    (s : AlignerSync.State) (G ids : gset string) :
  inverse_maps c ->
  group_members env (AlignerSync.calls s) g = inr G ->
  channel_members env (AlignerSync.calls s) ch = inr ids ->
  Forall (fun ev =>
            match ev_call ev with
            | conversations_kick _ u =>
                u ∈ ids /\
                exists e, AlignerSync.id_to_email_map c !! u = Some e /\ (e ∉ G)
            | conversations_invite _ us =>
                forall u, u ∈ us ->
                  (u ∉ ids) /\
                  exists e, AlignerSync.id_to_email_map c !! u = Some e /\ e ∈ G
            | chat_postMessage _ _ => False
            end)
    (aligner_calls s (AlignerSync.sync_group_to_channel env c ord g ch rm dry s).1).
Proof.
  intros Hinv HG Hids.
  eapply Forall_impl; [exact (sync_calls env c ord g ch rm dry s G ids HG Hids)|].
  intros ev (_ & [(us & -> & Hus)|(_ & e & u & -> & He & Hlk)]).
  - intros u Hu. destruct (Hus u Hu) as (e & He & Hlk).
    apply elem_of_difference in He as [HeG HeS]. apply Hinv in Hlk. split; [|by exists e].
    intros Hin. apply HeS. apply elem_of_emails_of. by exists u.
  - apply elem_of_difference in He as [HeS HeG].
    apply elem_of_emails_of in HeS as (u' & Hu' & Hlk').
    apply Hinv in Hlk'. rewrite Hlk in Hlk'. injection Hlk' as <-.
    split; [done|]. exists e. split; [by apply Hinv|done].
Qed.

(** ** The two maps of [aligner.py] *)

(** A map filled by a loop of insertions. *)
Lemma foldl_insert_lookup {P} (f g : P -> string) (l : list P)
    (m : gmap string string) (k v : string) :
  foldl (fun m p => <[f p := g p]> m) m l !! k = Some v ->
  m !! k = Some v \/ exists p, p ∈ l /\ f p = k /\ g p = v.
Proof.
  revert m. induction l as [|p l IH]; intros m; [by left|]. cbn [foldl]. intros H.
  apply IH in H as [H|(q & Hq & ? & ?)].
  - destruct (decide (f p = k)) as [<-|Hne].
    + rewrite lookup_insert_eq in H. injection H as <-. right. exists p.
      split; [by left|done].
    + rewrite lookup_insert_ne in H by done. by left.
  - right. exists q. split; [by right|done].
Qed.

Lemma foldl_insert_other {P} (f g : P -> string) (l : list P)
    (m : gmap string string) (k : string) :
  (k ∉ f <$> l) -> foldl (fun m p => <[f p := g p]> m) m l !! k = m !! k.
Proof.
  revert m. induction l as [|p l IH]; intros m Hk; [done|]. cbn [foldl].
  rewrite fmap_cons, not_elem_of_cons in Hk. destruct Hk as [Hne Hk].
  rewrite IH by done. by rewrite lookup_insert_ne.
Qed.

Lemma foldl_insert_keeps {P} (f g : P -> string) (l : list P)
    (m : gmap string string) (k : string) :
  is_Some (m !! k) -> is_Some (foldl (fun m p => <[f p := g p]> m) m l !! k).
Proof.
  revert m. induction l as [|p l IH]; intros m Hk; [done|]. cbn [foldl].
  apply IH. destruct (decide (f p = k)) as [<-|Hne].
  - by rewrite lookup_insert_eq.
  - by rewrite lookup_insert_ne.
Qed.

Lemma foldl_insert_key {P} (f g : P -> string) (l : list P)
    (m : gmap string string) (p : P) :
  p ∈ l -> is_Some (foldl (fun m p => <[f p := g p]> m) m l !! f p).
Proof.
  revert m. induction l as [|q l IH]; intros m Hp; [by apply elem_of_nil in Hp|].
  cbn [foldl]. apply elem_of_cons in Hp as [<-|Hp]; [|by apply IH].
  apply foldl_insert_keeps. by rewrite lookup_insert_eq.
Qed.

Lemma foldl_insert_distinct {P} (f g : P -> string) (l : list P)
    (m : gmap string string) (p : P) :
  NoDup (f <$> l) -> p ∈ l ->
  foldl (fun m p => <[f p := g p]> m) m l !! f p = Some (g p).
Proof.
  revert m. induction l as [|q l IH]; intros m Hnd Hp; [by apply elem_of_nil in Hp|].
  rewrite fmap_cons in Hnd. apply NoDup_cons in Hnd as [Hq Hnd]. cbn [foldl].
  apply elem_of_cons in Hp as [<-|Hp]; [|by apply IH].
  rewrite foldl_insert_other by done. by rewrite lookup_insert_eq.
Qed.

Lemma aligner_cache_members_cons lower mem mems c :
  AlignerSync.cache_members lower (mem :: mems) c =
  AlignerSync.cache_members lower mems (AlignerSync.cache_member lower mem c).
Proof. done. Qed.

(** The two maps after the loop are the pairs stored, one after the other. *)
Lemma aligner_cache_members_pairs lower mems c :
  AlignerSync.cache_members lower mems c =
  {| AlignerSync.email_to_id_map :=
       foldl (fun m p => <[p.2 := p.1]> m) (AlignerSync.email_to_id_map c)
         (cached_pairs lower mems);
     AlignerSync.id_to_email_map :=
       foldl (fun m p => <[p.1 := p.2]> m) (AlignerSync.id_to_email_map c)
         (cached_pairs lower mems) |}.
Proof.
  revert c. induction mems as [|mem mems IH]; intros c; [by destruct c|].
  rewrite aligner_cache_members_cons, IH. unfold cached_pairs. cbn [omap list_omap].
  unfold AlignerSync.cache_member.
  destruct (negb (AlignerSync.member_deleted mem) && negb (AlignerSync.member_is_bot mem));
    [|done].
  by destruct (AlignerSync.member_email mem).
Qed.

Lemma cache_members_inverse lower mems :
  NoDup (cached_pairs lower mems).*1 -> NoDup (cached_pairs lower mems).*2 ->
  inverse_maps (AlignerSync.cache_members lower mems AlignerSync.new_client).
Proof.
  intros Hid Hem u e. rewrite aligner_cache_members_pairs. simpl. split; intros H.
  - apply (foldl_insert_lookup fst snd) in H
      as [H|([u' e'] & Hp & ? & ?)]; [by rewrite lookup_empty in H|simplify_eq/=].
    by apply (foldl_insert_distinct snd fst _ _ (u, e)).
  - apply (foldl_insert_lookup snd fst) in H
      as [H|([u' e'] & Hp & ? & ?)]; [by rewrite lookup_empty in H|simplify_eq/=].
    by apply (foldl_insert_distinct fst snd _ _ (u, e)).
Qed.

(** X24: [populate_user_cache] of [aligner.py] stores nothing for a deleted
    account, a bot or an account without email: every entry of either map is
    a pair of id and lowered email of a member that is none of these, and
    every such member has its id and its email among the keys. *)
Theorem aligner_cache_holds_the_humans lower (mems : list AlignerSync.Member) :
  let c := AlignerSync.cache_members lower mems AlignerSync.new_client in
  (forall u e, AlignerSync.id_to_email_map c !! u = Some e ->
               (u, e) ∈ cached_pairs lower mems) /\
  (forall u e, AlignerSync.email_to_id_map c !! e = Some u ->
               (u, e) ∈ cached_pairs lower mems) /\
  (forall u e, (u, e) ∈ cached_pairs lower mems ->
               is_Some (AlignerSync.id_to_email_map c !! u) /\
               is_Some (AlignerSync.email_to_id_map c !! e)).
Proof.
  intros c. subst c. rewrite aligner_cache_members_pairs. simpl. split_and!.
  - intros u e H. apply (foldl_insert_lookup fst snd) in H
      as [H|([u' e'] & Hp & ? & ?)]; [by rewrite lookup_empty in H|by simplify_eq/=].
  - intros u e H. apply (foldl_insert_lookup snd fst) in H
      as [H|([u' e'] & Hp & ? & ?)]; [by rewrite lookup_empty in H|by simplify_eq/=].
  - intros u e H. split.
    + apply (foldl_insert_key fst snd _ _ (u, e) H).
    + apply (foldl_insert_key snd fst _ _ (u, e) H).
Qed.

(** X25: when the members stored have distinct ids and distinct lowered
    emails, the two maps are inverse of each other and hold exactly the pairs
    stored. *)
Theorem aligner_maps_are_inverse lower (mems : list AlignerSync.Member) :
  NoDup (cached_pairs lower mems).*1 ->
  NoDup (cached_pairs lower mems).*2 ->
  let c := AlignerSync.cache_members lower mems AlignerSync.new_client in
  inverse_maps c /\
  forall u e, AlignerSync.id_to_email_map c !! u = Some e <->
              (u, e) ∈ cached_pairs lower mems.
Proof.
  intros Hid Hem c. split; [by apply cache_members_inverse|].
  intros u e. subst c. rewrite aligner_cache_members_pairs. simpl. split.
  - intros H. apply (foldl_insert_lookup fst snd) in H
      as [H|([u' e'] & Hp & ? & ?)]; [by rewrite lookup_empty in H|by simplify_eq/=].
  - intros H. by apply (foldl_insert_distinct fst snd _ _ (u, e)).
Qed.

Lemma aligner_maps_are_inverse_witness :
  let c := AlignerSync.cache_members ascii_lower aligner_roster AlignerSync.new_client in
  inverse_maps c /\
  forall u e, AlignerSync.id_to_email_map c !! u = Some e <->
              (u, e) ∈ cached_pairs ascii_lower aligner_roster.
Proof.
  apply (aligner_maps_are_inverse ascii_lower aligner_roster).
  - vm_compute. repeat constructor; set_solver.
  - vm_compute. repeat constructor; set_solver.
Defined.

Lemma aligner_calls_concern_the_right_accounts_witness :
  Forall (fun ev =>
            match ev_call ev with
            | conversations_kick _ u =>
                u ∈ ({["UB"; "UC"]} : gset string) /\
                exists e, AlignerSync.id_to_email_map aligner_abc !! u = Some e /\
                          (e ∉ ({["a@x.com"; "b@x.com"]} : gset string))
            | conversations_invite _ us =>
                forall u, u ∈ us ->
                  (u ∉ ({["UB"; "UC"]} : gset string)) /\
                  exists e, AlignerSync.id_to_email_map aligner_abc !! u = Some e /\
                            e ∈ ({["a@x.com"; "b@x.com"]} : gset string)
            | chat_postMessage _ _ => False
            end)
    (aligner_calls AlignerSync.start
       (AlignerSync.sync_group_to_channel
          (obliging {["a@x.com"; "b@x.com"]} {["UB"; "UC"]}) aligner_abc elements_order
          "eng@x.com" "C1" true false AlignerSync.start).1).
Proof.
  apply (aligner_calls_concern_the_right_accounts
           (obliging {["a@x.com"; "b@x.com"]} {["UB"; "UC"]}) aligner_abc elements_order
           "eng@x.com" "C1" true false AlignerSync.start
           {["a@x.com"; "b@x.com"]} {["UB"; "UC"]}); [|reflexivity..].
  apply cache_members_inverse; vm_compute; repeat constructor; set_solver.
Defined.

(** ** The two loops of [aligner.py] under Slack errors *)

Lemma add_chunk_slack env ch chunk (s : AlignerSync.State) :
  slack_outcome (invite_response env (AlignerSync.calls s) ch chunk) ->
  exists s',
    AlignerSync.add_chunk env ch chunk s = (s', inr tt) /\
    AlignerSync.calls s' =
      (AlignerSync.calls s ++
       [{| ev_call := conversations_invite ch chunk;
           ev_raised := invite_response env (AlignerSync.calls s) ch chunk |}])%list.
Proof.
  intros Hr. unfold AlignerSync.add_chunk, try_except, bind, AlignerSync.call. cbv zeta.
  destruct (invite_response env (AlignerSync.calls s) ch chunk) as [[err t|t]|];
    [|done|].
  - case_decide; eexists; split; reflexivity.
  - eexists; split; reflexivity.
Qed.

Lemma add_loop_slack env ch ids starts (s : AlignerSync.State) :
  (forall h us, slack_outcome (invite_response env h ch us)) ->
  exists s' evs,
    AlignerSync.add_loop env ch ids starts s = (s', inr tt) /\
    AlignerSync.calls s' = (AlignerSync.calls s ++ evs)%list /\
    ev_call <$> evs =
      conversations_invite ch <$>
        ((fun i => slice ids i (i + AlignerSync.chunk_size)) <$> starts).
Proof.
  intros Hslack. revert s. induction starts as [|i starts IH]; intros s.
  - exists s, []. by rewrite app_nil_r.
  - cbn [AlignerSync.add_loop]. unfold bind.
    destruct (add_chunk_slack env ch (slice ids i (i + AlignerSync.chunk_size)) s
                (Hslack _ _)) as (s1 & -> & E1).
    destruct (IH s1) as (s' & evs & -> & E & Hevs).
    eexists s', (_ :: evs). split_and!; [done| |].
    + rewrite E, E1, <- app_assoc. reflexivity.
    + rewrite !fmap_cons. by rewrite Hevs.
Qed.

(** X26: a Slack error on a chunk does not stop [add_users_to_channel]: when
    the invite endpoint raises nothing but Slack errors, the function returns
    and has called the endpoint once for every chunk, in order; the chunks
    have between one and fifty ids and, put together, are the ids mapped
    from the emails. *)
Theorem add_users_tries_every_chunk env c ch (emails : list string)
    (s : AlignerSync.State) :
  (forall h us, slack_outcome (invite_response env h ch us)) ->
  let r := AlignerSync.add_users_to_channel env c ch emails s in
  r.2 = inr tt /\
  ev_call <$> aligner_calls s r.1 =
    conversations_invite ch <$> aligner_chunks (AlignerSync.ids_of c emails) /\
  concat (aligner_chunks (AlignerSync.ids_of c emails)) = AlignerSync.ids_of c emails /\
  Forall (fun us => 1 <= length us <= 50) (aligner_chunks (AlignerSync.ids_of c emails)).
Proof.
  intros Hslack r. subst r. split_and!.
  - unfold AlignerSync.add_users_to_channel.
    destruct (AlignerSync.ids_of c emails) as [|u ids]; [done|].
    by destruct (add_loop_slack env ch (u :: ids)
                   (range (length (u :: ids)) AlignerSync.chunk_size) s Hslack)
      as (s' & evs & -> & _).
  - unfold AlignerSync.add_users_to_channel.
    destruct (AlignerSync.ids_of c emails) as [|u ids].
    + unfold aligner_calls. simpl. by rewrite drop_all.
    + destruct (add_loop_slack env ch (u :: ids)
                  (range (length (u :: ids)) AlignerSync.chunk_size) s Hslack)
        as (s' & evs & -> & E & Hevs).
      cbn [fst]. by rewrite (aligner_calls_app _ _ _ E).
  - apply concat_aligner_chunks.
  - apply Forall_forall. intros us. apply aligner_chunk_bounds.
Qed.

Lemma add_users_tries_every_chunk_witness :
  let r := AlignerSync.add_users_to_channel (refusing_invites ∅ ∅) aligner_abc "C1"
             ["c@x.com"; "z@x.com"; "a@x.com"] AlignerSync.start in
  r.2 = inr tt /\
  ev_call <$> aligner_calls AlignerSync.start r.1 =
    conversations_invite "C1" <$>
      aligner_chunks (AlignerSync.ids_of aligner_abc ["c@x.com"; "z@x.com"; "a@x.com"]) /\
  concat (aligner_chunks (AlignerSync.ids_of aligner_abc ["c@x.com"; "z@x.com"; "a@x.com"])) =
    AlignerSync.ids_of aligner_abc ["c@x.com"; "z@x.com"; "a@x.com"] /\
  Forall (fun us => 1 <= length us <= 50)
    (aligner_chunks (AlignerSync.ids_of aligner_abc ["c@x.com"; "z@x.com"; "a@x.com"])).
Proof.
  apply (add_users_tries_every_chunk (refusing_invites ∅ ∅) aligner_abc "C1"
           ["c@x.com"; "z@x.com"; "a@x.com"] AlignerSync.start).
  intros h us. simpl. exact I.
Defined.

Lemma remove_user_slack env ch u (s : AlignerSync.State) :
  slack_outcome (kick_response env (AlignerSync.calls s) ch u) ->
  exists s',
    let ev := {| ev_call := conversations_kick ch u;
                 ev_raised := kick_response env (AlignerSync.calls s) ch u |} in
    AlignerSync.remove_user env ch u s = (s', inr tt) /\
    AlignerSync.calls s' = (AlignerSync.calls s ++ [ev])%list /\
    AlignerSync.records s' = (AlignerSync.records s ++ removal_record ch ev)%list.
Proof.
  intros Hr. unfold AlignerSync.remove_user, try_except, bind, AlignerSync.call.
  cbv zeta. unfold removal_record. cbn [ev_call ev_raised].
  destruct (kick_response env (AlignerSync.calls s) ch u) as [[err t|t]|];
    [|done|]; eexists; split_and!; reflexivity.
Qed.

Lemma remove_loop_slack env ch ids (s : AlignerSync.State) :
  (forall h u, slack_outcome (kick_response env h ch u)) ->
  exists s' evs,
    AlignerSync.remove_loop env ch ids s = (s', inr tt) /\
    AlignerSync.calls s' = (AlignerSync.calls s ++ evs)%list /\
    AlignerSync.records s' = (AlignerSync.records s ++ (evs ≫= removal_record ch))%list /\
    ev_call <$> evs = conversations_kick ch <$> ids.
Proof.
  intros Hslack. revert s. induction ids as [|u ids IH]; intros s.
  - exists s, []. simpl. by rewrite !app_nil_r.
  - cbn [AlignerSync.remove_loop]. unfold bind.
    destruct (remove_user_slack env ch u s (Hslack _ _)) as (s1 & -> & E1 & L1).
    destruct (IH s1) as (s' & evs & -> & E & L & Hevs).
    eexists s', (_ :: evs). split_and!; [done| | |].
    + rewrite E, E1, <- app_assoc. reflexivity.
    + rewrite L, L1, <- app_assoc, bind_cons. reflexivity.
    + rewrite !fmap_cons. by rewrite Hevs.
Qed.

(** X27: a Slack error on a kick does not stop [remove_users_from_channel]:
    when the kick endpoint raises nothing but Slack errors, the function
    returns after one kick for every email that has an account, in the order
    of the emails, and logs one record for each: the removal, or the error
    code of the refusal. *)
Theorem remove_users_tries_every_account env c ch (emails : list string)
    (s : AlignerSync.State) :
  (forall h u, slack_outcome (kick_response env h ch u)) ->
  let r := AlignerSync.remove_users_from_channel env c ch emails s in
  r.2 = inr tt /\
  ev_call <$> aligner_calls s r.1 =
    conversations_kick ch <$> AlignerSync.ids_of c emails /\
  aligner_records s r.1 = aligner_calls s r.1 ≫= removal_record ch.
Proof.
  intros Hslack r. subst r. unfold AlignerSync.remove_users_from_channel.
  destruct (remove_loop_slack env ch (AlignerSync.ids_of c emails) s Hslack)
    as (s' & evs & -> & E & L & Hevs).
  cbn [fst snd]. rewrite (aligner_calls_app _ _ _ E). split_and!; [done..|].
  unfold aligner_records. by rewrite L, drop_app_length.
Qed.

Lemma remove_users_tries_every_account_witness :
  let r := AlignerSync.remove_users_from_channel (refusing_kick ∅ ∅ "UC") aligner_abc "C1"
             ["c@x.com"; "z@x.com"; "a@x.com"] AlignerSync.start in
  r.2 = inr tt /\
  ev_call <$> aligner_calls AlignerSync.start r.1 =
    conversations_kick "C1" <$>
      AlignerSync.ids_of aligner_abc ["c@x.com"; "z@x.com"; "a@x.com"] /\
  aligner_records AlignerSync.start r.1 =
    aligner_calls AlignerSync.start r.1 ≫= removal_record "C1".
Proof.
  apply (remove_users_tries_every_account (refusing_kick ∅ ∅ "UC") aligner_abc "C1"
           ["c@x.com"; "z@x.com"; "a@x.com"] AlignerSync.start).
  intros h u. simpl. by case_decide.
Defined.

(** ** The user list of [aligner.py], page by page *)

Lemma foldl_aligner_pages lower (pages : list AlignerSync.Page) c :
  foldl (fun c page => AlignerSync.cache_members lower (AlignerSync.page_members page) c)
    c pages =
  AlignerSync.cache_members lower (pages ≫= AlignerSync.page_members) c.
Proof.
  revert c. induction pages as [|page pages IH]; intros c; [done|].
  cbn [foldl]. rewrite IH, bind_cons. unfold AlignerSync.cache_members.
  by rewrite foldl_app.
Qed.

(** X28: when the users are served on a sequence of pages, the last of which
    has no (or an empty) cursor, [populate_user_cache] of [aligner.py] reads
    them all: it returns without an exception and the maps are those of the
    members of all the pages, in their order. *)
Theorem aligner_populate_reads_all_pages lower
    (users_list : option string -> Exn + AlignerSync.Page)
    (pages : list AlignerSync.Page) (fuel : nat) (c : AlignerSync.SlackClient) :
  serves users_list AlignerSync.page_cursor None pages ->
  length pages <= fuel ->
  AlignerSync.populate_user_cache lower users_list fuel c =
    Some (AlignerSync.cache_members lower (pages ≫= AlignerSync.page_members) c,
          [AlignerSync.log_populating], None).
Proof.
  intros Hserves Hfuel. unfold AlignerSync.populate_user_cache.
  rewrite (paginate_serves _ _ _
             (fun c page =>
                AlignerSync.cache_members lower (AlignerSync.page_members page) c)
             pages fuel None c Hserves Hfuel) by done.
  by rewrite foldl_aligner_pages.
Qed.

Lemma aligner_populate_reads_all_pages_witness :
  AlignerSync.populate_user_cache ascii_lower aligner_two_pages 2 AlignerSync.new_client =
    Some (AlignerSync.cache_members ascii_lower
            [human "UA" "A@x.com"; human "UB" "b@x.com"] AlignerSync.new_client,
          [AlignerSync.log_populating], None).
Proof.
  rewrite (aligner_populate_reads_all_pages ascii_lower aligner_two_pages
             [ {| AlignerSync.page_members := [human "UA" "A@x.com"];
                  AlignerSync.page_cursor := Some "p2" |};
               {| AlignerSync.page_members := [human "UB" "b@x.com"];
                  AlignerSync.page_cursor := Some "" |} ]
             2 AlignerSync.new_client).
  - reflexivity.
  - simpl. auto.
  - simpl. lia.
Defined.

(** X29: when a request for a page of users raises after some pages were
    served, [populate_user_cache] of [aligner.py] raises the same exception;
    a Slack error is logged with its code first, any other exception is not;
    the maps keep the members of the pages served before. *)
Theorem aligner_populate_failure_is_raised lower
    (users_list : option string -> Exn + AlignerSync.Page)
    (pages : list AlignerSync.Page) (e : Exn) (fuel : nat)
    (c : AlignerSync.SlackClient) :
  serves_then_fails users_list AlignerSync.page_cursor None pages e ->
  length pages < fuel ->
  AlignerSync.populate_user_cache lower users_list fuel c =
    Some (AlignerSync.cache_members lower (pages ≫= AlignerSync.page_members) c,
          AlignerSync.log_populating ::
            match e with
            | SlackApiError err _ => [AlignerSync.log_fetch_users_error err]
            | Exception _ => []
            end,
          Some e).
Proof.
  intros Hserves Hfuel. unfold AlignerSync.populate_user_cache.
  rewrite (paginate_fails _ _ _
             (fun c page =>
                AlignerSync.cache_members lower (AlignerSync.page_members page) c)
             pages e fuel None c Hserves Hfuel) by done.
  by rewrite foldl_aligner_pages.
Qed.

Lemma aligner_populate_failure_is_raised_witness :
  AlignerSync.populate_user_cache ascii_lower aligner_rate_limited 5
    AlignerSync.new_client =
    Some (AlignerSync.cache_members ascii_lower [human "UA" "A@x.com"]
            AlignerSync.new_client,
          [AlignerSync.log_populating; AlignerSync.log_fetch_users_error "ratelimited"],
          Some (SlackApiError "ratelimited" "ratelimited")).
Proof.
  rewrite (aligner_populate_failure_is_raised ascii_lower aligner_rate_limited
             [ {| AlignerSync.page_members := [human "UA" "A@x.com"];
                  AlignerSync.page_cursor := Some "p2" |} ]
             (SlackApiError "ratelimited" "ratelimited") 5 AlignerSync.new_client).
  - reflexivity.
  - simpl. auto.
  - simpl. lia.
Defined.

(** ** A listing that fails *)

(** X30: when the listing of the group, or after it the listing of the
    channel, raises, [sync_group_to_channel] raises the same exception and
    has made no call to Slack. *)
Theorem aligner_listing_failure_is_raised env c ord g ch (rm dry : bool)
    (s : AlignerSync.State) (e : Exn) :
  group_members env (AlignerSync.calls s) g = inl e \/
  (exists G, group_members env (AlignerSync.calls s) g = inr G) /\
  channel_members env (AlignerSync.calls s) ch = inl e ->
  let r := AlignerSync.sync_group_to_channel env c ord g ch rm dry s in
  r.2 = inl e /\ AlignerSync.calls r.1 = AlignerSync.calls s.
Proof.
  intros H r. subst r.
  assert (exists s', AlignerSync.sync_group_to_channel env c ord g ch rm dry s =
                     (s', inl e) /\ AlignerSync.calls s' = AlignerSync.calls s)
    as (s' & -> & E); [|done].
  unfold AlignerSync.sync_group_to_channel.
  unfold bind at 1. cbn [AlignerSync.say].
  unfold bind at 1. unfold AlignerSync.get_group_members, try_except.
  cbn [AlignerSync.calls].
  destruct H as [HG|[[G HG] Hids]]; rewrite HG; cbn [AlignerSync.answered ret raise].
  - unfold bind, AlignerSync.say, raise. by eexists.
  - unfold bind at 1. cbn [AlignerSync.say].
    unfold bind at 1. unfold AlignerSync.get_channel_members.
    unfold bind at 1. unfold try_except. cbn [AlignerSync.calls].
    rewrite Hids. cbn [AlignerSync.answered raise].
    destruct e as [err t|t]; unfold bind, AlignerSync.say, raise; by eexists.
Qed.

Lemma aligner_listing_failure_is_raised_witness :
  let r := AlignerSync.sync_group_to_channel directory_down aligner_abc elements_order
             "eng@x.com" "C1" true false AlignerSync.start in
  r.2 = inl (Exception "HttpError 503") /\
  AlignerSync.calls r.1 = AlignerSync.calls AlignerSync.start.
Proof.
  apply (aligner_listing_failure_is_raised directory_down aligner_abc elements_order
           "eng@x.com" "C1" true false AlignerSync.start (Exception "HttpError 503")).
  left. reflexivity.
Defined.
